(** * QtPyConvert: old-style signal rewriting and the global alias store

    A shallow embedding of

      - [src/python/qt_py_convert/_modules/psep0101/_qsignal.py]
        ([_connect_repl], [_emit_repl], [process_connect], [process_emit]),
        together with the part of Python's [re] module that the two
        compiled patterns exercise (backtracking matching with greedy and
        lazy repetition, optional groups and named groups, [search],
        [sub] with a callable replacement, [groupdict]);
      - [src/python/qt_py_convert/general.py]
        ([_color], [_change_verbose], the supported bindings,
        [ErrorClass], [AliasDictClass], [merge_dict]).

    The code base is Python 2 ([keys.extend] on [dict.keys()], byte
    strings): strings are byte strings, [\w], [\s] and [.] have their
    ASCII meaning.  Fallible code returns in an exception monad; the
    module-level [AliasDict] and the objects it refers to live in an
    explicit store, threaded through the operations that use it. *)

From Stdlib Require Import Ascii String ZArith Lia.
From stdpp Require Import gmap strings list fin_maps pretty.

(** ** Python exceptions and fallible computations *)

Module Py.

Inductive exn :=
| KeyError (key : string)
| TypeError
| AttributeError
| ValueError
| OutOfFuel.   (* no exception of Python: a loop of the embedding that
                  ran out of rounds; [ReFacts.sub_fuel] shows it is
                  never raised *)

Inductive res (A : Type) :=
| Ok (a : A)
| Raise (e : exn).
Arguments Ok {A} a.
Arguments Raise {A} e.

(** The exception monad, with stdpp's [x ← c; k] notation. *)
Global Instance res_ret : MRet res := λ A a, Ok a.
Global Instance res_bind : MBind res := λ A B f c,
  match c with
  | Ok a => f a
  | Raise e => Raise e
  end.

Definition returns {A} (c : res A) : Prop := ∃ a, c = Ok a.

(** [s[i:j]] for [0 <= i], [0 <= j]: an empty string when [j <= i]. *)
Definition slice (s : string) (i j : nat) : string :=
  String.substring i (j - i) s.

(** The character [chr(34)], spelled by its code. *)
Definition dquote : string := String "034"%char EmptyString.

End Py.

Export Py.

(** ** The fragment of [re] used by [_qsignal.py] *)

Module Re.

(** Character classes ([str] patterns, no flags). *)
Inductive cclass :=
| CDot                    (* [.]  : any character but a newline *)
| CWord                   (* [\w] : [a-zA-Z0-9_] *)
| CSpace                  (* [\s] : [ \t\n\r\f\v] *)
| CSet (l : list ascii).  (* [[...]] *)

Definition between (lo hi n : nat) : bool := (lo <=? n)%nat && (n <=? hi)%nat.

Definition is_word (a : ascii) : bool :=
  let n := nat_of_ascii a in
  between 48 57 n || between 65 90 n || between 97 122 n || (n =? 95)%nat.

Definition is_space (a : ascii) : bool :=
  let n := nat_of_ascii a in between 9 13 n || (n =? 32)%nat.

Definition in_class (c : cclass) (a : ascii) : bool :=
  match c with
  | CDot => negb (Ascii.eqb a "010"%char)
  | CWord => is_word a
  | CSpace => is_space a
  | CSet l => existsb (Ascii.eqb a) l
  end.

(** Patterns.  Only single characters are ever repeated by the two
    compiled patterns, so repetition is over a character class. *)
Inductive regex :=
| RLit (p : string)            (* a literal run of characters *)
| RIn (c : cclass)             (* one character of a class *)
| RSeq (r1 r2 : regex)
| RMaybe (r : regex)           (* [(?:r)?], greedy *)
| RMaxStar (c : cclass)        (* [c*],  greedy *)
| RMinStar (c : cclass)        (* [c*?], lazy *)
| RGroup (name : string) (r : regex).   (* [(?P<name>r)] *)

(** [c+] is one [c] followed by a greedy [c*]. *)
Definition RPlus (c : cclass) : regex := RSeq (RIn c) (RMaxStar c).

Fixpoint RCat (rs : list regex) : regex :=
  match rs with
  | [] => RLit EmptyString
  | [r] => r
  | r :: rs => RSeq r (RCat rs)
  end.

(** [pattern.groupindex]: the named groups, in order. *)
Fixpoint groupindex (r : regex) : list string :=
  match r with
  | RGroup n r => n :: groupindex r
  | RSeq r1 r2 => groupindex r1 ++ groupindex r2
  | RMaybe r => groupindex r
  | _ => []
  end.

(** Group marks: the span [(start, end)] of each group that took part. *)
Abbreviation marks := (gmap string (nat * nat)).

(** The matcher is written against a continuation: what is left of the
    subject, the position reached and the marks set so far.  Failure of
    the continuation makes the matcher try its next alternative, which is
    how backtracking restores marks. *)
Definition cont := string → nat → marks → option (nat * marks).

Fixpoint lit (p rest : string) (pos : nat) : option (string * nat) :=
  match p with
  | EmptyString => Some (rest, pos)
  | String a p' =>
      match rest with
      | String b rest' => if Ascii.eqb a b then lit p' rest' (S pos) else None
      | EmptyString => None
      end
  end.

(** Greedy repetition: take as many characters as possible, give them
    back one at a time. *)
Fixpoint max_star (c : cclass) (rest : string) (pos : nat)
    (k : string → nat → option (nat * marks)) : option (nat * marks) :=
  match rest with
  | String a rest' =>
      if in_class c a then
        match max_star c rest' (S pos) k with
        | Some x => Some x
        | None => k rest pos
        end
      else k rest pos
  | EmptyString => k rest pos
  end.

(** Lazy repetition: try the continuation first, take one more character
    only when it fails. *)
Fixpoint min_star (c : cclass) (rest : string) (pos : nat)
    (k : string → nat → option (nat * marks)) : option (nat * marks) :=
  match k rest pos with
  | Some x => Some x
  | None =>
      match rest with
      | String a rest' =>
          if in_class c a then min_star c rest' (S pos) k else None
      | EmptyString => None
      end
  end.

Fixpoint rmatch (r : regex) (rest : string) (pos : nat) (g : marks)
    (k : cont) : option (nat * marks) :=
  match r with
  | RLit p =>
      match lit p rest pos with
      | Some (rest', pos') => k rest' pos' g
      | None => None
      end
  | RIn c =>
      match rest with
      | String a rest' => if in_class c a then k rest' (S pos) g else None
      | EmptyString => None
      end
  | RSeq r1 r2 =>
      rmatch r1 rest pos g (λ rest' pos' g', rmatch r2 rest' pos' g' k)
  | RMaybe r =>
      match rmatch r rest pos g k with
      | Some x => Some x
      | None => k rest pos g
      end
  | RMaxStar c => max_star c rest pos (λ rest' pos', k rest' pos' g)
  | RMinStar c => min_star c rest pos (λ rest' pos', k rest' pos' g)
  | RGroup n r =>
      rmatch r rest pos g (λ rest' pos' g', k rest' pos' (<[n := (pos, pos')]> g'))
  end.

(** [s[pos:]] *)
Fixpoint drop_str (n : nat) (s : string) : string :=
  match n, s with
  | S n', String _ s' => drop_str n' s'
  | _, _ => s
  end.

(** Match objects. *)
Record match_obj := MatchObj {
  m_re : regex;
  m_string : string;
  m_start : nat;
  m_end : nat;
  m_regs : marks;
}.

(** [pattern.match(s, pos)] *)
Definition match_at (re : regex) (s : string) (pos : nat) : option match_obj :=
  if (String.length s <? pos)%nat then None else
  match rmatch re (drop_str pos s) pos ∅ (λ _ pos' g, Some (pos', g)) with
  | Some (e, g) => Some (MatchObj re s pos e g)
  | None => None
  end.

(** [pattern.search(s, pos)]: the first position, from [pos] up to and
    including the end of [s], at which the pattern matches. *)
Fixpoint search_loop (re : regex) (s : string) (n pos : nat) : option match_obj :=
  match match_at re s pos with
  | Some m => Some m
  | None =>
      match n with
      | O => None
      | S n' => search_loop re s n' (S pos)
      end
  end.

Definition search (re : regex) (s : string) (pos : nat) : option match_obj :=
  search_loop re s (String.length s - pos) pos.

(** [m.group(name)] for a named group: [None] when the group took no part. *)
Definition group (m : match_obj) (name : string) : option string :=
  match m_regs m !! name with
  | Some (a, b) => Some (slice (m_string m) a b)
  | None => None
  end.

(** [m.groupdict()]: every named group of the pattern, with [None] as the
    default of a group that took no part. *)
Definition groupdict (m : match_obj) : gmap string (option string) :=
  list_to_map ((λ n, (n, group m n)) <$> groupindex (m_re m)).

(** [pattern.sub(filter, s)] with a callable [filter], after the loop of
    [pattern_subx] in [_sre.c]: [i] is the end of the last match
    replaced, [start] where the next search begins, [n] the number of
    replacements so far.  An empty match right behind the last
    replacement is passed over.  Each round moves [start] forward, so
    [length s + 2] rounds are never used up. *)
Fixpoint subx_loop (fuel : nat) (re : regex) (filter : match_obj → res string)
    (s : string) (i start n : nat) : res string :=
  match fuel with
  | O => Raise OutOfFuel
  | S fuel' =>
      match search re s start with
      | None => Ok (slice s i (String.length s))
      | Some m =>
          let b := m_start m in
          let e := m_end m in
          let next := if (e =? b)%nat then S e else e in
          if (i =? b)%nat && (i =? e)%nat && (0 <? n)%nat then
            subx_loop fuel' re filter s i next n
          else
            item ← filter m;
            tail ← subx_loop fuel' re filter s e next (S n);
            Ok (slice s i b +:+ item +:+ tail)
      end
  end.

Definition sub (re : regex) (filter : match_obj → res string) (s : string)
    : res string :=
  subx_loop (String.length s + 2) re filter s 0 0 0.

End Re.

(** ** [_modules/psep0101/_qsignal.py] *)

Module QSignal.
Import Re.

(** What a keyword argument of [str.format] can be here: the value of a
    group ([None] or text), or whatever [parse_args] made of one. *)
Inductive value (A : Type) :=
| VNone
| VStr (s : string)
| VArgs (a : A).
Arguments VNone {A}.
Arguments VStr {A} s.
Arguments VArgs {A} a.

Section Rewrite.

(** [parse_args] is imported from [_c_args.py], which is not among the
    sources at hand.  It is taken as a parameter: any function from the
    text of a group to a result of some type [A], whose rendering by
    [str.format] is [args_str]. *)
Context {A : Type}.
Variable parse_args : string → A.
Variable args_str : A → string.

(** [format(v, "")] *)
Definition str_of (v : value A) : string :=
  match v with
  | VNone => "None"
  | VStr s => s
  | VArgs a => args_str a
  end.

(** [template.format] with keyword arguments [kwargs], for templates
    made of text and plain [{name}] fields: [field] holds the name being
    read, if any. *)
Fixpoint format_go (t : string) (field : option string)
    (kwargs : gmap string (value A)) : res string :=
  match t with
  | EmptyString =>
      match field with
      | None => Ok EmptyString
      | Some _ => Raise ValueError
      end
  | String c t' =>
      match field with
      | None =>
          if Ascii.eqb c "{" then format_go t' (Some EmptyString) kwargs
          else out ← format_go t' None kwargs; Ok (String c out)
      | Some f =>
          if Ascii.eqb c "}" then
            match kwargs !! f with
            | Some v => out ← format_go t' None kwargs; Ok (str_of v +:+ out)
            | None => Raise (KeyError f)
            end
          else format_go t' (Some (f +:+ String c EmptyString)) kwargs
      end
  end.

Definition format (t : string) (kwargs : gmap string (value A)) : res string :=
  format_go t None kwargs.

Definition of_group (o : option string) : value A :=
  match o with
  | Some s => VStr s
  | None => VNone
  end.

(** [match_obj.groupdict()] as a dictionary of Python values. *)
Definition groups_of (match_obj : match_obj) : gmap string (value A) :=
  of_group <$> groupdict match_obj.

(** [parse_args] is applied to the text of the group [args]; the
    pattern has no match in which that group takes no part. *)
Definition _connect_repl (match_obj : match_obj) : res string :=
  let template := "{owner}.{signal}.connect({slot})" in
  let groups := groups_of match_obj in
  parsed ← match groups !! "args" with
           | Some (VStr a) => Ok (parse_args a)
           | Some _ => Raise TypeError
           | None => Raise (KeyError "args")
           end;
  let groups := <["args" := VArgs parsed]> groups in
  format template groups.

Definition _emit_repl (match_obj : match_obj) : res string :=
  let template := "{owner}.{signal}.emit({args})" in
  let groups := groups_of match_obj in
  format template groups.

(** The class of the two quote characters (codes 39 and 34). *)
Definition quotes : cclass := CSet ["'"%char; "034"%char].

Definition maybe_spaces : regex := RMaybe (RPlus CSpace).

Definition CONNECT_RE : regex :=
  RCat [ RMaybe (RLit "self.");
         RLit "connect(";
         maybe_spaces;
         RGroup "owner" (RSeq (RMaxStar CDot) (RMaybe (RLit ">")));
         RLit ",";
         maybe_spaces;
         RMaybe (RLit "QtCore.");
         RLit "SIGNAL(";
         maybe_spaces;
         RIn quotes;
         RGroup "signal" (RPlus CWord);
         RLit "(";
         RGroup "args" (RMinStar CDot);
         RLit ")";
         RIn quotes;
         maybe_spaces;
         RLit "),";
         maybe_spaces;
         RGroup "slot" (RMinStar CDot);
         RLit ")" ].

Definition EMIT_RE : regex :=
  RCat [ RMaybe (RSeq (RGroup "owner" (RPlus CWord)) (RLit "."));
         RLit "emit(";
         maybe_spaces;
         RMaybe (RLit "QtCore.");
         RLit "SIGNAL(";
         maybe_spaces;
         RIn quotes;
         RGroup "signal" (RPlus CWord);
         RLit "(";
         RGroup "arg_types" (RMinStar CDot);
         RLit ")";
         RIn quotes;
         maybe_spaces;
         RLit ")";
         maybe_spaces;
         RMaybe (RSeq (RLit ",") maybe_spaces);
         RGroup "args" (RMinStar CDot);
         RLit ")" ].

Definition process_connect (function_str : string) : res string :=
  let SIGNAL_RE := CONNECT_RE in
  replacement_str ← sub SIGNAL_RE _connect_repl function_str;
  if decide (replacement_str ≠ function_str) then Ok replacement_str
  else Ok function_str.

Definition process_emit (function_str : string) : res string :=
  let SIGNAL_RE := EMIT_RE in
  let _match := search SIGNAL_RE function_str 0 in
  replacement_str ← sub SIGNAL_RE _emit_repl function_str;
  if decide (replacement_str ≠ function_str) then Ok replacement_str
  else Ok function_str.

End Rewrite.

(** The fragments of the two round trips. *)
Definition connect_example : string :=
  "self.connect(obj, QtCore.SIGNAL(" +:+ dquote +:+ "valueChanged(int)"
    +:+ dquote +:+ "), self.onValueChanged)".

Definition emit_example : string :=
  "obj.emit(QtCore.SIGNAL(" +:+ dquote +:+ "valueChanged(int)" +:+ dquote
    +:+ "), 5)".

(** The first of them with other argument types. *)
Definition connect_fragment (argtypes : string) : string :=
  "self.connect(obj, QtCore.SIGNAL(" +:+ dquote +:+ "valueChanged(" +:+
    argtypes +:+ ")" +:+ dquote +:+ "), self.onValueChanged)".

(** An emit with no owner in front of it. *)
Definition bare_emit_example : string :=
  "emit(SIGNAL(" +:+ dquote +:+ "valueChanged(int)" +:+ dquote +:+ "), 5)".

End QSignal.


(** ** [general.py] *)

Module General.

(** *** Terminal colouring *)

Section Color.

(** [__supports_color = supports_color()] is computed once, at import,
    from the platform and the terminal. *)
Variable __supports_color : bool.

Definition ESC : string := String "027"%char EmptyString.

Definition _color (color : Z) (text : string) : string :=
  if negb __supports_color then text
  else ESC +:+ "[" +:+ pretty color +:+ "m" +:+ text +:+ ESC +:+ "[0m".

End Color.

(** *** The object store

    Sets and [ErrorClass] instances are mutable objects: the store maps
    an object's identity to its contents, and a dictionary slot or a set
    element that holds an object holds its identity. *)

Definition loc := positive.

(** Elements of the sets: text hashes by value, instances of
    [ErrorClass] (no [__eq__], no [__hash__]) by identity. *)
Inductive elem :=
| EStr (s : string)
| ERef (l : loc).

Global Instance elem_eq_dec : EqDecision elem.
Proof. solve_decision. Defined.

Global Instance elem_countable : Countable elem :=
  inj_countable'
    (λ x, match x with EStr s => inl s | ERef l => inr l end)
    (λ y, match y with inl s => EStr s | inr l => ERef l end)
    (λ x, match x with EStr _ => eq_refl | ERef _ => eq_refl end).

(** The attributes of an [ErrorClass] instance. *)
Record ErrorRecord := mkError {
  row : Z;
  row_to : Z;
  reason : string;
}.

Inductive obj :=
| OSet (X : gset elem)
| OError (e : ErrorRecord).

Record state := State {
  heap : gmap loc obj;
  AliasDict : gmap string loc;       (* the module-level [AliasDict] *)
  stdout : list string;              (* lines printed so far *)
}.

(** Computations of the module: they read and update the store and may
    raise. *)
Definition M (A : Type) : Type := state → res (A * state).

Global Instance M_ret : MRet M := λ A a σ, Ok (a, σ).
Global Instance M_bind : MBind M := λ A B f c σ,
  match c σ with
  | Ok (a, σ') => f a σ'
  | Raise e => Raise e
  end.

(** A new object: its identity is one the store has never handed out. *)
Definition alloc (o : obj) : M loc := λ σ,
  let l := fresh (dom (heap σ)) in
  Ok (l, State (<[l := o]> (heap σ)) (AliasDict σ) (stdout σ)).

(** [set()] *)
Definition new_set : M loc := alloc (OSet ∅).

(** [AliasDict[key] = value] *)
Definition setitem (key : string) (value : loc) : M () := λ σ,
  Ok ((), State (heap σ) (<[key := value]> (AliasDict σ)) (stdout σ)).

(** [AliasDict[key]] *)
Definition getitem (key : string) : M loc := λ σ,
  match AliasDict σ !! key with
  | Some l => Ok (l, σ)
  | None => Raise (KeyError key)
  end.

(** [target.add(x)]: defined on sets only. *)
Definition set_add (target : loc) (x : elem) : M () := λ σ,
  match heap σ !! target with
  | Some (OSet X) =>
      Ok ((), State (<[target := OSet ({[x]} ∪ X)]> (heap σ))
                    (AliasDict σ) (stdout σ))
  | _ => Raise AttributeError
  end.

Definition print (line : string) : M () := λ σ,
  Ok ((), State (heap σ) (AliasDict σ) (stdout σ ++ [line])).

(** *** Source spans *)

Record position := mkPosition { line : Z; column : Z }.
Record bounding_box := mkBox { top_left : position; bottom_right : position }.

(** A node of the syntax tree, as far as this module looks at it.  Its
    bounding box is an attribute that may be missing: [_change_verbose]
    tests for it with [hasattr]. *)
Record node := mkNode { absolute_bounding_box : option bounding_box }.

(** [node.absolute_bounding_box] *)
Definition get_bounding_box (node : node) : M bounding_box := λ σ,
  match absolute_bounding_box node with
  | Some bbox => Ok (bbox, σ)
  | None => Raise AttributeError
  end.

Section Store.

Variable __supports_color : bool.

(** *** [ErrorClass] *)

(** [ErrorClass(node, reason)]: the instance is created, [__init__]
    fills its attributes and adds it to [AliasDict["errors"]]; the call
    evaluates to the instance. *)
Definition ErrorClass (node : node) (reason : string) : M loc :=
  bbox ← get_bounding_box node;
  self ← alloc (OError {| row := line (top_left bbox) - 1;
                          row_to := line (bottom_right bbox) - 1;
                          reason := reason |});
  errors ← getitem "errors";
  _ ← set_add errors (ERef self);
  mret self.

(** *** [AliasDictClass] *)

Definition names : list string :=
  ["bindings"; "root_aliases"; "used"; "warnings"; "errors"].

(** [AliasDictClass.__init__] *)
Definition AliasDictClass__init__ : M () :=
  bindings ← new_set;
  root_aliases ← new_set;
  used ← new_set;
  warnings ← new_set;
  errors ← new_set;
  _ ← setitem "bindings" bindings;
  _ ← setitem "root_aliases" root_aliases;
  _ ← setitem "used" used;
  _ ← setitem "warnings" warnings;
  setitem "errors" errors.

(** [AliasDictClass.clean] *)
Definition clean : M () :=
  _ ← print (_color __supports_color 31 "Cleaning the global AliasDict");
  bindings ← new_set;
  _ ← setitem "bindings" bindings;
  root_aliases ← new_set;
  _ ← setitem "root_aliases" root_aliases;
  used ← new_set;
  _ ← setitem "used" used;
  warnings ← new_set;
  _ ← setitem "warnings" warnings;
  errors ← new_set;
  setitem "errors" errors.

(** [AliasDict[name].add(x)] *)
Definition add (name : string) (x : elem) : M () :=
  target ← getitem name;
  set_add target x.

(** What [AliasDict[name]] holds, when it is a set. *)
Definition contents (σ : state) (name : string) : option (gset elem) :=
  match AliasDict σ !! name with
  | Some l =>
      match heap σ !! l with
      | Some (OSet X) => Some X
      | _ => None
      end
  | None => None
  end.

(** The store right after [AliasDict = AliasDictClass()]. *)
Definition empty_state : state := State ∅ ∅ [].

Definition initial_state : state :=
  match AliasDictClass__init__ empty_state with
  | Ok (_, σ) => σ
  | Raise _ => empty_state
  end.

(** The stores the module's operations lead to. *)
Inductive reachable : state → Prop :=
| reach_init : reachable initial_state
| reach_clean σ σ' : reachable σ → clean σ = Ok ((), σ') → reachable σ'
| reach_add σ σ' name x :
    reachable σ → add name x σ = Ok ((), σ') → reachable σ'
| reach_error σ σ' node reason self :
    reachable σ → ErrorClass node reason σ = Ok (self, σ') → reachable σ'.

End Store.

(** *** [merge_dict] *)

(** The values a merged dictionary holds. *)
Inductive pyval :=
| PNone
| PInt (n : Z)
| PStr (s : string)
| PSet (X : gset elem)
| PList (l : list elem).

(** [type(v)()] *)
Definition zero_of (v : pyval) : res pyval :=
  match v with
  | PNone => Raise TypeError
  | PInt _ => Ok (PInt 0)
  | PStr _ => Ok (PStr EmptyString)
  | PSet _ => Ok (PSet ∅)
  | PList _ => Ok (PList [])
  end.

(** The characters of a text, as iterating over it yields them. *)
Fixpoint chars (s : string) : list elem :=
  match s with
  | EmptyString => []
  | String c s' => EStr (String c EmptyString) :: chars s'
  end.

(** [X.union(v)]: [v] may be any iterable. *)
Definition union (X : gset elem) (v : pyval) : res pyval :=
  match v with
  | PSet Y => Ok (PSet (X ∪ Y))
  | PStr s => Ok (PSet (X ∪ list_to_set (chars s)))
  | PList l => Ok (PSet (X ∪ list_to_set l))
  | PNone | PInt _ => Raise TypeError
  end.

(** [a.__add__(v)] *)
Definition __add__ (a : string) (v : pyval) : res pyval :=
  match v with
  | PStr b => Ok (PStr (a +:+ b))
  | _ => Raise TypeError
  end.

Definition dict_get (d : gmap string pyval) (key : string) : res pyval :=
  match d !! key with
  | Some v => Ok v
  | None => Raise (KeyError key)
  end.

(** One round of the loop over [keys], on the local copies [lhs] and
    [rhs] and the result [out]. *)
Definition merge_key (st : gmap string pyval * gmap string pyval * gmap string pyval)
    (key : string) : res (gmap string pyval * gmap string pyval * gmap string pyval) :=
  let '(lhs, rhs, out) := st in
  rhs ← (if decide (key ∉ dom rhs)
         then v ← dict_get lhs key; z ← zero_of v; Ok (<[key := z]> rhs)
         else Ok rhs);
  lhs ← (if decide (key ∉ dom lhs)
         then v ← dict_get rhs key; z ← zero_of v; Ok (<[key := z]> lhs)
         else Ok lhs);
  l ← dict_get lhs key;
  match l with
  | PSet X =>
      r ← dict_get rhs key; v ← union X r; Ok (lhs, rhs, <[key := v]> out)
  | PStr a =>
      r ← dict_get rhs key; v ← __add__ a r; Ok (lhs, rhs, <[key := v]> out)
  | _ => Ok (lhs, rhs, out)
  end.

Fixpoint merge_loop (keys : list string)
    (st : gmap string pyval * gmap string pyval * gmap string pyval)
    : res (gmap string pyval * gmap string pyval * gmap string pyval) :=
  match keys with
  | [] => Ok st
  | key :: keys' => st' ← merge_key st key; merge_loop keys' st'
  end.

(** [d.keys()] *)
Definition dict_keys (d : gmap string pyval) : list string := (map_to_list d).*1.

(** The keys the loop runs over. *)
Definition selected_keys (lhs rhs : gmap string pyval)
    (keys : option (list string)) (keys_both : bool) : list string :=
  match keys with
  | Some (k :: ks) => k :: ks
  | _ => dict_keys lhs ++ (if keys_both then dict_keys rhs else [])
  end.

Definition merge_dict (lhs rhs : gmap string pyval)
    (keys : option (list string)) (keys_both : bool)
    : res (gmap string pyval) :=
  let out : gmap string pyval := ∅ in
  let keys := selected_keys lhs rhs keys keys_both in
  '(_, _, out) ← merge_loop keys (lhs, rhs, out);
  Ok out.

(** *** [_change_verbose] *)

(** [s.lstrip(c)] and [s.rstrip(c)] for a single character [c]. *)
Fixpoint lstrip (c : ascii) (s : string) : string :=
  match s with
  | String a s' => if Ascii.eqb a c then lstrip c s' else s
  | EmptyString => EmptyString
  end.

Fixpoint rstrip (c : ascii) (s : string) : string :=
  match s with
  | EmptyString => EmptyString
  | String a s' =>
      match rstrip c s' with
      | EmptyString => if Ascii.eqb a c then EmptyString else String a EmptyString
      | t => String a t
      end
  end.

(** [s.strip(c)] *)
Definition strip (c : ascii) (s : string) : string := rstrip c (lstrip c s).

(** A computation that has no use for the store. *)
Definition lift_res {A : Type} (c : res A) : M A := λ σ,
  match c with
  | Ok a => Ok (a, σ)
  | Raise e => Raise e
  end.

(** [str(b)] for a boolean. *)
Definition str_bool (b : bool) : string := if b then "True" else "False".

Section Verbose.

Variable __supports_color : bool.

(** What the handler returns. *)
Context {R : Type}.

(** [str(node)] and [str(handler)]: the text of a node is redbaron's
    business, and the text of a callable is Python's. *)
Variable str_node : node → string.
Variable str_handler : (string → M R) → string.

(** [_change_verbose(handler, node, replacement, skip_lineno, msg)].
    The message is formatted with the local variables as keyword
    arguments, each rendered by [str]; [line] is among them only when
    [skip_lineno] is false. *)
Definition _change_verbose (handler : string → M R) (node : node)
    (replacement : string) (skip_lineno : bool) (msg : option string) : M R :=
  let msg :=
    match msg with
    | None => "Replacing " +:+ dquote +:+ "{original}" +:+ dquote +:+
              " with " +:+ dquote +:+ "{replacement}" +:+ dquote
    | Some msg => msg
    end in
  let original := _color __supports_color 37 (strip "010" (str_node node)) in
  let replacement := _color __supports_color 37 replacement in
  let locals : gmap string (QSignal.value string) :=
    {[ "handler" := QSignal.VStr (str_handler handler);
       "node" := QSignal.VStr (str_node node);
       "skip_lineno" := QSignal.VStr (str_bool skip_lineno);
       "original" := QSignal.VStr original;
       "replacement" := QSignal.VStr replacement ]} in
  let '(msg, locals) :=
    if negb skip_lineno then
      (msg +:+ " at line {line}",
       <["line" := match absolute_bounding_box node with
                   | None => QSignal.VStr "N/A"
                   | Some bbox =>
                       QSignal.VStr (pretty (line (top_left bbox) - 1)%Z)
                   end]> locals)
    else (msg, locals) in
  let locals := <["msg" := QSignal.VStr msg]> locals in
  text ← lift_res (QSignal.format (λ a : string, a) msg locals);
  handler text.

End Verbose.

(** *** The supported bindings *)

(** [s.split(sep)] for a separator of one character. *)
Fixpoint split (sep : ascii) (s : string) : list string :=
  match s with
  | EmptyString => [EmptyString]
  | String c s' =>
      if Ascii.eqb c sep then EmptyString :: split sep s'
      else
        match split sep s' with
        | piece :: pieces => String c piece :: pieces
        | [] => [String c EmptyString]
        end
  end.

Section Bindings.

(** [os.pathsep], one character on every platform, and [str] of a list
    of texts. *)
Variable pathsep : ascii.
Variable str_list : list string → string.

(** The statements of the module that set [__supported_bindings__],
    run with [_custom_bindings], the value of the environment variable
    [QT_CUSTOM_BINDINGS_SUPPORT], [None] when it is not set. *)
Definition __supported_bindings__ (_custom_bindings : option string)
    : M (list string) :=
  let bindings := ["PySide2"; "PySide"; "PyQt5"; "PyQt4"] in
  match _custom_bindings with
  | Some (String c s) =>
      let custom := split pathsep (String c s) in
      _ ← print ("Found Custom Bindings. Adding: " +:+ str_list custom);
      mret (bindings ++ custom)
  | _ => mret bindings
  end.

End Bindings.

End General.

(** * Properties *)

(** stdpp keeps [simpl] from unfolding string concatenation; the proofs
    below compute with it. *)
Local Arguments String.append !_ _ / : simpl nomatch.

#[local] Set Warnings "-clear-no-such-hyp".

(** ** Strings *)

Module StringFacts.

Lemma app_length (a b : string) :
  String.length (a +:+ b) = String.length a + String.length b.
Proof. induction a as [|c a IH]; simpl; [done | by rewrite IH]. Qed.

Lemma app_assoc (a b c : string) : (a +:+ b) +:+ c = a +:+ b +:+ c.
Proof. induction a as [|x a IH]; simpl; [done | by rewrite IH]. Qed.

(** Concatenations, associated to the right and computed on literals. *)
Ltac norm_app := repeat (progress (rewrite ?app_assoc; simpl)).

Lemma app_nil_r (a : string) : a +:+ EmptyString = a.
Proof. induction a as [|x a IH]; simpl; [done | by rewrite IH]. Qed.

Lemma substring_0_0 (s : string) : String.substring 0 0 s = EmptyString.
Proof. by destruct s. Qed.

Lemma substring_all (s : string) : String.substring 0 (String.length s) s = s.
Proof. induction s as [|c s IH]; simpl; [done | by rewrite IH]. Qed.

Lemma slice_all (s : string) : slice s 0 (String.length s) = s.
Proof. unfold slice. rewrite Nat.sub_0_r. apply substring_all. Qed.

Lemma substring_n_0 (s : string) (n : nat) : String.substring n 0 s = EmptyString.
Proof.
  revert n. induction s as [|c s IH]; intros [|n]; simpl; try done.
Qed.

Lemma slice_empty (s : string) (i j : nat) : j ≤ i → slice s i j = EmptyString.
Proof.
  intros H. unfold slice. replace (j - i) with 0 by lia. apply substring_n_0.
Qed.

Lemma drop_str_0 (s : string) : Re.drop_str 0 s = s.
Proof. by destruct s. Qed.

Lemma drop_str_length (n : nat) (s : string) :
  String.length (Re.drop_str n s) = String.length s - n.
Proof.
  revert s. induction n as [|n IH]; intros [|c s]; simpl; done.
Qed.

Lemma drop_str_app (a b : string) : Re.drop_str (String.length a) (a +:+ b) = b.
Proof. induction a as [|c a IH]; simpl; [apply drop_str_0 | done]. Qed.

Lemma drop_str_drop (n m : nat) (s : string) :
  Re.drop_str n (Re.drop_str m s) = Re.drop_str (m + n) s.
Proof.
  revert s. induction m as [|m IH]; intros s; simpl; [done |].
  destruct s as [|c s]; [by destruct n | apply IH].
Qed.

(** A string is what comes before a position and what comes after. *)
Lemma take_drop (n : nat) (s : string) :
  String.substring 0 n s +:+ Re.drop_str n s = s.
Proof.
  revert s. induction n as [|n IH]; intros [|c s]; simpl; try done.
  by rewrite IH.
Qed.

Lemma substring_0_app (a b : string) :
  String.substring 0 (String.length a) (a +:+ b) = a.
Proof.
  induction a as [|c a IH]; simpl; [apply substring_0_0 | by rewrite IH].
Qed.

Lemma substring_skip (n m : nat) (s : string) :
  n ≤ String.length s →
  String.substring n m s = String.substring 0 m (Re.drop_str n s).
Proof.
  revert s. induction n as [|n IH]; intros s Hn.
  - by rewrite drop_str_0.
  - destruct s as [|c s]; simpl in *; [lia |]. apply IH. lia.
Qed.

(** The slice that starts where [drop_str] cuts is a prefix of the rest. *)
Lemma slice_of_drop (s mid rest : string) (n : nat) :
  n ≤ String.length s →
  Re.drop_str n s = mid +:+ rest →
  slice s n (n + String.length mid) = mid.
Proof.
  intros Hn Hd. unfold slice. replace (n + String.length mid - n) with
    (String.length mid) by lia.
  rewrite substring_skip by done. rewrite Hd. apply substring_0_app.
Qed.

Lemma slice_0 (n : nat) (s : string) : slice s 0 n = String.substring 0 n s.
Proof. unfold slice. by rewrite Nat.sub_0_r. Qed.

Lemma drop_str_of_drop (s mid rest : string) (n : nat) :
  Re.drop_str n s = mid +:+ rest →
  Re.drop_str (n + String.length mid) s = rest.
Proof.
  intros Hd. rewrite <- drop_str_drop, Hd. apply drop_str_app.
Qed.

Lemma substring_drop (d a n : nat) (s : string) :
  d ≤ String.length s →
  String.substring (d + a) n s = String.substring a n (Re.drop_str d s).
Proof.
  revert s. induction d as [|d IH]; intros s Hd; simpl; [done |].
  destruct s as [|c s]; simpl in *; [lia |]. apply IH. lia.
Qed.

Lemma slice_drop (d i j : nat) (s : string) :
  d ≤ String.length s →
  slice s (d + i) (d + j) = slice (Re.drop_str d s) i j.
Proof.
  intros Hd. unfold slice. replace (d + j - (d + i)) with (j - i) by lia.
  by apply substring_drop.
Qed.

Lemma drop_str_all s : Re.drop_str (String.length s) s = EmptyString.
Proof.
  rewrite <- (app_nil_r s) at 2. apply drop_str_app.
Qed.

End StringFacts.

(** ** The exception monad *)

Module PyFacts.

Lemma bind_ok {A B} (a : A) (f : A → res B) : (Ok a ≫= f) = f a.
Proof. done. Qed.

Lemma bind_raise {A B} (e : exn) (f : A → res B) : (Raise e ≫= f) = Raise e.
Proof. done. Qed.

Lemma bind_returns {A B} (c : res A) (f : A → res B) (b : B) :
  c ≫= f = Ok b → ∃ a, c = Ok a ∧ f a = Ok b.
Proof. destruct c as [a|e]; [by exists a | done]. Qed.

End PyFacts.

(** ** The matcher *)

Module ReFacts.
Import Re StringFacts.

(** A mark that lies between two positions. *)
Definition within (lo hi : nat) (g : marks) (n : string) : Prop :=
  ∃ a b, g !! n = Some (a, b) ∧ lo ≤ a ∧ a ≤ b ∧ b ≤ hi.

(** The groups every match of a pattern goes through. *)
Fixpoint sets (r : regex) (n : string) : bool :=
  match r with
  | RGroup m r => bool_decide (n = m) || sets r n
  | RSeq r1 r2 => sets r1 n || sets r2 n
  | _ => false
  end.

(** The least number of characters a match takes. *)
Fixpoint min_width (r : regex) : nat :=
  match r with
  | RLit p => String.length p
  | RIn _ => 1
  | RSeq r1 r2 => min_width r1 + min_width r2
  | RGroup _ r => min_width r
  | _ => 0
  end.

Lemma within_mono lo lo' hi hi' g n :
  lo' ≤ lo → hi ≤ hi' → within lo hi g n → within lo' hi' g n.
Proof. intros ?? (a & b & ? & ? & ? & ?). exists a, b. repeat split; [done | lia..]. Qed.

Lemma lit_inv p rest pos rest' pos' :
  lit p rest pos = Some (rest', pos') →
  rest = p +:+ rest' ∧ pos' = pos + String.length p.
Proof.
  revert rest pos. induction p as [|a p IH]; intros rest pos H; simpl in *.
  - inversion H; subst. split; [done | lia].
  - destruct rest as [|b rest]; [done |].
    destruct (Ascii.eqb_spec a b) as [->|]; [| done].
    apply IH in H as [-> ->]. split; [done | lia].
Qed.

Lemma max_star_inv c rest pos k x :
  max_star c rest pos k = Some x →
  ∃ mid rest', rest = mid +:+ rest' ∧ k rest' (pos + String.length mid) = Some x.
Proof.
  revert pos. induction rest as [|a rest IH]; intros pos H; simpl in H.
  - exists EmptyString, EmptyString. by rewrite Nat.add_0_r.
  - destruct (in_class c a).
    + destruct (max_star c rest (S pos) k) as [y|] eqn:E.
      * inversion H; subst. apply IH in E as (mid & rest' & -> & Hk).
        exists (String a mid), rest'. split; [done |].
        simpl. by rewrite Nat.add_succ_r.
      * exists EmptyString, (String a rest). by rewrite Nat.add_0_r.
    + exists EmptyString, (String a rest). by rewrite Nat.add_0_r.
Qed.

Lemma min_star_inv c rest pos k x :
  min_star c rest pos k = Some x →
  ∃ mid rest', rest = mid +:+ rest' ∧ k rest' (pos + String.length mid) = Some x.
Proof.
  revert pos. induction rest as [|a rest IH]; intros pos H; simpl in H.
  - destruct (k EmptyString pos) eqn:E; [| done]. inversion H; subst.
    exists EmptyString, EmptyString. by rewrite Nat.add_0_r.
  - destruct (k (String a rest) pos) eqn:E.
    + inversion H; subst. exists EmptyString, (String a rest).
      by rewrite Nat.add_0_r.
    + destruct (in_class c a); [| done].
      apply IH in H as (mid & rest' & -> & Hk).
      exists (String a mid), rest'. split; [done |].
      simpl. by rewrite Nat.add_succ_r.
Qed.

(** What a successful match has done by the time it calls its
    continuation: it has taken a prefix [mid] of the subject, of at least
    the pattern's least width, and every mark is either as before or set
    within the part taken; the groups every match goes through are set. *)
Lemma rmatch_inv r : ∀ rest pos g k x,
  rmatch r rest pos g k = Some x →
  ∃ mid rest' g',
    rest = mid +:+ rest' ∧
    k rest' (pos + String.length mid) g' = Some x ∧
    min_width r ≤ String.length mid ∧
    (∀ n, g' !! n = g !! n ∨ within pos (pos + String.length mid) g' n) ∧
    (∀ n, sets r n → within pos (pos + String.length mid) g' n).
Proof.
  induction r as [p|c|r1 IH1 r2 IH2|r IH|c|c|name r IH];
    intros rest pos g k x H; simpl in H.
  - destruct (lit p rest pos) as [[rest' pos']|] eqn:E; [| done].
    apply lit_inv in E as [-> ->].
    exists p, rest', g. repeat split; auto. done.
  - destruct rest as [|a rest]; [done |]. destruct (in_class c a); [| done].
    exists (String a EmptyString), rest, g. simpl.
    rewrite Nat.add_1_r. repeat split; auto. done.
  - apply IH1 in H as (mid1 & rest1 & g1 & -> & H & Hw1 & Hm1 & Hs1).
    apply IH2 in H as (mid2 & rest2 & g2 & -> & H & Hw2 & Hm2 & Hs2).
    exists (mid1 +:+ mid2), rest2, g2.
    rewrite app_assoc, app_length, Nat.add_assoc.
    split; [done |]. split; [done |]. split; [simpl; lia |]. split.
    + intros n. destruct (Hm2 n) as [Heq | Hin].
      * destruct (Hm1 n) as [Heq1 | Hin1]; [left; congruence |].
        right. destruct Hin1 as (a & b & ? & ? & ? & ?).
        exists a, b. rewrite Heq. repeat split; [done | lia..].
      * right. eapply within_mono; [| | done]; lia.
    + intros n. simpl. intros [Hn | Hn]%orb_prop_elim.
      * destruct (Hm2 n) as [Heq | Hin].
        -- destruct (Hs1 n Hn) as (a & b & ? & ? & ? & ?).
           exists a, b. rewrite Heq. repeat split; [done | lia..].
        -- eapply within_mono; [| | done]; lia.
      * eapply within_mono; [| | by apply Hs2]; lia.
  - destruct (rmatch r rest pos g k) as [y|] eqn:E.
    + inversion H; subst.
      apply IH in E as (mid & rest' & g' & -> & Hk & _ & Hm & _).
      exists mid, rest', g'. repeat split; auto; simpl; [lia | done].
    + exists EmptyString, rest, g. rewrite Nat.add_0_r.
      repeat split; auto. done.
  - apply max_star_inv in H as (mid & rest' & -> & Hk).
    exists mid, rest', g. repeat split; auto; simpl; [lia | done].
  - apply min_star_inv in H as (mid & rest' & -> & Hk).
    exists mid, rest', g. repeat split; auto; simpl; [lia | done].
  - apply IH in H as (mid & rest' & g' & -> & Hk & Hw & Hm & Hs).
    exists mid, rest', (<[name := (pos, pos + String.length mid)]> g').
    split; [done |]. split; [done |]. split; [done |].
    assert (within pos (pos + String.length mid)
              (<[name := (pos, pos + String.length mid)]> g') name) as Hname.
    { exists pos, (pos + String.length mid).
      rewrite lookup_insert_eq. repeat split; [done | lia..]. }
    split.
    + intros n. destruct (decide (n = name)) as [-> | Hne]; [by right |].
      destruct (Hm n) as [Heq | (a & b & ? & ?)].
      * left. by rewrite lookup_insert_ne.
      * right. exists a, b. by rewrite lookup_insert_ne.
    + intros n. simpl. intros [Hn | Hn]%orb_prop_elim.
      * apply bool_decide_unpack in Hn as ->. done.
      * destruct (decide (n = name)) as [-> | Hne]; [done |].
        destruct (Hs n Hn) as (a & b & ? & ?).
        exists a, b. by rewrite lookup_insert_ne.
Qed.

(** A match object: where it starts and ends, and where its marks lie. *)
Lemma match_at_inv re s pos m :
  match_at re s pos = Some m →
  m_re m = re ∧ m_string m = s ∧ m_start m = pos ∧
  pos + min_width re ≤ m_end m ∧ m_end m ≤ String.length s ∧
  Re.drop_str pos s =
    slice s pos (m_end m) +:+ Re.drop_str (m_end m) s ∧
  (∀ n a b, m_regs m !! n = Some (a, b) → pos ≤ a ∧ a ≤ b ∧ b ≤ m_end m) ∧
  (∀ n, sets re n → is_Some (m_regs m !! n)).
Proof.
  unfold match_at. destruct (Nat.ltb_spec (String.length s) pos) as [|Hpos]; [done |].
  destruct (rmatch _ _ _ _ _) as [[e g]|] eqn:E; [| done].
  intros [= <-]. simpl.
  apply rmatch_inv in E as (mid & rest' & g' & Hd & [= <- <-] & Hw & Hm & Hs).
  pose proof (f_equal String.length Hd) as Hlen.
  rewrite drop_str_length, app_length in Hlen.
  repeat split; try done; try lia.
  - rewrite (slice_of_drop s mid rest') by done.
    by rewrite (drop_str_of_drop s mid rest').
  - destruct (Hm n) as [Heq | (a' & b' & Hl & ?)].
    + rewrite lookup_empty in Heq. congruence.
    + rewrite Hl in H. inversion H; subst. lia.
  - destruct (Hm n) as [Heq | (a' & b' & Hl & ?)].
    + rewrite lookup_empty in Heq. congruence.
    + rewrite Hl in H. inversion H; subst. lia.
  - destruct (Hm n) as [Heq | (a' & b' & Hl & ?)].
    + rewrite lookup_empty in Heq. congruence.
    + rewrite Hl in H. inversion H; subst. lia.
  - intros n Hn. destruct (Hs n Hn) as (a & b & -> & _). by eexists.
Qed.

Lemma search_loop_inv re s n pos m :
  search_loop re s n pos = Some m →
  ∃ p, pos ≤ p ∧ p ≤ pos + n ∧ match_at re s p = Some m ∧
       ∀ q, pos ≤ q → q < p → match_at re s q = None.
Proof.
  revert pos. induction n as [|n IH]; intros pos H; simpl in H.
  - destruct (match_at re s pos) eqn:E; [| done]. inversion H; subst.
    exists pos. repeat split; [lia.. | done | intros; lia].
  - destruct (match_at re s pos) eqn:E.
    + inversion H; subst. exists pos. repeat split; [lia.. | done | intros; lia].
    + apply IH in H as (p & ? & ? & Hp & Hq).
      exists p. repeat split; [lia.. | done |].
      intros q ??. destruct (decide (q = pos)) as [-> | ]; [done |].
      apply Hq; lia.
Qed.

Lemma search_loop_none re s n pos :
  search_loop re s n pos = None →
  ∀ q, pos ≤ q → q ≤ pos + n → match_at re s q = None.
Proof.
  revert pos. induction n as [|n IH]; intros pos H q ??; simpl in H;
    destruct (match_at re s pos) eqn:E; try done.
  - by replace q with pos by lia.
  - destruct (decide (q = pos)) as [-> | ]; [done |]. apply (IH (S pos)); [done | lia..].
Qed.

Lemma match_at_beyond re s pos :
  String.length s < pos → match_at re s pos = None.
Proof.
  intros H. unfold match_at.
  by destruct (Nat.ltb_spec (String.length s) pos); [| lia].
Qed.

(** [search] returns the match at the first position that has one. *)
Lemma search_inv re s start m :
  search re s start = Some m →
  ∃ p, start ≤ p ∧ match_at re s p = Some m ∧
       ∀ q, start ≤ q → q < p → match_at re s q = None.
Proof.
  intros (p & ? & ? & ? & ?)%search_loop_inv. exists p. auto.
Qed.

Lemma search_none re s start :
  search re s start = None → ∀ q, start ≤ q → match_at re s q = None.
Proof.
  intros H q Hq. destruct (decide (q ≤ String.length s)).
  - eapply search_loop_none; [done.. | lia].
  - apply match_at_beyond. lia.
Qed.

Lemma search_bounds re s start m :
  search re s start = Some m →
  m_re m = re ∧ m_string m = s ∧
  start ≤ m_start m ∧ m_start m + min_width re ≤ m_end m ∧
  m_end m ≤ String.length s.
Proof.
  intros (p & ? & Hm & _)%search_inv.
  apply match_at_inv in Hm as (? & ? & -> & ? & ? & _). auto.
Qed.

(** *** [sub] *)

(** Without a match the subject comes back as it is. *)
Lemma sub_no_match re filter s :
  search re s 0 = None → sub re filter s = Ok s.
Proof.
  intros H. unfold sub. rewrite Nat.add_comm. simpl. rewrite H.
  by rewrite slice_all.
Qed.

(** With a match, the text before it is kept, the match is replaced by
    what [filter] makes of it, and the loop goes on behind it. *)
Lemma sub_first_match re filter s m :
  search re s 0 = Some m →
  sub re filter s =
    item ← filter m;
    tail ← subx_loop (String.length s + 1) re filter s (m_end m)
             (if m_end m =? m_start m then S (m_end m) else m_end m) 1;
    Ok (slice s 0 (m_start m) +:+ item +:+ tail).
Proof.
  intros H. unfold sub. replace (String.length s + 2) with
    (S (String.length s + 1)) by lia.
  simpl. rewrite H. by rewrite andb_false_r.
Qed.

(** The loop never runs out of rounds. *)
Lemma subx_loop_fuel re filter s :
  (∀ m, filter m ≠ Raise OutOfFuel) →
  ∀ fuel i start n,
    start ≤ String.length s + 1 →
    String.length s + 2 ≤ fuel + start →
    subx_loop fuel re filter s i start n ≠ Raise OutOfFuel.
Proof.
  intros Hf. induction fuel as [|fuel IH]; intros i start n Hs Hfuel; [lia |].
  simpl. destruct (search re s start) as [m|] eqn:E; [| done].
  apply search_bounds in E as (_ & _ & ? & ? & ?).
  assert (∀ i' n', subx_loop fuel re filter s i'
            (if m_end m =? m_start m then S (m_end m) else m_end m) n'
          ≠ Raise OutOfFuel) as Htail.
  { intros. apply IH; destruct (Nat.eqb_spec (m_end m) (m_start m)); lia. }
  destruct (_ && _); [apply Htail |].
  specialize (Hf m). specialize (Htail (m_end m) (S n)).
  unfold mbind, res_bind. destruct (filter m); [| congruence].
  destruct (subx_loop fuel _ _ _ _ _ _); [done | congruence].
Qed.

Lemma sub_fuel re filter s :
  (∀ m, filter m ≠ Raise OutOfFuel) → sub re filter s ≠ Raise OutOfFuel.
Proof. intros Hf. apply subx_loop_fuel; [done | lia..]. Qed.

(** Rounds beyond those the loop needs change nothing. *)
Lemma subx_loop_fuel_irrel re filter s :
  ∀ fuel1 fuel2 i start n,
    start ≤ String.length s + 1 →
    String.length s + 2 ≤ fuel1 + start →
    String.length s + 2 ≤ fuel2 + start →
    subx_loop fuel1 re filter s i start n = subx_loop fuel2 re filter s i start n.
Proof.
  induction fuel1 as [|fuel1 IH]; intros [|fuel2] i start n Hs H1 H2; try lia.
  simpl. destruct (search re s start) as [m|] eqn:E; [| done].
  apply search_bounds in E as (_ & _ & ? & ? & ?).
  destruct (_ && _).
  - apply IH; destruct (Nat.eqb_spec (m_end m) (m_start m)); lia.
  - rewrite (IH fuel2);
      [done | destruct (Nat.eqb_spec (m_end m) (m_start m)); lia..].
Qed.

(** *** Matching does not depend on where the subject starts

    The patterns have neither anchors nor look-behind: a match at
    position [d + p] of [s] is the match at position [p] of [s[d:]],
    moved by [d]. *)

Definition shiftm (d : nat) (g : marks) : marks :=
  (λ ab, (d + ab.1, d + ab.2)) <$> g.

Definition lift (d : nat) (o : option (nat * marks)) : option (nat * marks) :=
  (λ eg, (d + eg.1, shiftm d eg.2)) <$> o.

Definition shift_match (d : nat) (s : string) (m : match_obj) : match_obj :=
  MatchObj (m_re m) s (d + m_start m) (d + m_end m) (shiftm d (m_regs m)).

Lemma lit_shift d p rest pos :
  lit p rest (d + pos) = (λ rp, (rp.1, d + rp.2)) <$> lit p rest pos.
Proof.
  revert rest pos. induction p as [|a p IH]; intros rest pos; simpl; [done |].
  destruct rest as [|b rest]; [done |]. destruct (Ascii.eqb a b); [| done].
  rewrite <- Nat.add_succ_r. apply IH.
Qed.

Lemma max_star_shift d c rest : ∀ pos k k',
  (∀ rest' pos', k' rest' (d + pos') = lift d (k rest' pos')) →
  max_star c rest (d + pos) k' = lift d (max_star c rest pos k).
Proof.
  induction rest as [|a rest IH]; intros pos k k' Hk; simpl; [apply Hk |].
  destruct (in_class c a); [| apply Hk].
  rewrite <- Nat.add_succ_r, (IH (S pos) k k' Hk).
  destruct (max_star c rest (S pos) k); [done | apply Hk].
Qed.

Lemma min_star_shift d c rest : ∀ pos k k',
  (∀ rest' pos', k' rest' (d + pos') = lift d (k rest' pos')) →
  min_star c rest (d + pos) k' = lift d (min_star c rest pos k).
Proof.
  induction rest as [|a rest IH]; intros pos k k' Hk; simpl; rewrite Hk.
  - by destruct (k EmptyString pos).
  - destruct (k (String a rest) pos); [done |]. simpl.
    destruct (in_class c a); [| done].
    rewrite <- Nat.add_succ_r. by apply IH.
Qed.

Lemma rmatch_shift d r : ∀ rest pos g k k',
  (∀ rest' pos' g', k' rest' (d + pos') (shiftm d g') = lift d (k rest' pos' g')) →
  rmatch r rest (d + pos) (shiftm d g) k' = lift d (rmatch r rest pos g k).
Proof.
  induction r as [p|c|r1 IH1 r2 IH2|r IH|c|c|name r IH];
    intros rest pos g k k' Hk; simpl.
  - rewrite lit_shift. destruct (lit p rest pos) as [[rest' pos']|]; [apply Hk | done].
  - destruct rest as [|a rest]; [done |]. destruct (in_class c a); [| done].
    rewrite <- Nat.add_succ_r. apply Hk.
  - apply IH1. intros rest' pos' g'. by apply IH2.
  - rewrite (IH rest pos g k k' Hk).
    destruct (rmatch r rest pos g k); [done | apply Hk].
  - apply max_star_shift. intros rest' pos'. apply Hk.
  - apply min_star_shift. intros rest' pos'. apply Hk.
  - apply IH. intros rest' pos' g'. rewrite <- Hk. f_equal.
    unfold shiftm. by rewrite fmap_insert.
Qed.

Lemma match_at_shift re s d p :
  d ≤ String.length s →
  match_at re s (d + p) = shift_match d s <$> match_at re (Re.drop_str d s) p.
Proof.
  intros Hd. unfold match_at. rewrite drop_str_length, drop_str_drop.
  destruct (Nat.ltb_spec (String.length s) (d + p)),
    (Nat.ltb_spec (String.length s - d) p); try lia; [done |].
  replace (∅ : marks) with (shiftm d ∅) at 1 by apply fmap_empty.
  rewrite (rmatch_shift d re _ p ∅ (λ _ pos' g, Some (pos', g))); [| done].
  by destruct (rmatch re _ p ∅ _) as [[e g]|].
Qed.

Lemma search_loop_shift re s d n : ∀ p,
  d ≤ String.length s →
  search_loop re s n (d + p) = shift_match d s <$> search_loop re (Re.drop_str d s) n p.
Proof.
  induction n as [|n IH]; intros p Hd; simpl; rewrite match_at_shift by done.
  - by destruct (match_at re (Re.drop_str d s) p).
  - destruct (match_at re (Re.drop_str d s) p); [done |].
    rewrite <- Nat.add_succ_r. by apply IH.
Qed.

Lemma search_shift re s d p :
  d ≤ String.length s →
  search re s (d + p) = shift_match d s <$> search re (Re.drop_str d s) p.
Proof.
  intros Hd. unfold search. rewrite drop_str_length.
  replace (String.length s - (d + p)) with (String.length s - d - p) by lia.
  by apply search_loop_shift.
Qed.

Lemma group_shift d s m n :
  d ≤ String.length s → m_string m = Re.drop_str d s →
  group (shift_match d s m) n = group m n.
Proof.
  intros Hd Hs. unfold group, shift_match, shiftm; simpl.
  rewrite lookup_fmap. destruct (m_regs m !! n) as [[a b]|]; simpl; [| done].
  by rewrite Hs, slice_drop.
Qed.

(** A replacement that looks at the text of the groups only. *)
Definition by_groups (filter : match_obj → res string) : Prop :=
  ∀ m m', m_re m = m_re m' → (∀ n, group m n = group m' n) → filter m = filter m'.

Lemma subx_loop_shift re filter s d :
  d ≤ String.length s → 0 < min_width re → by_groups filter →
  ∀ fuel i start n n',
    subx_loop fuel re filter s (d + i) (d + start) n =
    subx_loop fuel re filter (Re.drop_str d s) i start n'.
Proof.
  intros Hd Hw Hf. induction fuel as [|fuel IH]; intros i start n n'; [done |].
  simpl. rewrite search_shift by done.
  destruct (search re (Re.drop_str d s) start) as [m|] eqn:E; simpl.
  - apply search_bounds in E as (Hre & Hstr & ? & ? & ?).
    assert ((m_end m =? m_start m) = false) as Hne by (apply Nat.eqb_neq; lia).
    assert ((d + m_end m =? d + m_start m) = false) as -> by (apply Nat.eqb_neq; lia).
    rewrite Hne.
    assert ((d + i =? d + m_start m) && (d + i =? d + m_end m) = false) as ->.
    { destruct (Nat.eqb_spec (d + i) (d + m_start m)),
        (Nat.eqb_spec (d + i) (d + m_end m)); try done. lia. }
    assert ((i =? m_start m) && (i =? m_end m) = false) as ->.
    { destruct (Nat.eqb_spec i (m_start m)), (Nat.eqb_spec i (m_end m)); try done. lia. }
    simpl. rewrite (Hf (shift_match d s m) m); [| done |].
    + rewrite (IH (m_end m) (m_end m) (S n) (S n')). by rewrite slice_drop.
    + intros k. by apply group_shift.
  - f_equal. unfold slice. rewrite drop_str_length.
    replace (String.length s - (d + i)) with (String.length s - d - i) by lia.
    by apply substring_drop.
Qed.

(** [sub], one match at a time: the first match is replaced and the rest
    of the subject is treated the same way. *)
Lemma sub_unfold re filter s m :
  0 < min_width re → by_groups filter →
  search re s 0 = Some m →
  sub re filter s =
    item ← filter m;
    tail ← sub re filter (Re.drop_str (m_end m) s);
    Ok (slice s 0 (m_start m) +:+ item +:+ tail).
Proof.
  intros Hw Hf H. rewrite (sub_first_match _ _ _ _ H).
  apply search_bounds in H as (_ & _ & ? & ? & ?).
  assert ((m_end m =? m_start m) = false) as -> by (apply Nat.eqb_neq; lia).
  destruct (filter m) as [item|e]; [| done]. simpl. f_equal.
  replace (m_end m) with (m_end m + 0) at 1 2 by lia.
  rewrite (subx_loop_shift re filter s (m_end m)) with (n' := 0) by done.
  unfold sub. apply subx_loop_fuel_irrel; rewrite drop_str_length; lia.
Qed.

(** [sub] returns as soon as the replacement does on every match. *)
Lemma subx_loop_returns re filter s :
  (∀ p m, match_at re s p = Some m → returns (filter m)) →
  ∀ fuel i start n,
    start ≤ String.length s + 1 →
    String.length s + 2 ≤ fuel + start →
    returns (subx_loop fuel re filter s i start n).
Proof.
  intros Hf. induction fuel as [|fuel IH]; intros i start n Hs Hfuel; [lia |].
  simpl. destruct (search re s start) as [m|] eqn:E; [| by eexists].
  pose proof E as (p & _ & Hm & _)%search_inv.
  apply search_bounds in E as (_ & _ & ? & ? & ?).
  destruct (_ && _).
  { apply IH; destruct (Nat.eqb_spec (m_end m) (m_start m)); lia. }
  destruct (IH (m_end m)
    (if m_end m =? m_start m then S (m_end m) else m_end m) (S n)) as [tail ->];
    [destruct (Nat.eqb_spec (m_end m) (m_start m)); lia.. |].
  destruct (Hf p m Hm) as [item ->]. by eexists.
Qed.

Lemma sub_returns re filter s :
  (∀ p m, match_at re s p = Some m → returns (filter m)) →
  returns (sub re filter s).
Proof. intros Hf. apply subx_loop_returns; [done | lia..]. Qed.

(** *** Matching a subject that is known in part *)

Fixpoint occurs (a : ascii) (s : string) : bool :=
  match s with
  | EmptyString => false
  | String b s' => Ascii.eqb a b || occurs a s'
  end.

(** Characters every match of a pattern takes. *)
Fixpoint requires (r : regex) (a : ascii) : bool :=
  match r with
  | RLit p => occurs a p
  | RSeq r1 r2 => requires r1 a || requires r2 a
  | RGroup _ r => requires r a
  | _ => false
  end.

(** Every character of [s] is in the class [c]. *)
Fixpoint all_in (c : cclass) (s : string) : bool :=
  match s with
  | EmptyString => true
  | String a s' => in_class c a && all_in c s'
  end.

Lemma occurs_app a s t : occurs a (s +:+ t) = occurs a s || occurs a t.
Proof.
  induction s as [|b s IH]; simpl; [done |]. by rewrite IH, orb_assoc.
Qed.

Lemma rmatch_requires r a : ∀ rest pos g k x,
  rmatch r rest pos g k = Some x → requires r a → occurs a rest.
Proof.
  induction r as [p|c|r1 IH1 r2 IH2|r IH|c|c|name r IH];
    intros rest pos g k x H Hr; simpl in Hr; try done.
  - simpl in H. destruct (lit p rest pos) as [[rest' pos']|] eqn:E; [| done].
    apply lit_inv in E as [-> _]. rewrite occurs_app.
    apply orb_prop_intro. by left.
  - apply orb_prop_elim in Hr as [Hr | Hr].
    + simpl in H. by eapply IH1.
    + simpl in H. apply rmatch_inv in H as (mid & rest' & g' & -> & H & _).
      rewrite occurs_app. apply orb_prop_intro. right. by eapply IH2.
  - simpl in H. by eapply IH.
Qed.

(** A greedy star followed by a continuation that succeeds after [pre]
    and fails on whatever comes later. *)
Lemma max_star_none c rest : ∀ pos k,
  (∀ u v p, rest = u +:+ v → k v p = None) →
  max_star c rest pos k = None.
Proof.
  induction rest as [|a rest IH]; intros pos k Hk; simpl.
  - by apply (Hk EmptyString).
  - rewrite IH.
    + destruct (in_class c a); by apply (Hk EmptyString).
    + intros u v p ->. by apply (Hk (String a u)).
Qed.

Lemma max_star_backtrack c pre rest x : ∀ pos k,
  all_in c pre →
  (∀ u v p, rest = u +:+ v → u ≠ EmptyString → k v p = None) →
  k rest (pos + String.length pre) = Some x →
  max_star c (pre +:+ rest) pos k = Some x.
Proof.
  induction pre as [|a pre IH]; intros pos k Hin Hfail Hk; simpl in *.
  - rewrite Nat.add_0_r in Hk. destruct rest as [|a rest]; simpl; [done |].
    rewrite max_star_none.
    + by destruct (in_class c a).
    + intros u v p ->. by apply (Hfail (String a u)).
  - apply andb_prop_elim in Hin as [Ha Hin]. apply Is_true_true in Ha.
    rewrite Ha. rewrite (IH (S pos) k); [done.. |].
    by rewrite Nat.add_succ_comm.
Qed.

(** A lazy star followed by a continuation that fails until [pre] has
    been taken. *)
Lemma min_star_first c pre rest x : ∀ pos k,
  all_in c pre →
  (∀ u v p, pre = u +:+ v → v ≠ EmptyString → k (v +:+ rest) p = None) →
  k rest (pos + String.length pre) = Some x →
  min_star c (pre +:+ rest) pos k = Some x.
Proof.
  induction pre as [|a pre IH]; intros pos k Hin Hfail Hk; simpl in *.
  - rewrite Nat.add_0_r in Hk. destruct rest; simpl; by rewrite Hk.
  - apply andb_prop_elim in Hin as [Ha Hin]. apply Is_true_true in Ha.
    rewrite (Hfail EmptyString (String a pre)) by done.
    rewrite Ha. apply IH; [done | | by rewrite Nat.add_succ_comm].
    intros u v p -> Hv. by apply (Hfail (String a u)).
Qed.

Lemma rmatch_maybe_skip p rest pos g k :
  lit p rest pos = None →
  rmatch (RMaybe (RLit p)) rest pos g k = k rest pos g.
Proof. intros H. simpl. by rewrite H. Qed.

Lemma rmatch_lit_app p rest pos g k :
  rmatch (RLit p) (p +:+ rest) pos g k = k rest (pos + String.length p) g.
Proof.
  simpl. replace (lit p (p +:+ rest) pos) with (Some (rest, pos + String.length p));
    [done |].
  revert pos. induction p as [|a p IH]; intros pos; simpl.
  - by rewrite Nat.add_0_r.
  - rewrite Ascii.eqb_refl, <- IH. by rewrite Nat.add_succ_comm.
Qed.

Lemma rmatch_maybe_take r rest pos g k x :
  rmatch r rest pos g k = Some x → rmatch (RMaybe r) rest pos g k = Some x.
Proof. intros H. simpl. by rewrite H. Qed.

Lemma search_at_start re s m :
  match_at re s 0 = Some m → search re s 0 = Some m.
Proof.
  intros H. unfold search. destruct (String.length s - 0); simpl; by rewrite H.
Qed.

End ReFacts.

(** ** [_qsignal.py] *)

Module QSignalFacts.
Import Re QSignal StringFacts PyFacts ReFacts.

Section Facts.

Context {A : Type}.
Variable parse_args : string → A.
Variable args_str : A → string.

Lemma groupdict_lookup (m : match_obj) (n : string) :
  n ∈ groupindex (m_re m) → groupdict m !! n = Some (group m n).
Proof.
  unfold groupdict. induction (groupindex (m_re m)) as [|x l IH]; intros Hn.
  - by apply elem_of_nil in Hn.
  - simpl. destruct (decide (x = n)) as [-> | Hne].
    + by rewrite lookup_insert_eq.
    + rewrite lookup_insert_ne by done. apply IH.
      apply elem_of_cons in Hn as [-> | Hn]; done.
Qed.

Lemma groups_of_lookup (m : match_obj) (n : string) :
  n ∈ groupindex (m_re m) →
  groups_of (A := A) m !! n = Some (of_group (group m n)).
Proof.
  intros Hn. unfold groups_of. by rewrite lookup_fmap, groupdict_lookup.
Qed.

Lemma format_emit (kw : gmap string (value A)) (o sg a : value A) :
  kw !! "owner" = Some o → kw !! "signal" = Some sg → kw !! "args" = Some a →
  format args_str "{owner}.{signal}.emit({args})" kw =
    Ok (str_of args_str o +:+ "." +:+ str_of args_str sg +:+ ".emit("
          +:+ str_of args_str a +:+ ")").
Proof.
  intros Ho Hs Ha. unfold format. simpl.
  by rewrite Ho, Hs, Ha.
Qed.

Lemma format_connect (kw : gmap string (value A)) (o sg sl : value A) :
  kw !! "owner" = Some o → kw !! "signal" = Some sg → kw !! "slot" = Some sl →
  format args_str "{owner}.{signal}.connect({slot})" kw =
    Ok (str_of args_str o +:+ "." +:+ str_of args_str sg +:+ ".connect("
          +:+ str_of args_str sl +:+ ")").
Proof.
  intros Ho Hs Hl. unfold format. simpl. by rewrite Ho, Hs, Hl.
Qed.

Lemma groupdict_ext (m m' : match_obj) :
  m_re m = m_re m' → (∀ n, group m n = group m' n) → groupdict m = groupdict m'.
Proof.
  intros Hre Hg. unfold groupdict. rewrite Hre. f_equal.
  apply list_fmap_ext. intros _ n _. by rewrite Hg.
Qed.

Lemma _emit_repl_by_groups : by_groups (_emit_repl args_str).
Proof.
  intros m m' Hre Hg. unfold _emit_repl, groups_of.
  by rewrite (groupdict_ext m m').
Qed.

Lemma _connect_repl_by_groups : by_groups (_connect_repl parse_args args_str).
Proof.
  intros m m' Hre Hg. unfold _connect_repl, groups_of.
  by rewrite (groupdict_ext m m').
Qed.

(** The text [_emit_repl] renders, group by group. *)
Lemma _emit_repl_eq (m : match_obj) :
  m_re m = EMIT_RE →
  _emit_repl args_str m =
    Ok (str_of args_str (of_group (group m "owner")) +:+ "." +:+
        str_of args_str (of_group (group m "signal")) +:+ ".emit(" +:+
        str_of args_str (of_group (group m "args")) +:+ ")").
Proof.
  intros Hre. unfold _emit_repl.
  apply format_emit; apply groups_of_lookup; rewrite Hre; simpl; set_solver.
Qed.

(** The text [_connect_repl] renders when the group [args] took part:
    what [parse_args] makes of it is stored and never read. *)
Lemma _connect_repl_eq (m : match_obj) (a : string) :
  m_re m = CONNECT_RE → group m "args" = Some a →
  _connect_repl parse_args args_str m =
    Ok (str_of args_str (of_group (group m "owner")) +:+ "." +:+
        str_of args_str (of_group (group m "signal")) +:+ ".connect(" +:+
        str_of args_str (of_group (group m "slot")) +:+ ")").
Proof.
  intros Hre Ha. unfold _connect_repl.
  rewrite (groups_of_lookup m "args") by (rewrite Hre; simpl; set_solver).
  rewrite Ha. simpl.
  apply format_connect; rewrite lookup_insert_ne by done;
    apply groups_of_lookup; rewrite Hre; simpl; set_solver.
Qed.

(** A group every match goes through has a text: the slice of the
    subject between its marks. *)
Lemma group_of_sets re s p m n :
  match_at re s p = Some m → sets re n →
  ∃ a b, m_regs m !! n = Some (a, b) ∧ group m n = Some (slice s a b) ∧
         m_start m ≤ a ∧ a ≤ b ∧ b ≤ m_end m ∧ m_end m ≤ String.length s.
Proof.
  intros Hm Hn.
  apply match_at_inv in Hm as (_ & Hs & Hp & _ & ? & _ & Hb & Hsome).
  destruct (Hsome n Hn) as [[a b] Hab]. exists a, b.
  destruct (Hb n a b Hab) as (? & ? & ?).
  unfold group. rewrite Hab, Hs. repeat split; try done. lia.
Qed.

Lemma process_emit_eq (s : string) :
  process_emit args_str s = sub EMIT_RE (_emit_repl args_str) s.
Proof.
  unfold process_emit. destruct (sub _ _ s) as [r|e]; simpl; [| done].
  case_decide; congruence.
Qed.

Lemma process_connect_eq (s : string) :
  process_connect parse_args args_str s =
    sub CONNECT_RE (_connect_repl parse_args args_str) s.
Proof.
  unfold process_connect. destruct (sub _ _ s) as [r|e]; simpl; [| done].
  case_decide; congruence.
Qed.

Lemma _emit_repl_returns s p m :
  match_at EMIT_RE s p = Some m → returns (_emit_repl args_str m).
Proof.
  intros (Hre & _)%match_at_inv. rewrite _emit_repl_eq by done. by eexists.
Qed.

Lemma _connect_repl_returns s p m :
  match_at CONNECT_RE s p = Some m →
  returns (_connect_repl parse_args args_str m).
Proof.
  intros Hm. destruct (group_of_sets _ _ _ _ "args" Hm) as (a & b & _ & Hg & _);
    [done |].
  apply match_at_inv in Hm as (Hre & _).
  rewrite (_connect_repl_eq m _ Hre Hg). by eexists.
Qed.

(** Both passes return on every fragment. *)
Lemma process_emit_returns (s : string) : returns (process_emit args_str s).
Proof.
  rewrite process_emit_eq. apply sub_returns.
  intros p m. apply _emit_repl_returns.
Qed.

Lemma process_connect_returns (s : string) :
  returns (process_connect parse_args args_str s).
Proof.
  rewrite process_connect_eq. apply sub_returns.
  intros p m. apply _connect_repl_returns.
Qed.

(** Both passes, one match at a time. *)
Lemma process_emit_unfold (s : string) (m : match_obj) :
  search EMIT_RE s 0 = Some m →
  process_emit args_str s =
    item ← _emit_repl args_str m;
    tail ← process_emit args_str (drop_str (m_end m) s);
    Ok (slice s 0 (m_start m) +:+ item +:+ tail).
Proof.
  intros H. rewrite !process_emit_eq.
  apply sub_unfold; [vm_compute; lia | apply _emit_repl_by_groups | done].
Qed.

Lemma process_connect_unfold (s : string) (m : match_obj) :
  search CONNECT_RE s 0 = Some m →
  process_connect parse_args args_str s =
    item ← _connect_repl parse_args args_str m;
    tail ← process_connect parse_args args_str (drop_str (m_end m) s);
    Ok (slice s 0 (m_start m) +:+ item +:+ tail).
Proof.
  intros H. rewrite !process_connect_eq.
  apply sub_unfold; [vm_compute; lia | apply _connect_repl_by_groups | done].
Qed.

(** *** The round trips *)

(** C1. For the fragment
    [self.connect(obj, QtCore.SIGNAL("valueChanged(int)"), self.onValueChanged)]
    [process_connect] returns exactly
    [obj.valueChanged.connect(self.onValueChanged)], whatever [parse_args]
    computes. *)
Theorem connect_round_trip :
  process_connect parse_args args_str connect_example =
    Ok "obj.valueChanged.connect(self.onValueChanged)".
Proof. vm_compute. reflexivity. Qed.

(** C2. For the fragment
    [obj.emit(QtCore.SIGNAL("valueChanged(int)"), 5)] [process_emit]
    returns exactly [obj.valueChanged.emit(5)]. *)
Theorem emit_round_trip :
  process_emit args_str emit_example = Ok "obj.valueChanged.emit(5)".
Proof. vm_compute. reflexivity. Qed.

(** *** Fragments without a match *)

(** C3. A fragment in which the CONNECT pattern finds no match comes back
    from [process_connect] unchanged, character for character, and a
    fragment in which the EMIT pattern finds no match comes back from
    [process_emit] unchanged.  Both are functions of the fragment alone:
    they have no access to the alias store, so there is no state for
    them to record. *)
Theorem no_match_unchanged (s : string) :
  (search CONNECT_RE s 0 = None →
   process_connect parse_args args_str s = Ok s) ∧
  (search EMIT_RE s 0 = None →
   process_emit args_str s = Ok s).
Proof.
  split; intros H.
  - rewrite process_connect_eq. by apply sub_no_match.
  - rewrite process_emit_eq. by apply sub_no_match.
Qed.

(** *** What the rewritten spans are made of *)

(** C4. When the EMIT pattern matches, the group [args] always takes
    part; the text between its marks [a] and [b] is a slice of the
    fragment inside the match, and it stands, character for character,
    between the parentheses of the replacement
    [owner.signal.emit(args)].  The output is the text before the match,
    that replacement, and the output of [process_emit] on the text after
    the match, where the next occurrence is the first match again. *)
Theorem emit_args_verbatim (s : string) (m : match_obj) :
  search EMIT_RE s 0 = Some m →
  ∃ sig a b tail,
    group m "signal" = Some sig ∧
    m_regs m !! "args" = Some (a, b) ∧
    group m "args" = Some (slice s a b) ∧
    m_start m ≤ a ∧ a ≤ b ∧ b ≤ m_end m ∧ m_end m ≤ String.length s ∧
    process_emit args_str (drop_str (m_end m) s) = Ok tail ∧
    process_emit args_str s =
      Ok (slice s 0 (m_start m) +:+
          str_of args_str (of_group (group m "owner")) +:+ "." +:+ sig +:+
          ".emit(" +:+ slice s a b +:+ ")" +:+ tail).
Proof.
  intros H. pose proof H as (p & _ & Hm & _)%search_inv.
  destruct (group_of_sets _ _ _ _ "signal" Hm) as (a' & b' & _ & Hsig & _);
    [done |].
  destruct (group_of_sets _ _ _ _ "args" Hm) as (a & b & Hab & Hargs & ? & ? & ? & ?);
    [done |].
  destruct (process_emit_returns (drop_str (m_end m) s)) as [tail Htail].
  exists (slice s a' b'), a, b, tail. repeat split; try done.
  rewrite (process_emit_unfold s m H), Htail.
  apply match_at_inv in Hm as (Hre & _).
  rewrite (_emit_repl_eq m Hre), Hsig, Hargs. simpl.
  by norm_app.
Qed.

(** C10. When the EMIT pattern matches and its optional group [owner]
    took no part, the replacement starts with the text [None.]: the
    value [None] of the group is formatted as it comes out of the
    dictionary of groups. *)
Theorem emit_without_owner (s : string) (m : match_obj) :
  search EMIT_RE s 0 = Some m →
  group m "owner" = None →
  ∃ sig args tail,
    group m "signal" = Some sig ∧ group m "args" = Some args ∧
    _emit_repl args_str m =
      Ok ("None." +:+ sig +:+ ".emit(" +:+ args +:+ ")") ∧
    process_emit args_str s =
      Ok (slice s 0 (m_start m) +:+
          "None." +:+ sig +:+ ".emit(" +:+ args +:+ ")" +:+ tail).
Proof.
  intros H Ho. pose proof H as (p & _ & Hm & _)%search_inv.
  destruct (group_of_sets _ _ _ _ "signal" Hm) as (a' & b' & _ & Hsig & _);
    [done |].
  destruct (group_of_sets _ _ _ _ "args" Hm) as (a & b & _ & Hargs & _);
    [done |].
  destruct (process_emit_returns (drop_str (m_end m) s)) as [tail Htail].
  apply match_at_inv in Hm as (Hre & _).
  exists (slice s a' b'), (slice s a b), tail.
  rewrite (process_emit_unfold s m H), Htail.
  rewrite (_emit_repl_eq m Hre), Ho, Hsig, Hargs. simpl.
  repeat split; try done. by norm_app.
Qed.

(** *** The round trip, whatever the argument types

    The fragment of the CONNECT round trip with any text in the place of
    the argument types, as long as it has no parenthesis and stays on
    its line: the match and the rewrite are followed through the
    backtracking of the pattern. *)

(** The CONNECT pattern in four parts: up to the owner, from the comma
    to the parenthesis that opens the argument types, the argument
    types, and what follows them. *)
Definition OWNER : regex :=
  RGroup "owner" (RSeq (RMaxStar CDot) (RMaybe (RLit ">"))).

Definition BEFORE_ARGS : regex :=
  RCat [ RLit ","; maybe_spaces; RMaybe (RLit "QtCore."); RLit "SIGNAL(";
         maybe_spaces; RIn quotes; RGroup "signal" (RPlus CWord); RLit "(" ].

Definition ARGS : regex := RGroup "args" (RMinStar CDot).

Definition AFTER_ARGS : regex :=
  RCat [ RLit ")"; RIn quotes; maybe_spaces; RLit "),"; maybe_spaces;
         RGroup "slot" (RMinStar CDot); RLit ")" ].

Lemma CONNECT_RE_parts rest pos g k :
  rmatch CONNECT_RE rest pos g k =
  rmatch (RMaybe (RLit "self.")) rest pos g (λ r1 p1 g1,
  rmatch (RLit "connect(") r1 p1 g1 (λ r2 p2 g2,
  rmatch maybe_spaces r2 p2 g2 (λ r3 p3 g3,
  rmatch OWNER r3 p3 g3 (λ r4 p4 g4,
  rmatch BEFORE_ARGS r4 p4 g4 (λ r5 p5 g5,
  rmatch ARGS r5 p5 g5 (λ r6 p6 g6,
  rmatch AFTER_ARGS r6 p6 g6 k)))))).
Proof. reflexivity. Qed.

(** Text free of parentheses and line ends. *)
Fixpoint plain (t : string) : bool :=
  match t with
  | EmptyString => true
  | String c t' =>
      negb (Ascii.eqb c "(") && negb (Ascii.eqb c ")") &&
      negb (Ascii.eqb c "010") && plain t'
  end.

Lemma plain_app u v : plain (u +:+ v) = plain u && plain v.
Proof.
  induction u as [|c u IH]; simpl; [done |]. rewrite IH. by rewrite !andb_assoc.
Qed.

Lemma plain_all_in t : plain t → all_in CDot t.
Proof.
  induction t as [|c t IH]; simpl; [done |].
  intros [[[_ _]%andb_prop_elim Hc]%andb_prop_elim Ht]%andb_prop_elim.
  apply andb_prop_intro. split; [done | by apply IH].
Qed.

Lemma plain_occurs t : plain t → occurs "(" t = false.
Proof.
  induction t as [|c t IH]; cbn [plain occurs]; [done |].
  intros [[[Hc _]%andb_prop_elim _]%andb_prop_elim Ht]%andb_prop_elim.
  rewrite IH by done. rewrite Ascii.eqb_sym.
  by destruct (Ascii.eqb c "(").
Qed.

Definition descriptor_open : string :=
  ", QtCore.SIGNAL(" +:+ dquote +:+ "valueChanged(".

Definition descriptor_close : string :=
  ")" +:+ dquote +:+ "), self.onValueChanged)".

Definition k0 : cont := λ _ pos' g, Some (pos', g).

Lemma after_args pos (g : marks) :
  rmatch AFTER_ARGS descriptor_close pos g k0 =
    Some (25 + pos, <["slot" := (5 + pos, 24 + pos)]> g).
Proof. reflexivity. Qed.

Lemma args_lazy t pos (g : marks) :
  plain t →
  rmatch ARGS (t +:+ descriptor_close) pos g
    (λ r p g', rmatch AFTER_ARGS r p g' k0) =
    Some (25 + (pos + String.length t),
          <["slot" := (5 + (pos + String.length t), 24 + (pos + String.length t))]>
            (<["args" := (pos, pos + String.length t)]> g)).
Proof.
  intros Ht. change (rmatch ARGS (t +:+ descriptor_close) pos g _) with
    (min_star CDot (t +:+ descriptor_close) pos
       (λ r p, rmatch AFTER_ARGS r p (<["args" := (pos, p)]> g) k0)).
  apply min_star_first; [by apply plain_all_in | | apply after_args].
  intros u [|c v] p -> Hv; [done |].
  rewrite plain_app in Ht. apply andb_prop_elim in Ht as [_ Ht].
  cbn [plain] in Ht.
  apply andb_prop_elim in Ht as [[[_ Hc]%andb_prop_elim _]%andb_prop_elim _].
  assert (Ascii.eqb ")" c = false) as Hne.
  { rewrite Ascii.eqb_sym. by destruct (Ascii.eqb c ")"). }
  unfold AFTER_ARGS. cbn [RCat rmatch lit String.append]. by rewrite Hne.
Qed.

Lemma before_args R pos (g : marks) (k : cont) x :
  k R (30 + pos) (<["signal" := (17 + pos, 29 + pos)]> g) = Some x →
  rmatch BEFORE_ARGS (descriptor_open +:+ R) pos g k = Some x.
Proof. intros Hk. simpl in *. by rewrite Hk. Qed.

(** What follows the greedy star of the owner: an optional [>], then
    the rest of the pattern with the owner's marks set. *)
Definition after_owner (start : nat) (g : marks) : string → nat → option (nat * marks) :=
  λ r p, rmatch (RMaybe (RLit ">")) r p g (λ r4 p4 g4,
         rmatch BEFORE_ARGS r4 p4 (<["owner" := (start, p4)]> g4) (λ r5 p5 g5,
         rmatch ARGS r5 p5 g5 (λ r6 p6 g6,
         rmatch AFTER_ARGS r6 p6 g6 k0))).

Lemma OWNER_unfold rest pos g :
  rmatch OWNER rest pos g (λ r4 p4 g4,
    rmatch BEFORE_ARGS r4 p4 g4 (λ r5 p5 g5,
    rmatch ARGS r5 p5 g5 (λ r6 p6 g6,
    rmatch AFTER_ARGS r6 p6 g6 k0))) =
  max_star CDot rest pos (after_owner pos g).
Proof. reflexivity. Qed.

(** It needs an opening parenthesis ahead. *)
Lemma after_owner_requires start g v p :
  occurs "(" v = false → after_owner start g v p = None.
Proof.
  intros Hv. destruct (after_owner start g v p) as [x|] eqn:E; [| done].
  unfold after_owner in E.
  apply rmatch_inv in E as (mid & rest' & g' & -> & E & _).
  apply (rmatch_requires _ "(") in E; [| done].
  rewrite occurs_app in Hv. apply orb_false_elim in Hv as [_ Hv].
  by rewrite Hv in E.
Qed.

(** It fails on a character that is neither [>] nor a comma. *)
Lemma after_owner_head start g c v p :
  Ascii.eqb ">" c = false → Ascii.eqb "," c = false →
  after_owner start g (String c v) p = None.
Proof.
  intros H1 H2. unfold after_owner, BEFORE_ARGS.
  cbn [RCat rmatch lit]. by rewrite H1, H2.
Qed.

(** The suffixes of a string that leave something out. *)
Lemma proper_suffix_cons (P : string → Prop) a s :
  P s → (∀ u v, s = u +:+ v → u ≠ EmptyString → P v) →
  ∀ u v, String a s = u +:+ v → u ≠ EmptyString → P v.
Proof.
  intros Hs Hrec [|b u] v Huv Hu; [done |]. simpl in Huv.
  inversion Huv; subst. destruct u as [|c u]; [done |].
  by apply (Hrec (String c u)).
Qed.

Lemma suffix_occurs a s u v : s = u +:+ v → occurs a s = false → occurs a v = false.
Proof.
  intros -> H. rewrite occurs_app in H. by apply orb_false_elim in H as [_ ?].
Qed.

Lemma owner_backtrack t pos (g : marks) :
  plain t →
  max_star CDot ("obj" +:+ descriptor_open +:+ t +:+ descriptor_close) pos
    (after_owner pos g) =
  Some (58 + (pos + String.length t),
        <["slot" := (38 + (pos + String.length t), 57 + (pos + String.length t))]>
          (<["args" := (33 + pos, 33 + pos + String.length t)]>
             (<["signal" := (20 + pos, 32 + pos)]>
                (<["owner" := (pos, 3 + pos)]> g)))).
Proof.
  intros Ht. apply max_star_backtrack; [done | |].
  - intros u v p Huv Hu. revert u v Huv Hu.
    unfold descriptor_open, dquote.
    cbn [String.append].
    assert (occurs "(" (t +:+ descriptor_close) = false) as Hno.
    { rewrite occurs_app, plain_occurs by done. reflexivity. }
    do 29 (apply proper_suffix_cons; [by apply after_owner_head |]).
    apply proper_suffix_cons; [by apply after_owner_requires |].
    intros u v Huv _. apply after_owner_requires.
    by apply (suffix_occurs _ _ _ _ Huv).
  - unfold after_owner. rewrite rmatch_maybe_skip by reflexivity.
    apply before_args. rewrite args_lazy by done.
    simpl String.length.
    replace (30 + (pos + 3) + String.length t) with (33 + pos + String.length t) by lia.
    replace (25 + (33 + pos + String.length t)) with (58 + (pos + String.length t)) by lia.
    replace (5 + (33 + pos + String.length t)) with (38 + (pos + String.length t)) by lia.
    replace (24 + (33 + pos + String.length t)) with (57 + (pos + String.length t)) by lia.
    replace (30 + (pos + 3)) with (33 + pos) by lia.
    replace (17 + (pos + 3)) with (20 + pos) by lia.
    replace (29 + (pos + 3)) with (32 + pos) by lia.
    replace (pos + 3) with (3 + pos) by lia.
    reflexivity.
Qed.

Lemma maybe_spaces_skip a w rest pos g k :
  is_space a = false →
  rmatch maybe_spaces (String a w +:+ rest) pos g k = k (String a w +:+ rest) pos g.
Proof. intros H. simpl. by rewrite H. Qed.

Lemma connect_fragment_parts t :
  connect_fragment t =
    "self." +:+ "connect(" +:+ "obj" +:+ descriptor_open +:+ t +:+ descriptor_close.
Proof. reflexivity. Qed.

(** The marks of the match. *)
Definition fragment_marks (n : nat) : marks :=
  <["slot" := (51 + n, 70 + n)]>
    (<["args" := (46, 46 + n)]>
       (<["signal" := (33, 45)]>
          (<["owner" := (13, 16)]> ∅))).

Lemma connect_fragment_match t :
  plain t →
  match_at CONNECT_RE (connect_fragment t) 0 =
    Some (MatchObj CONNECT_RE (connect_fragment t) 0
            (71 + String.length t) (fragment_marks (String.length t))).
Proof.
  intros Ht. unfold match_at. simpl (_ <? _). rewrite drop_str_0.
  fold k0. rewrite CONNECT_RE_parts.
  rewrite (rmatch_maybe_take _ _ _ _ _
    (58 + (13 + String.length t),
     <["slot" := (38 + (13 + String.length t), 57 + (13 + String.length t))]>
       (<["args" := (33 + 13, 33 + 13 + String.length t)]>
          (<["signal" := (20 + 13, 32 + 13)]>
             (<["owner" := (13, 3 + 13)]> ∅))))).
  - unfold fragment_marks. repeat f_equal; lia.
  - rewrite connect_fragment_parts.
    rewrite (rmatch_lit_app "self."), (rmatch_lit_app "connect(").
    rewrite maybe_spaces_skip by reflexivity.
    rewrite OWNER_unfold. by apply owner_backtrack.
Qed.

Lemma connect_fragment_length t :
  String.length (connect_fragment t) = 71 + String.length t.
Proof.
  rewrite connect_fragment_parts, !app_length. simpl. lia.
Qed.

Lemma slot_slice t :
  slice (connect_fragment t) (51 + String.length t) (70 + String.length t) =
    "self.onValueChanged".
Proof.
  replace (51 + String.length t) with
    (String.length ("self.connect(obj" +:+ descriptor_open +:+ t) + 5)
    by (rewrite !app_length; simpl; lia).
  replace (70 + String.length t) with
    (String.length ("self.connect(obj" +:+ descriptor_open +:+ t) + 24)
    by (rewrite !app_length; simpl; lia).
  rewrite slice_drop.
  - replace (connect_fragment t) with
      (("self.connect(obj" +:+ descriptor_open +:+ t) +:+ descriptor_close)
      by (rewrite !app_assoc; reflexivity).
    rewrite drop_str_app. reflexivity.
  - rewrite connect_fragment_length, !app_length. simpl. lia.
Qed.

(** Whatever parenthesis-free text on one line stands for the argument
    types, the fragment is rewritten to the same call. *)
Lemma connect_fragment_rewrite t :
  plain t →
  process_connect parse_args args_str (connect_fragment t) =
    Ok "obj.valueChanged.connect(self.onValueChanged)".
Proof.
  intros Ht. pose proof (connect_fragment_match t Ht) as Hm.
  set (m := MatchObj _ _ _ _ _) in Hm.
  rewrite (process_connect_unfold _ m) by (by apply search_at_start).
  assert (group m "owner" = Some "obj") as Ho by reflexivity.
  assert (group m "signal" = Some "valueChanged") as Hs by reflexivity.
  assert (group m "args" = Some (slice (connect_fragment t) 46 (46 + String.length t)))
    as Ha by reflexivity.
  assert (group m "slot" = Some "self.onValueChanged") as Hl.
  { unfold group, m, fragment_marks. cbn [m_regs m_string].
    rewrite lookup_insert_eq. by rewrite slot_slice. }
  rewrite (_connect_repl_eq m _ eq_refl Ha), Ho, Hs, Hl.
  unfold m. cbn [m_end m_start].
  rewrite <- connect_fragment_length, drop_str_all.
  reflexivity.
Qed.

End Facts.

(** *** Instances

    The facts above at concrete fragments, with the identity standing
    for [parse_args]. *)

(** A fragment with no old-style call in it. *)
Definition plain_fragment : string := "value = compute(1, 2)".

Lemma no_match_unchanged_witness :
  search CONNECT_RE plain_fragment 0 = None ∧
  search EMIT_RE plain_fragment 0 = None ∧
  process_connect (λ a : string, a) (λ a, a) plain_fragment = Ok plain_fragment ∧
  process_emit (λ a : string, a) plain_fragment = Ok plain_fragment.
Proof.
  assert (search CONNECT_RE plain_fragment 0 = None) as Hc
    by (vm_compute; reflexivity).
  assert (search EMIT_RE plain_fragment 0 = None) as He
    by (vm_compute; reflexivity).
  split; [exact Hc |]. split; [exact He |]. split.
  - exact (proj1 (no_match_unchanged (λ a : string, a) (λ a, a) plain_fragment) Hc).
  - exact (proj2 (no_match_unchanged (λ a : string, a) (λ a, a) plain_fragment) He).
Defined.

Lemma emit_args_verbatim_witness :
  ∃ m, search EMIT_RE emit_example 0 = Some m ∧
  ∃ sig a b tail,
    group m "signal" = Some sig ∧
    m_regs m !! "args" = Some (a, b) ∧
    group m "args" = Some (slice emit_example a b) ∧
    m_start m ≤ a ∧ a ≤ b ∧ b ≤ m_end m ∧
    m_end m ≤ String.length emit_example ∧
    process_emit (λ a : string, a) (drop_str (m_end m) emit_example) = Ok tail ∧
    process_emit (λ a : string, a) emit_example =
      Ok (slice emit_example 0 (m_start m) +:+
          str_of (λ a : string, a) (of_group (group m "owner")) +:+ "." +:+
          sig +:+ ".emit(" +:+ slice emit_example a b +:+ ")" +:+ tail).
Proof.
  eexists. split; [vm_compute; reflexivity |].
  apply (emit_args_verbatim (λ a : string, a) emit_example).
  vm_compute; reflexivity.
Defined.

Lemma emit_without_owner_witness :
  ∃ m, search EMIT_RE bare_emit_example 0 = Some m ∧
       group m "owner" = None ∧
       ∃ sig args tail,
         group m "signal" = Some sig ∧ group m "args" = Some args ∧
         _emit_repl (λ a : string, a) m =
           Ok ("None." +:+ sig +:+ ".emit(" +:+ args +:+ ")") ∧
         process_emit (λ a : string, a) bare_emit_example =
           Ok (slice bare_emit_example 0 (m_start m) +:+
               "None." +:+ sig +:+ ".emit(" +:+ args +:+ ")" +:+ tail).
Proof.
  eexists. split; [vm_compute; reflexivity |].
  split; [vm_compute; reflexivity |].
  apply (emit_without_owner (λ a : string, a) bare_emit_example);
    vm_compute; reflexivity.
Defined.

(** The same on the fragment [emit(SIGNAL("valueChanged(int)"), 5)]. *)
Example bare_emit_rewrite :
  process_emit (λ a : string, a) bare_emit_example =
    Ok "None.valueChanged.emit(5)".
Proof. vm_compute. reflexivity. Qed.


End QSignalFacts.

(** ** [general.py] *)

Module GeneralFacts.
Import General.

Section Store.

Variable __supports_color : bool.

(** [AliasDict[name]] is the set object [l], which holds [X]. *)
Definition slot (σ : state) (name : string) (l : loc) (X : gset elem) : Prop :=
  AliasDict σ !! name = Some l ∧ heap σ !! l = Some (OSet X).

(** The names of [S] are bound to set objects, no two to the same one. *)
Definition layout (S : list string) (σ : state) : Prop :=
  (∀ n, n ∈ S → ∃ l X, slot σ n l X) ∧
  (∀ n1 n2 l, n1 ∈ S → n2 ∈ S →
     AliasDict σ !! n1 = Some l → AliasDict σ !! n2 = Some l → n1 = n2).

Lemma slot_contents σ name l X : slot σ name l X → contents σ name = Some X.
Proof. intros [Hd Hh]. unfold contents. by rewrite Hd, Hh. Qed.

Lemma bind_run {B C} (c : M B) (f : B → M C) σ b σ' :
  c σ = Ok (b, σ') → (c ≫= f) σ = f b σ'.
Proof. intros H. unfold mbind, M_bind. by rewrite H. Qed.

Lemma alloc_spec o σ :
  ∃ l, heap σ !! l = None ∧
       alloc o σ = Ok (l, State (<[l := o]> (heap σ)) (AliasDict σ) (stdout σ)).
Proof.
  exists (fresh (dom (heap σ))). split; [| done].
  apply not_elem_of_dom, is_fresh.
Qed.

(** The store after [name] is bound to a new empty set [l]. *)
Definition renew (name : string) (l : loc) (σ : state) : state :=
  State (<[l := OSet ∅]> (heap σ)) (<[name := l]> (AliasDict σ)) (stdout σ).

Lemma renew_step {C} name (k : M C) σ :
  ∃ l, heap σ !! l = None ∧
       (new_set ≫= λ l, setitem name l ≫= λ _, k) σ = k (renew name l σ).
Proof.
  destruct (alloc_spec (OSet ∅) σ) as (l & Hl & E). exists l. split; [done |].
  unfold new_set. by rewrite (bind_run _ _ _ _ _ E).
Qed.

Lemma renew_last name σ :
  ∃ l, heap σ !! l = None ∧
       (new_set ≫= λ l, setitem name l) σ = Ok ((), renew name l σ).
Proof.
  destruct (alloc_spec (OSet ∅) σ) as (l & Hl & E). exists l. split; [done |].
  unfold new_set. by rewrite (bind_run _ _ _ _ _ E).
Qed.

Lemma renew_slot name l σ : slot (renew name l σ) name l ∅.
Proof. split; simpl; apply lookup_insert_eq. Qed.

Lemma renew_slot_other name l σ other l0 X :
  heap σ !! l = None → other ≠ name →
  slot σ other l0 X → slot (renew name l σ) other l0 X.
Proof.
  intros Hl Hne [Hd Hh]. split; simpl.
  - by rewrite lookup_insert_ne.
  - rewrite lookup_insert_ne; [done | congruence].
Qed.

Lemma renew_layout S name l σ :
  heap σ !! l = None → layout S σ → layout (name :: S) (renew name l σ).
Proof.
  intros Hl [Hs Hi]. split.
  - intros n Hn. destruct (decide (n = name)) as [-> | Hne].
    + exists l, ∅. apply renew_slot.
    + apply elem_of_cons in Hn as [? | Hn]; [done |].
      destruct (Hs n Hn) as (l0 & X & Hslot).
      exists l0, X. by apply renew_slot_other.
  - assert (∀ n, n ∈ S → AliasDict σ !! n ≠ Some l) as Hfresh.
    { intros n Hn Hd. destruct (Hs n Hn) as (l0 & X & Hd' & Hh). congruence. }
    intros n1 n2 l' H1 H2. simpl.
    destruct (decide (n1 = name)) as [-> | Hne1],
      (decide (n2 = name)) as [-> | Hne2]; try done.
    + rewrite lookup_insert_eq, lookup_insert_ne by done. intros [= <-] Hd.
      apply elem_of_cons in H2 as [? | H2]; [done |]. by destruct (Hfresh n2 H2).
    + rewrite lookup_insert_eq, lookup_insert_ne by done. intros Hd [= <-].
      apply elem_of_cons in H1 as [? | H1]; [done |]. by destruct (Hfresh n1 H1).
    + rewrite !lookup_insert_ne by done.
      apply elem_of_cons in H1 as [? | H1]; [done |].
      apply elem_of_cons in H2 as [? | H2]; [done |]. by apply Hi.
Qed.

(** The names of [S] are bound to empty sets. *)
Definition cleared (S : list string) (σ : state) : Prop :=
  ∀ n, n ∈ S → contents σ n = Some ∅.

Lemma renew_cleared S name l σ :
  heap σ !! l = None → layout S σ → cleared S σ →
  cleared (name :: S) (renew name l σ).
Proof.
  intros Hl [Hs _] Hc n Hn. destruct (decide (n = name)) as [-> | Hne].
  - apply (slot_contents _ _ l), renew_slot.
  - apply elem_of_cons in Hn as [? | Hn]; [done |].
    destruct (Hs n Hn) as (l0 & X & Hslot).
    pose proof (slot_contents _ _ _ _ Hslot) as Hx. rewrite (Hc n Hn) in Hx.
    inversion Hx; subst.
    apply (slot_contents _ _ l0). by apply renew_slot_other.
Qed.

(** [clean] returns, whatever the store, and leaves the five names bound
    to five different empty sets. *)
Lemma clean_spec σ :
  ∃ σ', clean __supports_color σ = Ok ((), σ') ∧
        layout names σ' ∧ cleared names σ'.
Proof.
  unfold clean.
  rewrite (bind_run _ _ _ _ _ (eq_refl : print _ σ = Ok ((), _))).
  set (σ0 := State _ _ _).
  assert (layout [] σ0 ∧ cleared [] σ0) as [L0 C0].
  { split; [split |]; [intros n Hn | intros n1 n2 l Hn | intros n Hn];
      by apply elem_of_nil in Hn. }
  destruct (renew_step "bindings"
    (new_set ≫= λ l, setitem "root_aliases" l ≫= λ _,
     new_set ≫= λ l, setitem "used" l ≫= λ _,
     new_set ≫= λ l, setitem "warnings" l ≫= λ _,
     new_set ≫= λ l, setitem "errors" l) σ0) as (l1 & F1 & ->).
  pose proof (renew_layout _ "bindings" _ _ F1 L0) as L1.
  pose proof (renew_cleared _ "bindings" _ _ F1 L0 C0) as C1.
  set (σ1 := renew _ _ σ0) in *.
  destruct (renew_step "root_aliases"
    (new_set ≫= λ l, setitem "used" l ≫= λ _,
     new_set ≫= λ l, setitem "warnings" l ≫= λ _,
     new_set ≫= λ l, setitem "errors" l) σ1) as (l2 & F2 & ->).
  pose proof (renew_layout _ "root_aliases" _ _ F2 L1) as L2.
  pose proof (renew_cleared _ "root_aliases" _ _ F2 L1 C1) as C2.
  set (σ2 := renew _ _ σ1) in *.
  destruct (renew_step "used"
    (new_set ≫= λ l, setitem "warnings" l ≫= λ _,
     new_set ≫= λ l, setitem "errors" l) σ2) as (l3 & F3 & ->).
  pose proof (renew_layout _ "used" _ _ F3 L2) as L3.
  pose proof (renew_cleared _ "used" _ _ F3 L2 C2) as C3.
  set (σ3 := renew _ _ σ2) in *.
  destruct (renew_step "warnings"
    (new_set ≫= λ l, setitem "errors" l) σ3) as (l4 & F4 & ->).
  pose proof (renew_layout _ "warnings" _ _ F4 L3) as L4.
  pose proof (renew_cleared _ "warnings" _ _ F4 L3 C3) as C4.
  set (σ4 := renew _ _ σ3) in *.
  destruct (renew_last "errors" σ4) as (l5 & F5 & ->).
  pose proof (renew_layout _ "errors" _ _ F5 L4) as L5.
  pose proof (renew_cleared _ "errors" _ _ F5 L4 C4) as C5.
  eexists. split; [done |].
  assert (∀ n, n ∈ names →
            n ∈ ["errors"; "warnings"; "used"; "root_aliases"; "bindings"])
    as Hsub by (intros n; unfold names; rewrite !elem_of_cons; tauto).
  split; [split |].
  - intros n Hn. apply L5; auto.
  - intros n1 n2 l H1 H2. apply L5; auto.
  - intros n Hn. apply C5; auto.
Qed.

(** The store with the object [l] set to [o]. *)
Definition put (l : loc) (o : obj) (σ : state) : state :=
  State (<[l := o]> (heap σ)) (AliasDict σ) (stdout σ).

Lemma put_contents_other σ l o other l0 X :
  slot σ other l0 X → l0 ≠ l → contents (put l o σ) other = Some X.
Proof.
  intros [Hd Hh] Hne. unfold contents. simpl.
  by rewrite Hd, lookup_insert_ne, Hh.
Qed.

(** Updating a set in place keeps the layout. *)
Lemma layout_update S σ l X Y :
  heap σ !! l = Some (OSet X) → layout S σ → layout S (put l (OSet Y) σ).
Proof.
  intros Hl [Hs Hi]. split; [| done].
  intros n Hn. destruct (Hs n Hn) as (l0 & X0 & Hd & Hh).
  destruct (decide (l0 = l)) as [-> | Hne].
  - exists l, Y. split; [done |]. simpl. apply lookup_insert_eq.
  - exists l0, X0. split; [done |]. simpl. by rewrite lookup_insert_ne.
Qed.

(** So does a new object. *)
Lemma layout_alloc S σ l o :
  heap σ !! l = None → layout S σ → layout S (put l o σ).
Proof.
  intros Hl [Hs Hi]. split; [| done].
  intros n Hn. destruct (Hs n Hn) as (l0 & X0 & Hd & Hh).
  exists l0, X0. split; [done |]. simpl.
  rewrite lookup_insert_ne; [done | congruence].
Qed.

Lemma set_add_spec σ l X x :
  heap σ !! l = Some (OSet X) →
  set_add l x σ = Ok ((), put l (OSet ({[x]} ∪ X)) σ).
Proof. intros H. unfold set_add. by rewrite H. Qed.

(** [add] on a name of the layout: the named set gains the element, the
    sets of the other names are what they were. *)
Lemma add_spec S σ name x :
  layout S σ → name ∈ S →
  ∃ l X σ',
    slot σ name l X ∧
    add name x σ = Ok ((), σ') ∧ σ' = put l (OSet ({[x]} ∪ X)) σ ∧
    contents σ' name = Some ({[x]} ∪ X) ∧
    (∀ other, other ∈ S → other ≠ name → contents σ' other = contents σ other).
Proof.
  intros [Hs Hi] Hn. destruct (Hs name Hn) as (l & X & Hd & Hh).
  exists l, X, (put l (OSet ({[x]} ∪ X)) σ). split; [done |]. split.
  { unfold add, getitem, mbind, M_bind. rewrite Hd. by apply set_add_spec. }
  split; [done |]. split.
  - unfold contents. simpl. by rewrite Hd, lookup_insert_eq.
  - intros other Ho Hne. destruct (Hs other Ho) as (l0 & X0 & Hslot).
    rewrite (slot_contents _ _ _ _ Hslot).
    apply (put_contents_other _ _ _ _ l0); [done |].
    intros ->. destruct Hslot as [Hd0 _]. by destruct (Hi other name l).
Qed.

(** Whatever [add] does when it returns, it keeps the layout. *)
Lemma add_layout S σ σ' name x :
  layout S σ → add name x σ = Ok ((), σ') → layout S σ'.
Proof.
  intros HL. unfold add, getitem, set_add, mbind, M_bind.
  destruct (AliasDict σ !! name) as [l|]; [| done].
  destruct (heap σ !! l) as [[X|]|] eqn:E; try done.
  intros [= <-]. by apply (layout_update _ _ _ X).
Qed.

(** [ErrorClass(node, reason)] in a store that has [errors] in its
    layout: the call returns a new instance with the rows of the span,
    and the set of errors gains it. *)
Definition record_of (bbox : bounding_box) (reason : string) : ErrorRecord :=
  {| row := line (top_left bbox) - 1;
     row_to := line (bottom_right bbox) - 1;
     reason := reason |}.

Lemma ErrorClass_spec S σ node bbox reason :
  layout S σ → "errors" ∈ S →
  absolute_bounding_box node = Some bbox →
  ∃ self σ' le E,
    ErrorClass node reason σ = Ok (self, σ') ∧
    heap σ !! self = None ∧
    slot σ "errors" le E ∧
    σ' = put le (OSet ({[ERef self]} ∪ E))
           (put self (OError (record_of bbox reason)) σ).
Proof.
  intros [Hs Hi] Hn Hbox. destruct (Hs _ Hn) as (le & E & Hd & Hh).
  unfold ErrorClass.
  rewrite (bind_run _ _ σ bbox σ) by (unfold get_bounding_box; by rewrite Hbox).
  fold (record_of bbox reason).
  destruct (alloc_spec (OError (record_of bbox reason)) σ)
    as (self & Hself & Ealloc).
  exists self, (put le (OSet ({[ERef self]} ∪ E))
                  (put self (OError (record_of bbox reason)) σ)), le, E.
  split; [| done].
  rewrite (bind_run _ _ _ _ _ Ealloc).
  unfold getitem, mbind, M_bind. simpl. rewrite Hd.
  rewrite (set_add_spec _ le E); [done |]. simpl.
  rewrite lookup_insert_ne; [done | congruence].
Qed.

(** Without a bounding box on the node the constructor raises. *)
Lemma ErrorClass_without_span σ node reason :
  absolute_bounding_box node = None →
  ErrorClass node reason σ = Raise AttributeError.
Proof.
  intros Hbox. unfold ErrorClass, get_bounding_box, mbind, M_bind.
  by rewrite Hbox.
Qed.

Lemma ErrorClass_layout S σ σ' node reason self :
  layout S σ → ErrorClass node reason σ = Ok (self, σ') → layout S σ'.
Proof.
  intros HL. unfold ErrorClass.
  destruct (absolute_bounding_box node) as [bbox|] eqn:Hbox.
  2:{ unfold get_bounding_box, mbind, M_bind. by rewrite Hbox. }
  rewrite (bind_run _ _ σ bbox σ) by (unfold get_bounding_box; by rewrite Hbox).
  fold (record_of bbox reason).
  destruct (alloc_spec (OError (record_of bbox reason)) σ)
    as (l & Hl & Ealloc).
  rewrite (bind_run _ _ _ _ _ Ealloc).
  pose proof (layout_alloc S σ l (OError (record_of bbox reason)) Hl HL) as HL'.
  unfold put in HL'. set (σ1 := State _ _ _) in *.
  unfold getitem, set_add, mbind, M_bind.
  destruct (AliasDict σ1 !! "errors") as [le|]; [| done].
  destruct (heap σ1 !! le) as [[X|]|] eqn:E; try done.
  intros [= <- <-]. exact (layout_update S σ1 le X _ E HL').
Qed.

Lemma initial_state_run :
  AliasDictClass__init__ empty_state = Ok ((), initial_state).
Proof. vm_compute. reflexivity. Qed.

Lemma initial_state_layout : layout names initial_state.
Proof.
  split.
  - intros n Hn. unfold names in Hn.
    repeat (apply elem_of_cons in Hn as [-> | Hn]);
      [eexists _, _; split; vm_compute; reflexivity.. |].
    by apply elem_of_nil in Hn.
  - intros n1 n2 l H1 H2. unfold names in H1, H2.
    repeat (apply elem_of_cons in H1 as [-> | H1]);
      [| | | | | by apply elem_of_nil in H1];
      (repeat (apply elem_of_cons in H2 as [-> | H2]);
         [| | | | | by apply elem_of_nil in H2]);
      vm_compute; congruence.
Qed.

(** Every store the module reaches has the five names bound to five
    different set objects. *)
Lemma reachable_layout σ :
  reachable __supports_color σ → layout names σ.
Proof.
  induction 1 as [|σ σ' _ IH Hc|σ σ' name x _ IH Ha|σ σ' node reason self _ IH He].
  - apply initial_state_layout.
  - destruct (clean_spec σ) as (σ'' & Hc' & HL & _). congruence.
  - by eapply add_layout.
  - by eapply ErrorClass_layout.
Qed.

(** *** The registry *)

(** C8. [clean] returns on every store, whatever the five sets held and
    whatever they shared, and leaves each of [bindings], [root_aliases],
    [used], [warnings] and [errors] empty.  An [add] into one of them
    that follows returns, makes that set the singleton of the element
    added, and leaves each of the other four as it was: empty. *)
Theorem clean_then_add (σ : state) :
  ∃ σ', clean __supports_color σ = Ok ((), σ') ∧
    (∀ name, name ∈ names → contents σ' name = Some ∅) ∧
    (∀ name x, name ∈ names →
       ∃ σ'', add name x σ' = Ok ((), σ'') ∧
         contents σ'' name = Some {[x]} ∧
         (∀ other, other ∈ names → other ≠ name →
            contents σ'' other = contents σ' other ∧
            contents σ'' other = Some ∅)).
Proof.
  destruct (clean_spec σ) as (σ' & Hclean & HL & HC).
  exists σ'. split; [done |]. split; [done |].
  intros name x Hn.
  destruct (add_spec names σ' name x HL Hn)
    as (l & X & σ'' & Hslot & Hadd & _ & Hnew & Hframe).
  exists σ''. split; [done |]. split.
  - rewrite Hnew. apply slot_contents in Hslot.
    rewrite (HC name Hn) in Hslot. inversion Hslot; subst.
    by rewrite union_empty_r_L.
  - intros other Ho Hne. rewrite (Hframe other Ho Hne). split; [done |].
    by apply HC.
Qed.

(** *** The error reporter *)

(** C9. In every store the module reaches, [ErrorClass(node, reason)]
    on a node that has a source span returns: it does not raise.  The
    instance it returns has [row] the span's start line less one,
    [row_to] the span's end line less one and the reason given, so
    [row <= row_to] as soon as the span starts no later than it ends;
    and the set [AliasDict["errors"]] is what it was plus this
    instance. *)
Theorem ErrorClass_reports (σ : state) (node : node) (bbox : bounding_box)
    (reason : string) :
  reachable __supports_color σ →
  absolute_bounding_box node = Some bbox →
  ∃ self σ' E r,
    ErrorClass node reason σ = Ok (self, σ') ∧
    heap σ' !! self = Some (OError r) ∧
    row r = (line (top_left bbox) - 1)%Z ∧
    row_to r = (line (bottom_right bbox) - 1)%Z ∧
    General.reason r = reason ∧
    ((line (top_left bbox) ≤ line (bottom_right bbox))%Z →
     (row r ≤ row_to r)%Z) ∧
    contents σ "errors" = Some E ∧
    contents σ' "errors" = Some ({[ERef self]} ∪ E).
Proof.
  intros HL%reachable_layout Hbox.
  destruct (ErrorClass_spec names σ node bbox reason HL)
    as (self & σ' & le & E & Hrun & Hfresh & [Hd Hh] & Hσ');
    [unfold names; repeat constructor | done |].
  exists self, σ', E, (record_of bbox reason). subst σ'.
  split; [done |]. split.
  { simpl. rewrite lookup_insert_ne by congruence. apply lookup_insert_eq. }
  split; [done |]. split; [done |]. split; [done |]. split.
  { simpl. lia. }
  split; [by apply (slot_contents _ _ le) |].
  unfold contents. simpl. by rewrite Hd, lookup_insert_eq.
Qed.

End Store.

(** *** Instances *)

(** A store with something in each of two sets, both names bound to the
    same set object. *)
Definition shared_store : state :=
  State {[ 1%positive := OSet {[ EStr "PyQt4"; EStr "QtGui" ]} ]}
        {[ "bindings" := 1%positive; "used" := 1%positive ]}
        [].

Lemma clean_then_add_witness :
  ∃ σ' σ'',
    clean true shared_store = Ok ((), σ') ∧
    contents σ' "bindings" = Some ∅ ∧
    add "used" (EStr "QtCore") σ' = Ok ((), σ'') ∧
    contents σ'' "used" = Some {[ EStr "QtCore" ]} ∧
    contents σ'' "bindings" = Some ∅.
Proof.
  destruct (clean_then_add true shared_store) as (σ' & Hclean & Hempty & Hadd).
  destruct (Hadd "used" (EStr "QtCore")) as (σ'' & Hrun & Hnew & Hframe).
  { unfold names. repeat constructor. }
  exists σ', σ''. split; [exact Hclean |]. split.
  { apply Hempty. unfold names. repeat constructor. }
  split; [exact Hrun |]. split; [exact Hnew |].
  apply Hframe; [unfold names; repeat constructor | discriminate].
Defined.

(** Before [clean], the two names of [shared_store] share one set: an
    [add] under one of them shows under the other.  The frame above
    rests on [clean] binding every name to a set of its own. *)
Example shared_store_add :
  ∃ σ', add "used" (EStr "QtCore") shared_store = Ok ((), σ') ∧
        contents σ' "bindings" =
          Some {[ EStr "QtCore"; EStr "PyQt4"; EStr "QtGui" ]}.
Proof. eexists. split; vm_compute; reflexivity. Qed.

Definition box_3_5 : bounding_box :=
  mkBox (mkPosition 3 4) (mkPosition 5 17).

Definition span_3_5 : node := mkNode (Some box_3_5).

Lemma ErrorClass_reports_witness :
  reachable true initial_state ∧
  absolute_bounding_box span_3_5 = Some box_3_5 ∧
  ∃ self σ' E r,
    ErrorClass span_3_5 "unsupported call" initial_state = Ok (self, σ') ∧
    heap σ' !! self = Some (OError r) ∧
    row r = (3 - 1)%Z ∧ row_to r = (5 - 1)%Z ∧
    General.reason r = "unsupported call" ∧
    ((3 ≤ 5)%Z → (row r ≤ row_to r)%Z) ∧
    contents initial_state "errors" = Some E ∧
    contents σ' "errors" = Some ({[ERef self]} ∪ E).
Proof.
  split; [apply reach_init |]. split; [reflexivity |].
  apply (ErrorClass_reports true initial_state span_3_5 box_3_5
           "unsupported call"); [apply reach_init | reflexivity].
Defined.

(** *** [merge_dict] *)

(** One round of the loop, on the values the two copies hold for the
    key: the values they hold afterwards and the value the result gets,
    if any. *)
Definition merge_values (l r : option pyval)
    : res (pyval * pyval * option pyval) :=
  r' ← match r with
       | Some v => Ok v
       | None => v ← match l with Some v => Ok v | None => Raise TypeError end;
                 zero_of v
       end;
  l' ← match l with
       | Some v => Ok v
       | None => zero_of r'
       end;
  match l' with
  | PSet X => v ← union X r'; Ok (l', r', Some v)
  | PStr a => v ← __add__ a r'; Ok (l', r', Some v)
  | _ => Ok (l', r', None)
  end.

Lemma dict_get_lookup (d : gmap string pyval) key v :
  d !! key = Some v → dict_get d key = Ok v.
Proof. intros H. unfold dict_get. by rewrite H. Qed.

(** [merge_key] acts at the key alone, as [merge_values] says. *)
Lemma merge_key_values (lhs rhs out : gmap string pyval) key l' r' o :
  merge_values (lhs !! key) (rhs !! key) = Ok (l', r', o) →
  merge_key (lhs, rhs, out) key =
    Ok (<[key := l']> lhs, <[key := r']> rhs,
        match o with Some v => <[key := v]> out | None => out end).
Proof.
  assert (∀ (d : gmap string pyval) v, d !! key = Some v → <[key := v]> d = d)
    as Hid by (intros; by apply insert_id).
  unfold merge_key, merge_values, dict_get.
  destruct (rhs !! key) as [rv|] eqn:Er; simpl.
  - rewrite decide_False by (rewrite not_elem_of_dom, Er; by intros [=]).
    simpl. destruct (lhs !! key) as [lv|] eqn:El; simpl.
    + rewrite decide_False by (rewrite not_elem_of_dom, El; by intros [=]).
      simpl. rewrite El. simpl.
      destruct lv as [| |a|X|]; simpl; rewrite ?Er; simpl;
        [| | destruct (__add__ a rv); simpl; [| done]
         | destruct (union X rv); simpl; [| done] |];
        intros [= <- <- <-]; by rewrite (Hid lhs _ El), (Hid rhs _ Er).
    + rewrite decide_True by (by rewrite not_elem_of_dom).
      rewrite Er. simpl. destruct (zero_of rv) as [z|]; simpl; [| done].
      rewrite lookup_insert_eq. simpl.
      destruct z as [| |a|X|]; simpl; rewrite ?Er; simpl;
        [| | destruct (__add__ a rv); simpl; [| done]
         | destruct (union X rv); simpl; [| done] |];
        intros [= <- <- <-]; by rewrite (Hid rhs _ Er).
  - rewrite decide_True by (by rewrite not_elem_of_dom).
    destruct (lhs !! key) as [lv|] eqn:El; simpl; [| done].
    destruct (zero_of lv) as [z|]; simpl; [| done].
    rewrite decide_False by (rewrite not_elem_of_dom, El; by intros [=]).
    simpl. rewrite El. simpl.
    destruct lv as [| |a|X|]; simpl; rewrite ?lookup_insert_eq; simpl;
      [| | destruct (__add__ a z); simpl; [| done]
       | destruct (union X z); simpl; [| done] |];
      intros [= <- <- <-]; by rewrite (Hid lhs _ El).
Qed.

(** Values with no rule of combination: neither a set nor a text. *)
Definition other_type (v : pyval) : Prop :=
  match v with
  | PSet _ | PStr _ => False
  | _ => True
  end.

(** A round of the loop writes at its own key only, keeps what [lhs]
    holds, and writes nothing to the result for a value of another
    type. *)
Lemma merge_key_frame l r o l' r' o' key k v :
  merge_key (l, r, o) key = Ok (l', r', o') →
  l !! k = Some v → other_type v →
  l' !! k = Some v ∧ o' !! k = o !! k.
Proof.
  unfold merge_key, dict_get, mbind, res_bind. intros H Hl Hv.
  destruct (decide (key ∉ dom r)).
  - destruct (l !! key) as [lv|] eqn:El; [| done].
    destruct (zero_of lv) as [z|]; [| done].
    rewrite decide_False in H by (rewrite not_elem_of_dom, El; by intros [=]).
    rewrite El in H. rewrite lookup_insert_eq in H.
    destruct lv as [| |a|X|]; simpl in H;
      [| | destruct (__add__ a z); [| done] | destruct (union X z); [| done] |];
      inversion H; subst; split; try done;
      (destruct (decide (k = key)) as [-> | Hne];
         [rewrite El in Hl; by inversion Hl; subst
         | by rewrite lookup_insert_ne]).
  - destruct (decide (key ∉ dom l)) as [Hk|Hk].
    + destruct (r !! key) as [rv|] eqn:Er; [| done].
      destruct (zero_of rv) as [z|]; [| done].
      rewrite lookup_insert_eq in H.
      assert (k ≠ key) as Hne.
      { intros ->. apply not_elem_of_dom in Hk. congruence. }
      destruct z as [| |a|X|]; simpl in H; rewrite ?Er in H;
        [| | destruct (__add__ a rv); [| done] | destruct (union X rv); [| done] |];
        inversion H; subst; rewrite ?lookup_insert_ne by done; done.
    + destruct (l !! key) as [lv|] eqn:El; [| done].
      destruct lv as [| |a|X|]; simpl in H;
        [| | destruct (r !! key) as [rv|]; [| done];
             destruct (__add__ a rv); [| done]
         | destruct (r !! key) as [rv|]; [| done];
           destruct (union X rv); [| done] |];
        inversion H; subst; split; try done;
        (destruct (decide (k = key)) as [-> | Hne];
           [rewrite El in Hl; by inversion Hl; subst
           | by rewrite lookup_insert_ne]).
Qed.

Lemma merge_loop_frame keys : ∀ l r o l' r' o' k v,
  merge_loop keys (l, r, o) = Ok (l', r', o') →
  l !! k = Some v → other_type v →
  o' !! k = o !! k.
Proof.
  induction keys as [|key keys IH]; intros l r o l' r' o' k v H Hl Hv; simpl in H.
  - by inversion H.
  - apply PyFacts.bind_returns in H as ([[l1 r1] o1] & E & H).
    destruct (merge_key_frame _ _ _ _ _ _ _ _ _ E Hl Hv) as [Hl1 <-].
    by eapply IH.
Qed.

Definition pyside : gmap string pyval :=
  {[ "bindings" := PSet {[ EStr "PySide" ]} ]}.

Definition pyqt5 : gmap string pyval :=
  {[ "bindings" := PSet {[ EStr "PyQt5" ]} ]}.

(** C7 as the specification states it: a key of another type is passed
    through from [lhs]. *)
Definition passes_through : Prop :=
  ∀ lhs rhs keys keys_both k v out,
    k ∈ selected_keys lhs rhs keys keys_both →
    lhs !! k = Some v → other_type v →
    merge_dict lhs rhs keys keys_both = Ok out →
    out !! k = Some v.

Definition counted (n : Z) : gmap string pyval := {[ "count" := PInt n ]}.

(** It fails: merging [{count: 3}] with [{count: 4}] over
    [keys=["count"]] returns the empty dictionary. *)
Lemma merge_dict_drops_other_types : ¬ passes_through.
Proof.
  intros H.
  specialize (H (counted 3) (counted 4) (Some ["count"]) false "count"
                (PInt 3) ∅).
  assert ((∅ : gmap string pyval) !! "count" = Some (PInt 3)) as Habs.
  { apply H; [by left | done | done | vm_compute; reflexivity]. }
  by rewrite lookup_empty in Habs.
Qed.

(** C7, as the code has it.  A key whose value in [lhs] is neither a set
    nor a text is left out of the result: whenever [merge_dict] returns,
    the result has no entry for it. *)
Theorem merge_dict_omits_other_types lhs rhs keys keys_both k v out :
  lhs !! k = Some v → other_type v →
  merge_dict lhs rhs keys keys_both = Ok out →
  out !! k = None.
Proof.
  intros Hl Hv. unfold merge_dict.
  intros ([[l r] o] & Hloop & [= <-])%PyFacts.bind_returns.
  rewrite (merge_loop_frame _ _ _ _ _ _ _ _ _ Hloop Hl Hv).
  apply lookup_empty.
Qed.

Definition with_notes : gmap string pyval :=
  {[ "bindings" := PSet {[ EStr "PySide" ]}; "notes" := PStr "old-style" ]}.

Definition counted_bindings : gmap string pyval :=
  {[ "count" := PInt 3; "bindings" := PSet {[ EStr "PySide" ]} ]}.

Lemma merge_dict_omits_other_types_witness :
  merge_dict counted_bindings (counted 4) (Some ["count"; "bindings"]) false =
    Ok pyside ∧
  pyside !! "count" = None.
Proof.
  assert (merge_dict counted_bindings (counted 4)
            (Some ["count"; "bindings"]) false = Ok pyside) as Hrun
    by (vm_compute; reflexivity).
  split; [exact Hrun |].
  apply (merge_dict_omits_other_types counted_bindings (counted 4)
           (Some ["count"; "bindings"]) false "count" (PInt 3) pyside);
    [vm_compute; reflexivity | exact I | exact Hrun].
Defined.

End GeneralFacts.

(** * Further properties *)

(** ** The texts a match is made of *)

Module ShapeFacts.
Import Re QSignal StringFacts PyFacts ReFacts QSignalFacts.

(** The texts of the groups that took part. *)
Abbreviation texts := (gmap string string).

(** [shape r mid t t']: the text [mid] is made the way [r] says, and the
    groups of [r] that take part add their texts to [t], giving [t']. *)
Fixpoint shape (r : regex) (mid : string) (t t' : texts) : Prop :=
  match r with
  | RLit p => mid = p ∧ t' = t
  | RIn c => (∃ a, mid = String a EmptyString ∧ in_class c a) ∧ t' = t
  | RSeq r1 r2 =>
      ∃ m1 m2 t1, mid = m1 +:+ m2 ∧ shape r1 m1 t t1 ∧ shape r2 m2 t1 t'
  | RMaybe r => (mid = EmptyString ∧ t' = t) ∨ shape r mid t t'
  | RMaxStar c | RMinStar c => all_in c mid ∧ t' = t
  | RGroup n r => ∃ t1, shape r mid t t1 ∧ t' = <[n := mid]> t1
  end.

(** The marks [g] on the subject [s] delimit the texts [t]. *)
Definition agrees (s : string) (g : marks) (t : texts) : Prop :=
  ∀ n, t !! n = (λ ab, slice s ab.1 ab.2) <$> g !! n.

Lemma max_star_class c rest pos k x :
  max_star c rest pos k = Some x →
  ∃ mid rest', rest = mid +:+ rest' ∧ all_in c mid ∧
               k rest' (pos + String.length mid) = Some x.
Proof.
  revert pos. induction rest as [|a rest IH]; intros pos H; simpl in H.
  - exists EmptyString, EmptyString. by rewrite Nat.add_0_r.
  - destruct (in_class c a) eqn:Ha.
    + destruct (max_star c rest (S pos) k) as [y|] eqn:E.
      * inversion H; subst. apply IH in E as (mid & rest' & -> & Hin & Hk).
        exists (String a mid), rest'. split; [done |]. simpl. rewrite Ha.
        split; [done |]. by rewrite Nat.add_succ_r.
      * exists EmptyString, (String a rest). by rewrite Nat.add_0_r.
    + exists EmptyString, (String a rest). by rewrite Nat.add_0_r.
Qed.

(** A lazy star stops at the first place where what follows succeeds. *)
Lemma min_star_least c rest pos k x :
  min_star c rest pos k = Some x →
  ∃ mid rest', rest = mid +:+ rest' ∧ all_in c mid ∧
               k rest' (pos + String.length mid) = Some x ∧
               ∀ u v, mid = u +:+ v → v ≠ EmptyString →
                      k (v +:+ rest') (pos + String.length u) = None.
Proof.
  revert pos. induction rest as [|a rest IH]; intros pos H; simpl in H.
  - destruct (k EmptyString pos) eqn:E; [| done]. inversion H; subst.
    exists EmptyString, EmptyString. rewrite Nat.add_0_r.
    repeat split; try done. intros [|??] v; simpl; [by intros <- | done].
  - destruct (k (String a rest) pos) eqn:E.
    + inversion H; subst. exists EmptyString, (String a rest).
      rewrite Nat.add_0_r. repeat split; try done.
      intros [|??] v; simpl; [by intros <- | done].
    + destruct (in_class c a) eqn:Ha; [| done].
      apply IH in H as (mid & rest' & -> & Hin & Hk & Hleast).
      exists (String a mid), rest'. split; [done |]. simpl. rewrite Ha.
      split; [done |]. split; [by rewrite Nat.add_succ_r |].
      intros [|b u] v; simpl.
      * intros <- _. by rewrite Nat.add_0_r.
      * intros [= <- ->] Hv. rewrite <- Nat.add_succ_comm. by apply Hleast.
Qed.

Lemma agrees_insert s g t n a b :
  agrees s g t → agrees s (<[n := (a, b)]> g) (<[n := slice s a b]> t).
Proof.
  intros H m. destruct (decide (m = n)) as [-> | Hne].
  - by rewrite !lookup_insert_eq.
  - rewrite !lookup_insert_ne by done. apply H.
Qed.

(** A successful match took a text of the pattern's shape, and its marks
    delimit the texts of the groups. *)
Lemma rmatch_shape s r : ∀ rest pos g t k x,
  pos ≤ String.length s → drop_str pos s = rest → agrees s g t →
  rmatch r rest pos g k = Some x →
  ∃ mid rest' g' t',
    rest = mid +:+ rest' ∧ shape r mid t t' ∧ agrees s g' t' ∧
    k rest' (pos + String.length mid) g' = Some x.
Proof.
  induction r as [p|c|r1 IH1 r2 IH2|r IH|c|c|name r IH];
    intros rest pos g t k x Hpos Hd Ha H; simpl in H.
  - destruct (lit p rest pos) as [[rest' pos']|] eqn:E; [| done].
    apply lit_inv in E as [-> ->]. by exists p, rest', g, t.
  - destruct rest as [|a rest]; [done |]. destruct (in_class c a) eqn:Hc; [| done].
    exists (String a EmptyString), rest, g, t. simpl. rewrite Nat.add_1_r.
    repeat split; try done. exists a. by rewrite Hc.
  - destruct (IH1 _ _ _ _ _ _ Hpos Hd Ha H)
      as (m1 & rest1 & g1 & t1 & -> & Hs1 & Ha1 & H1).
    assert (pos + String.length m1 ≤ String.length s) as Hpos1.
    { pose proof (f_equal String.length Hd) as Hl.
      rewrite drop_str_length, app_length in Hl. lia. }
    destruct (IH2 _ _ _ _ _ _ Hpos1 (drop_str_of_drop _ _ _ _ Hd) Ha1 H1)
      as (m2 & rest2 & g2 & t2 & -> & Hs2 & Ha2 & H2).
    exists (m1 +:+ m2), rest2, g2, t2.
    rewrite app_assoc, app_length, Nat.add_assoc.
    split; [done |]. split; [| done]. simpl. by exists m1, m2, t1.
  - destruct (rmatch r rest pos g k) as [y|] eqn:E.
    + inversion H; subst.
      destruct (IH _ _ _ _ _ _ Hpos eq_refl Ha E)
        as (mid & rest' & g' & t' & -> & Hs & Ha' & Hk).
      exists mid, rest', g', t'. repeat split; try done. simpl. by right.
    + exists EmptyString, rest, g, t. rewrite Nat.add_0_r.
      repeat split; try done. simpl. by left.
  - apply max_star_class in H as (mid & rest' & -> & Hin & Hk).
    by exists mid, rest', g, t.
  - apply min_star_least in H as (mid & rest' & -> & Hin & Hk & _).
    by exists mid, rest', g, t.
  - destruct (IH _ _ _ _ _ _ Hpos Hd Ha H)
      as (mid & rest' & g' & t' & -> & Hs & Ha' & Hk).
    exists mid, rest', (<[name := (pos, pos + String.length mid)]> g'),
      (<[name := mid]> t').
    split; [done |]. split; [simpl; by exists t' |]. split; [| done].
    rewrite <- (slice_of_drop s mid rest' pos Hpos Hd) at 2.
    by apply agrees_insert.
Qed.


Lemma shape_seq r1 r2 mid t t' :
  shape (RSeq r1 r2) mid t t' →
  ∃ m1 m2 t1, mid = m1 +:+ m2 ∧ shape r1 m1 t t1 ∧ shape r2 m2 t1 t'.
Proof. done. Qed.

Lemma shape_lit p mid t t' : shape (RLit p) mid t t' → mid = p ∧ t' = t.
Proof. done. Qed.

(** Whitespace, possibly none. *)
Lemma shape_maybe_spaces mid t t' :
  shape maybe_spaces mid t t' → all_in CSpace mid ∧ t' = t.
Proof.
  intros [[-> ->] | (m1 & m2 & t1 & -> & [(a & -> & Ha) ->] & [Hin ->])]; [done |].
  split; [| done]. simpl. apply andb_prop_intro. by split.
Qed.

(** An optional literal. *)
Lemma shape_maybe_lit p mid t t' :
  shape (RMaybe (RLit p)) mid t t' → (mid = EmptyString ∨ mid = p) ∧ t' = t.
Proof. intros [[-> ->] | [-> ->]]; auto. Qed.

(** One of the two quote characters. *)
Definition quote (q : string) : Prop := q = "'" ∨ q = dquote.

Lemma shape_quote mid t t' : shape (RIn quotes) mid t t' → quote mid ∧ t' = t.
Proof.
  intros [(a & -> & Ha) ->]. split; [| done]. simpl in Ha.
  destruct (Ascii.eqb_spec a "'"%char) as [Ea | _]; [left; by rewrite Ea |].
  destruct (Ascii.eqb_spec a "034"%char) as [Ea | _]; [right; by rewrite Ea | done].
Qed.

(** A group that holds a run of a class. *)
Lemma shape_group_plus n c mid t t' :
  shape (RGroup n (RPlus c)) mid t t' →
  all_in c mid ∧ mid ≠ EmptyString ∧ t' = <[n := mid]> t.
Proof.
  intros (t1 & (m1 & m2 & t2 & -> & [(a & -> & Ha) ->] & [Hin ->]) & ->).
  split; [simpl; apply andb_prop_intro; by split |]. done.
Qed.

Lemma shape_group_lazy n c mid t t' :
  shape (RGroup n (RMinStar c)) mid t t' → all_in c mid ∧ t' = <[n := mid]> t.
Proof. by intros (t1 & [Hin ->] & ->). Qed.

Lemma all_in_app c u v : all_in c (u +:+ v) = all_in c u && all_in c v.
Proof. induction u as [|a u IH]; simpl; [done |]. by rewrite IH, andb_assoc. Qed.

Lemma shape_OWNER mid t t' :
  shape OWNER mid t t' → all_in CDot mid ∧ t' = <["owner" := mid]> t.
Proof.
  intros (t1 & (m1 & m2 & t2 & -> & [Hin ->] & [[-> ->] | [-> ->]]) & ->).
  - by rewrite app_nil_r.
  - split; [| done]. rewrite all_in_app. apply andb_prop_intro. by split.
Qed.

Lemma occurs_false a s :
  (∀ u v, s ≠ u +:+ String a v) → occurs a s = false.
Proof.
  induction s as [|b s IH]; intros H; simpl; [done |].
  destruct (Ascii.eqb_spec a b) as [-> | Hne].
  - by destruct (H EmptyString s).
  - simpl. apply IH. intros u v ->. by destruct (H (String b u) v).
Qed.

(** The text of a group, from the texts that agree with the marks. *)
Lemma group_agrees s re p e g t n :
  agrees s g t → group (MatchObj re s p e g) n = t !! n.
Proof.
  intros H. unfold group. simpl. rewrite (H n). by destruct (g !! n) as [[a b]|].
Qed.

Lemma agrees_empty s : agrees s ∅ ∅.
Proof. intros n. by rewrite !lookup_empty. Qed.

(** What comes out of [match_at]: the text matched has the shape of the
    pattern, up to a lazy group and a literal at its end. *)
Lemma match_at_lazy_end s re head n c lastp p m :
  (∀ rest pos g k, rmatch re rest pos g k =
     rmatch head rest pos g (λ r1 p1 g1,
     rmatch (RGroup n (RMinStar c)) r1 p1 g1 (λ r2 p2 g2,
     rmatch (RLit (String lastp EmptyString)) r2 p2 g2 k))) →
  match_at re s p = Some m →
  ∃ mid last t,
    m_start m = p ∧ m_end m ≤ String.length s ∧
    slice s p (m_end m) = mid +:+ last +:+ String lastp EmptyString ∧
    shape head mid ∅ t ∧ all_in c last ∧ occurs lastp last = false ∧
    ∀ k, group m k = <[n := last]> t !! k.
Proof.
  intros Hre. unfold match_at.
  destruct (Nat.ltb_spec (String.length s) p) as [|Hpos]; [done |].
  destruct (rmatch _ _ _ _ _) as [[e g]|] eqn:E; [| done]. intros [= <-].
  rewrite Hre in E.
  destruct (rmatch_shape s head _ p ∅ ∅ _ _ Hpos eq_refl (agrees_empty s) E)
    as (mid & rest1 & g1 & t & Hd & Hs & Ha & E1).
  simpl in E1.
  apply min_star_least in E1 as (last & rest2 & -> & Hin & Hk & Hleast).
  destruct rest2 as [|b rest2]; [done |].
  destruct (Ascii.eqb_spec lastp b) as [<- | Hne]; [| done].
  injection Hk as <- <-.
  pose proof (f_equal String.length Hd) as Hlen.
  rewrite drop_str_length, !app_length in Hlen. simpl in Hlen.
  exists mid, last, t. simpl. split; [done |]. split; [lia |].
  split; [| split; [done |]; split; [done |]; split].
  - replace (S (p + String.length mid + String.length last)) with
      (p + String.length (mid +:+ last +:+ String lastp EmptyString))
      by (rewrite !app_length; simpl; lia).
    apply (slice_of_drop s _ rest2 p Hpos). rewrite Hd. by norm_app.
  - apply occurs_false. intros u v ->.
    specialize (Hleast u (String lastp v) eq_refl). simpl in Hleast.
    rewrite Ascii.eqb_refl in Hleast. by discriminate Hleast.
  - intros k. apply group_agrees.
    pose proof (agrees_insert s g1 t n (p + String.length mid)
                  (p + String.length mid + String.length last) Ha) as Ha'.
    rewrite (slice_of_drop s last (String lastp rest2)) in Ha';
      [done | lia | by apply (drop_str_of_drop s mid)].
Qed.


(** The CONNECT pattern up to the group [slot]. *)
Definition CONNECT_HEAD : regex :=
  RCat [ RMaybe (RLit "self."); RLit "connect("; maybe_spaces; OWNER;
         RLit ","; maybe_spaces; RMaybe (RLit "QtCore."); RLit "SIGNAL(";
         maybe_spaces; RIn quotes; RGroup "signal" (RPlus CWord); RLit "(";
         RGroup "args" (RMinStar CDot); RLit ")"; RIn quotes; maybe_spaces;
         RLit "),"; maybe_spaces ].

Lemma CONNECT_RE_head rest pos g k :
  rmatch CONNECT_RE rest pos g k =
  rmatch CONNECT_HEAD rest pos g (λ r1 p1 g1,
  rmatch (RGroup "slot" (RMinStar CDot)) r1 p1 g1 (λ r2 p2 g2,
  rmatch (RLit ")") r2 p2 g2 k)).
Proof. reflexivity. Qed.

(** The text of a CONNECT match, piece by piece. *)
Lemma connect_shape_at (s : string) (p : nat) (m : match_obj) :
  match_at CONNECT_RE s p = Some m →
  ∃ self w1 owner w2 qt w3 q1 signal args q2 w4 w5 slot,
    slice s (m_start m) (m_end m) =
      self +:+ "connect(" +:+ w1 +:+ owner +:+ "," +:+ w2 +:+ qt +:+
      "SIGNAL(" +:+ w3 +:+ q1 +:+ signal +:+ "(" +:+ args +:+ ")" +:+ q2 +:+
      w4 +:+ ")," +:+ w5 +:+ slot +:+ ")" ∧
    (self = EmptyString ∨ self = "self.") ∧
    (qt = EmptyString ∨ qt = "QtCore.") ∧
    quote q1 ∧ quote q2 ∧
    all_in CSpace w1 ∧ all_in CSpace w2 ∧ all_in CSpace w3 ∧
    all_in CSpace w4 ∧ all_in CSpace w5 ∧
    all_in CWord signal ∧ signal ≠ EmptyString ∧
    all_in CDot owner ∧ all_in CDot args ∧ all_in CDot slot ∧
    occurs ")" slot = false ∧
    group m "owner" = Some owner ∧ group m "signal" = Some signal ∧
    group m "args" = Some args ∧ group m "slot" = Some slot.
Proof.
  intros Hm.
  destruct (match_at_lazy_end s CONNECT_RE CONNECT_HEAD "slot" CDot ")" p m
              CONNECT_RE_head Hm)
    as (mid & slot & t & -> & Hend & Hsl & Hs & Hin & Hocc & Hg).
  unfold CONNECT_HEAD in Hs. cbn [RCat] in Hs.
  apply shape_seq in Hs as (self & ? & ? & -> & [Hself ->]%shape_maybe_lit & Hs).
  apply shape_seq in Hs as (? & ? & ? & -> & [-> ->]%shape_lit & Hs).
  apply shape_seq in Hs as (w1 & ? & ? & -> & [Hw1 ->]%shape_maybe_spaces & Hs).
  apply shape_seq in Hs as (owner & ? & ? & -> & [Ho ->]%shape_OWNER & Hs).
  apply shape_seq in Hs as (? & ? & ? & -> & [-> ->]%shape_lit & Hs).
  apply shape_seq in Hs as (w2 & ? & ? & -> & [Hw2 ->]%shape_maybe_spaces & Hs).
  apply shape_seq in Hs as (qt & ? & ? & -> & [Hqt ->]%shape_maybe_lit & Hs).
  apply shape_seq in Hs as (? & ? & ? & -> & [-> ->]%shape_lit & Hs).
  apply shape_seq in Hs as (w3 & ? & ? & -> & [Hw3 ->]%shape_maybe_spaces & Hs).
  apply shape_seq in Hs as (q1 & ? & ? & -> & [Hq1 ->]%shape_quote & Hs).
  apply shape_seq in Hs
    as (signal & ? & ? & -> & (Hsig & Hne & ->)%shape_group_plus & Hs).
  apply shape_seq in Hs as (? & ? & ? & -> & [-> ->]%shape_lit & Hs).
  apply shape_seq in Hs as (args & ? & ? & -> & [Hargs ->]%shape_group_lazy & Hs).
  apply shape_seq in Hs as (? & ? & ? & -> & [-> ->]%shape_lit & Hs).
  apply shape_seq in Hs as (q2 & ? & ? & -> & [Hq2 ->]%shape_quote & Hs).
  apply shape_seq in Hs as (w4 & ? & ? & -> & [Hw4 ->]%shape_maybe_spaces & Hs).
  apply shape_seq in Hs as (? & w5 & ? & -> & [-> ->]%shape_lit & Hs).
  apply shape_maybe_spaces in Hs as [Hw5 ->].
  exists self, w1, owner, w2, qt, w3, q1, signal, args, q2, w4, w5, slot.
  split; [rewrite Hsl; by norm_app |].
  repeat (split; [done |]).
  rewrite !Hg. by simplify_map_eq.
Qed.


(** X1. Whatever the CONNECT pattern matches is an old-style connect
    call, piece by piece: an optional [self.], [connect(], the owner, a
    comma, an optional [QtCore.], [SIGNAL(], a quote, the signal name (a
    non-empty run of word characters), the argument types in
    parentheses, a quote, [),], the slot and a closing parenthesis, with
    optional whitespace where the pattern allows it.  The four groups
    hold the owner, the name, the argument types and the slot; none of
    them goes over a line end, and the slot has no closing parenthesis
    in it: the match ends at the first one after the slot's start. *)
Theorem connect_match_shape (s : string) (start : nat) (m : match_obj) :
  search CONNECT_RE s start = Some m →
  ∃ self w1 owner w2 qt w3 q1 signal args q2 w4 w5 slot,
    slice s (m_start m) (m_end m) =
      self +:+ "connect(" +:+ w1 +:+ owner +:+ "," +:+ w2 +:+ qt +:+
      "SIGNAL(" +:+ w3 +:+ q1 +:+ signal +:+ "(" +:+ args +:+ ")" +:+ q2 +:+
      w4 +:+ ")," +:+ w5 +:+ slot +:+ ")" ∧
    (self = EmptyString ∨ self = "self.") ∧
    (qt = EmptyString ∨ qt = "QtCore.") ∧
    quote q1 ∧ quote q2 ∧
    all_in CSpace w1 ∧ all_in CSpace w2 ∧ all_in CSpace w3 ∧
    all_in CSpace w4 ∧ all_in CSpace w5 ∧
    all_in CWord signal ∧ signal ≠ EmptyString ∧
    all_in CDot owner ∧ all_in CDot args ∧ all_in CDot slot ∧
    occurs ")" slot = false ∧
    group m "owner" = Some owner ∧ group m "signal" = Some signal ∧
    group m "args" = Some args ∧ group m "slot" = Some slot.
Proof.
  intros (p & _ & Hm & _)%search_inv. by apply (connect_shape_at s p).
Qed.

(** The EMIT pattern up to the group [args]. *)
Definition EMIT_HEAD : regex :=
  RCat [ RMaybe (RSeq (RGroup "owner" (RPlus CWord)) (RLit "."));
         RLit "emit("; maybe_spaces; RMaybe (RLit "QtCore."); RLit "SIGNAL(";
         maybe_spaces; RIn quotes; RGroup "signal" (RPlus CWord); RLit "(";
         RGroup "arg_types" (RMinStar CDot); RLit ")"; RIn quotes;
         maybe_spaces; RLit ")"; maybe_spaces;
         RMaybe (RSeq (RLit ",") maybe_spaces) ].

Lemma EMIT_RE_head rest pos g k :
  rmatch EMIT_RE rest pos g k =
  rmatch EMIT_HEAD rest pos g (λ r1 p1 g1,
  rmatch (RGroup "args" (RMinStar CDot)) r1 p1 g1 (λ r2 p2 g2,
  rmatch (RLit ")") r2 p2 g2 k)).
Proof. reflexivity. Qed.

Lemma shape_maybe_owner mid t t' :
  shape (RMaybe (RSeq (RGroup "owner" (RPlus CWord)) (RLit "."))) mid t t' →
  (mid = EmptyString ∧ t' = t) ∨
  (∃ o, mid = o +:+ "." ∧ all_in CWord o ∧ o ≠ EmptyString ∧
        t' = <["owner" := o]> t).
Proof.
  intros [? | (o & ? & ? & -> & (Ho & Hne & ->)%shape_group_plus & [-> ->])];
    [by left | right]. by exists o.
Qed.

Lemma shape_maybe_comma mid t t' :
  shape (RMaybe (RSeq (RLit ",") maybe_spaces)) mid t t' →
  (mid = EmptyString ∨ ∃ w, mid = "," +:+ w ∧ all_in CSpace w) ∧ t' = t.
Proof.
  intros [[-> ->] | (? & w & ? & -> & [-> ->] & [Hw ->]%shape_maybe_spaces)];
    [by split; [left |] |].
  split; [right; by exists w | done].
Qed.

(** The text of an EMIT match, piece by piece. *)
Lemma emit_shape_at (s : string) (p : nat) (m : match_obj) :
  match_at EMIT_RE s p = Some m →
  ∃ head w1 qt w2 q1 signal arg_types q2 w3 w4 sep args,
    slice s (m_start m) (m_end m) =
      head +:+ "emit(" +:+ w1 +:+ qt +:+ "SIGNAL(" +:+ w2 +:+ q1 +:+
      signal +:+ "(" +:+ arg_types +:+ ")" +:+ q2 +:+ w3 +:+ ")" +:+ w4 +:+
      sep +:+ args +:+ ")" ∧
    ((head = EmptyString ∧ group m "owner" = None) ∨
     (∃ o, head = o +:+ "." ∧ all_in CWord o ∧ o ≠ EmptyString ∧
           group m "owner" = Some o)) ∧
    (qt = EmptyString ∨ qt = "QtCore.") ∧
    quote q1 ∧ quote q2 ∧
    all_in CSpace w1 ∧ all_in CSpace w2 ∧ all_in CSpace w3 ∧ all_in CSpace w4 ∧
    (sep = EmptyString ∨ ∃ w, sep = "," +:+ w ∧ all_in CSpace w) ∧
    all_in CWord signal ∧ signal ≠ EmptyString ∧
    all_in CDot arg_types ∧ all_in CDot args ∧
    occurs ")" args = false ∧
    group m "signal" = Some signal ∧ group m "arg_types" = Some arg_types ∧
    group m "args" = Some args.
Proof.
  intros Hm.
  destruct (match_at_lazy_end s EMIT_RE EMIT_HEAD "args" CDot ")" p m
              EMIT_RE_head Hm)
    as (mid & args & t & -> & Hend & Hsl & Hs & Hin & Hocc & Hg).
  unfold EMIT_HEAD in Hs. cbn [RCat] in Hs.
  apply shape_seq in Hs as (head & ? & t0 & -> & Hhead%shape_maybe_owner & Hs).
  apply shape_seq in Hs as (? & ? & ? & -> & [-> ->]%shape_lit & Hs).
  apply shape_seq in Hs as (w1 & ? & ? & -> & [Hw1 ->]%shape_maybe_spaces & Hs).
  apply shape_seq in Hs as (qt & ? & ? & -> & [Hqt ->]%shape_maybe_lit & Hs).
  apply shape_seq in Hs as (? & ? & ? & -> & [-> ->]%shape_lit & Hs).
  apply shape_seq in Hs as (w2 & ? & ? & -> & [Hw2 ->]%shape_maybe_spaces & Hs).
  apply shape_seq in Hs as (q1 & ? & ? & -> & [Hq1 ->]%shape_quote & Hs).
  apply shape_seq in Hs
    as (signal & ? & ? & -> & (Hsig & Hne & ->)%shape_group_plus & Hs).
  apply shape_seq in Hs as (? & ? & ? & -> & [-> ->]%shape_lit & Hs).
  apply shape_seq in Hs
    as (arg_types & ? & ? & -> & [Htypes ->]%shape_group_lazy & Hs).
  apply shape_seq in Hs as (? & ? & ? & -> & [-> ->]%shape_lit & Hs).
  apply shape_seq in Hs as (q2 & ? & ? & -> & [Hq2 ->]%shape_quote & Hs).
  apply shape_seq in Hs as (w3 & ? & ? & -> & [Hw3 ->]%shape_maybe_spaces & Hs).
  apply shape_seq in Hs as (? & ? & ? & -> & [-> ->]%shape_lit & Hs).
  apply shape_seq in Hs as (w4 & sep & ? & -> & [Hw4 ->]%shape_maybe_spaces & Hs).
  apply shape_maybe_comma in Hs as [Hsep ->].
  exists head, w1, qt, w2, q1, signal, arg_types, q2, w3, w4, sep, args.
  split; [rewrite Hsl; by norm_app |].
  split.
  { destruct Hhead as [[-> ->] | (o & -> & Ho & Hone & ->)]; [left | right].
    - split; [done |]. rewrite Hg. by simplify_map_eq.
    - exists o. repeat (split; [done |]). rewrite Hg. by simplify_map_eq. }
  repeat (split; [done |]).
  rewrite !Hg.
  destruct Hhead as [[_ ->] | (o & _ & _ & _ & ->)]; by simplify_map_eq.
Qed.

(** X2. Whatever the EMIT pattern matches is an old-style emit call,
    piece by piece: an optional owner (a non-empty run of word
    characters) and a dot, [emit(], an optional [QtCore.], [SIGNAL(], a
    quote, the signal name, the argument types in parentheses, a quote,
    a closing parenthesis, an optional comma, the arguments and a
    closing parenthesis, with optional whitespace where the pattern
    allows it.  The group [owner] takes part exactly when the owner and
    its dot are there; the arguments have no closing parenthesis in
    them: the match ends at the first one after their start. *)
Theorem emit_match_shape (s : string) (start : nat) (m : match_obj) :
  search EMIT_RE s start = Some m →
  ∃ head w1 qt w2 q1 signal arg_types q2 w3 w4 sep args,
    slice s (m_start m) (m_end m) =
      head +:+ "emit(" +:+ w1 +:+ qt +:+ "SIGNAL(" +:+ w2 +:+ q1 +:+
      signal +:+ "(" +:+ arg_types +:+ ")" +:+ q2 +:+ w3 +:+ ")" +:+ w4 +:+
      sep +:+ args +:+ ")" ∧
    ((head = EmptyString ∧ group m "owner" = None) ∨
     (∃ o, head = o +:+ "." ∧ all_in CWord o ∧ o ≠ EmptyString ∧
           group m "owner" = Some o)) ∧
    (qt = EmptyString ∨ qt = "QtCore.") ∧
    quote q1 ∧ quote q2 ∧
    all_in CSpace w1 ∧ all_in CSpace w2 ∧ all_in CSpace w3 ∧ all_in CSpace w4 ∧
    (sep = EmptyString ∨ ∃ w, sep = "," +:+ w ∧ all_in CSpace w) ∧
    all_in CWord signal ∧ signal ≠ EmptyString ∧
    all_in CDot arg_types ∧ all_in CDot args ∧
    occurs ")" args = false ∧
    group m "signal" = Some signal ∧ group m "arg_types" = Some arg_types ∧
    group m "args" = Some args.
Proof.
  intros (p & _ & Hm & _)%search_inv. by apply (emit_shape_at s p).
Qed.

(** *** How long the output is *)

Lemma substring_length (s : string) : ∀ i n,
  i + n ≤ String.length s → String.length (String.substring i n s) = n.
Proof.
  induction s as [|c s IH]; intros [|i] [|n] H; simpl in *; try lia; try done.
  - rewrite IH; [done | lia].
  - apply IH. lia.
  - apply IH. lia.
Qed.

Lemma slice_length (s : string) (i j : nat) :
  i ≤ j → j ≤ String.length s → String.length (slice s i j) = j - i.
Proof. intros Hi Hj. unfold slice. apply substring_length. lia. Qed.

Section Lengths.

Context {A : Type}.
Variable parse_args : string → A.
Variable args_str : A → string.

(** The replacement of a CONNECT match is at least twelve characters
    shorter than the match. *)
Lemma connect_item_shorter s start m :
  search CONNECT_RE s start = Some m →
  ∃ item, _connect_repl parse_args args_str m = Ok item ∧
          String.length item + 12 ≤ m_end m - m_start m.
Proof.
  intros H. pose proof H as (p & _ & Hm & _)%search_inv.
  destruct (connect_shape_at s p m Hm)
    as (self & w1 & owner & w2 & qt & w3 & q1 & signal & args & q2 & w4 & w5 &
        slot & Hsl & _ & _ & Hq1 & Hq2 & _ & _ & _ & _ & _ & _ & _ & _ & _ & _ &
        _ & Ho & Hs & Ha & Hl).
  apply search_bounds in H as (Hre & _ & _ & Hw & He).
  rewrite (_connect_repl_eq parse_args args_str m args Hre Ha), Ho, Hs, Hl.
  eexists. split; [done |].
  apply (f_equal String.length) in Hsl.
  rewrite slice_length in Hsl by lia. rewrite Hsl. simpl.
  assert (String.length q1 = 1) as E1 by (by destruct Hq1 as [-> | ->]).
  assert (String.length q2 = 1) as E2 by (by destruct Hq2 as [-> | ->]).
  repeat (progress (rewrite ?app_length; simpl)). simpl in Hsl. lia.
Qed.


(** The replacement of an EMIT match is at least six characters shorter
    than the match, also when the missing owner is rendered as [None]. *)
Lemma emit_item_shorter s start m :
  search EMIT_RE s start = Some m →
  ∃ item, _emit_repl args_str m = Ok item ∧
          String.length item + 6 ≤ m_end m - m_start m.
Proof.
  intros H. pose proof H as (p & _ & Hm & _)%search_inv.
  destruct (emit_shape_at s p m Hm)
    as (head & w1 & qt & w2 & q1 & signal & arg_types & q2 & w3 & w4 & sep &
        args & Hsl & Hhead & _ & Hq1 & Hq2 & _ & _ & _ & _ & _ & _ & _ & _ & _ &
        _ & Hs & _ & Ha).
  apply search_bounds in H as (Hre & _ & _ & Hw & He).
  rewrite (_emit_repl_eq args_str m Hre), Hs, Ha.
  eexists. split; [done |].
  apply (f_equal String.length) in Hsl.
  rewrite slice_length in Hsl by lia. rewrite Hsl. simpl.
  assert (String.length q1 = 1) as E1 by (by destruct Hq1 as [-> | ->]).
  assert (String.length q2 = 1) as E2 by (by destruct Hq2 as [-> | ->]).
  destruct Hhead as [[-> ->] | (o & -> & _ & _ & ->)];
    repeat (progress (rewrite ?app_length; simpl)); lia.
Qed.

Lemma connect_shortens_upto n : ∀ s,
  String.length s ≤ n →
  ∃ out, process_connect parse_args args_str s = Ok out ∧
         String.length out ≤ String.length s ∧
         (∀ m, search CONNECT_RE s 0 = Some m →
               String.length out + 12 ≤ String.length s).
Proof.
  induction n as [|n IH]; intros s Hn;
    (destruct (search CONNECT_RE s 0) as [m|] eqn:E;
     [| exists s; split;
          [rewrite process_connect_eq; by apply sub_no_match | by split]]).
  - apply search_bounds in E as (_ & _ & _ & Hw & He).
    change (min_width CONNECT_RE) with 24 in Hw. lia.
  - destruct (connect_item_shorter s 0 m E) as (item & Hitem & Hlen).
    pose proof (search_bounds _ _ _ _ E) as (_ & _ & _ & Hw & He).
    change (min_width CONNECT_RE) with 24 in Hw.
    destruct (IH (drop_str (m_end m) s)) as (tail & Htail & Hshort & _).
    { rewrite drop_str_length. lia. }
    rewrite drop_str_length in Hshort.
    rewrite (process_connect_unfold parse_args args_str s m E), Hitem, Htail.
    eexists. split; [done |].
    rewrite !app_length, slice_length by lia.
    split; [lia |]. intros _ _. lia.
Qed.

Lemma emit_shortens_upto n : ∀ s,
  String.length s ≤ n →
  ∃ out, process_emit args_str s = Ok out ∧
         String.length out ≤ String.length s ∧
         (∀ m, search EMIT_RE s 0 = Some m →
               String.length out + 6 ≤ String.length s).
Proof.
  induction n as [|n IH]; intros s Hn;
    (destruct (search EMIT_RE s 0) as [m|] eqn:E;
     [| exists s; split;
          [rewrite process_emit_eq; by apply sub_no_match | by split]]).
  - apply search_bounds in E as (_ & _ & _ & Hw & He).
    change (min_width EMIT_RE) with 19 in Hw. lia.
  - destruct (emit_item_shorter s 0 m E) as (item & Hitem & Hlen).
    pose proof (search_bounds _ _ _ _ E) as (_ & _ & _ & Hw & He).
    change (min_width EMIT_RE) with 19 in Hw.
    destruct (IH (drop_str (m_end m) s)) as (tail & Htail & Hshort & _).
    { rewrite drop_str_length. lia. }
    rewrite drop_str_length in Hshort.
    rewrite (process_emit_unfold args_str s m E), Hitem, Htail.
    eexists. split; [done |].
    rewrite !app_length, slice_length by lia.
    split; [lia |]. intros _ _. lia.
Qed.

(** X3. [process_connect] rewrites exactly when the pattern has a match:
    it returns its input when there is none, and otherwise a text that
    is at least twelve characters shorter, so never the input again. *)
Theorem connect_changes_iff_match (s : string) :
  ∃ out, process_connect parse_args args_str s = Ok out ∧
    (out = s ↔ search CONNECT_RE s 0 = None) ∧
    (search CONNECT_RE s 0 ≠ None → String.length out + 12 ≤ String.length s).
Proof.
  destruct (connect_shortens_upto (String.length s) s) as (out & Hrun & _ & Hm);
    [done |].
  exists out. split; [done |]. split; [split |].
  - intros ->. destruct (search CONNECT_RE s 0) as [m|] eqn:E; [| done].
    specialize (Hm m eq_refl). lia.
  - intros E. rewrite process_connect_eq, (sub_no_match _ _ _ E) in Hrun.
    congruence.
  - destruct (search CONNECT_RE s 0) as [m|]; [intros _; by apply (Hm m) | done].
Qed.

(** X4. [process_emit] rewrites exactly when the pattern has a match: it
    returns its input when there is none, and otherwise a text that is
    at least six characters shorter, so never the input again. *)
Theorem emit_changes_iff_match (s : string) :
  ∃ out, process_emit args_str s = Ok out ∧
    (out = s ↔ search EMIT_RE s 0 = None) ∧
    (search EMIT_RE s 0 ≠ None → String.length out + 6 ≤ String.length s).
Proof.
  destruct (emit_shortens_upto (String.length s) s) as (out & Hrun & _ & Hm);
    [done |].
  exists out. split; [done |]. split; [split |].
  - intros ->. destruct (search EMIT_RE s 0) as [m|] eqn:E; [| done].
    specialize (Hm m eq_refl). lia.
  - intros E. rewrite process_emit_eq, (sub_no_match _ _ _ E) in Hrun.
    congruence.
  - destruct (search EMIT_RE s 0) as [m|]; [intros _; by apply (Hm m) | done].
Qed.

End Lengths.


(** *** What [parse_args] is for *)

Section ParseArgs.

Context {A B : Type}.
Variable parse_args : string → A.
Variable args_str : A → string.
Variable parse_args' : string → B.
Variable args_str' : B → string.

Lemma connect_same_upto n : ∀ s,
  String.length s ≤ n →
  process_connect parse_args args_str s = process_connect parse_args' args_str' s.
Proof.
  induction n as [|n IH]; intros s Hn;
    (destruct (search CONNECT_RE s 0) as [m|] eqn:E;
     [| rewrite !process_connect_eq; by rewrite !(sub_no_match _ _ _ E)]).
  - apply search_bounds in E as (_ & _ & _ & Hw & He).
    change (min_width CONNECT_RE) with 24 in Hw. lia.
  - pose proof E as (p & _ & Hm & _)%search_inv.
    destruct (connect_shape_at s p m Hm)
      as (? & ? & ? & ? & ? & ? & ? & ? & args & ? & ? & ? & ? &
          _ & _ & _ & _ & _ & _ & _ & _ & _ & _ & _ & _ & _ & _ & _ & _ & _ & _ &
          Ha & _).
    pose proof (search_bounds _ _ _ _ E) as (Hre & _ & _ & Hw & He).
    change (min_width CONNECT_RE) with 24 in Hw.
    rewrite (process_connect_unfold parse_args args_str s m E).
    rewrite (process_connect_unfold parse_args' args_str' s m E).
    rewrite (_connect_repl_eq parse_args args_str m args Hre Ha).
    rewrite (_connect_repl_eq parse_args' args_str' m args Hre Ha).
    rewrite (IH (drop_str (m_end m) s)) by (rewrite drop_str_length; lia).
    destruct (group m "owner"), (group m "signal"), (group m "slot"); done.
Qed.

(** X5. The call of [parse_args] in [_connect_repl] has no effect on
    the output: as long as [parse_args] returns, [process_connect]
    returns the same text whatever it computes from the argument types,
    and however its result would be rendered. *)
Theorem connect_ignores_parse_args (s : string) :
  process_connect parse_args args_str s = process_connect parse_args' args_str' s.
Proof. by apply (connect_same_upto (String.length s)). Qed.

End ParseArgs.


(** *** Fragments in the new style *)

(** [p in s] *)
Fixpoint contains (p s : string) : bool :=
  String.prefix p s ||
  match s with
  | EmptyString => false
  | String _ s' => contains p s'
  end.

Lemma prefix_app p v : String.prefix p (p +:+ v) = true.
Proof.
  induction p as [|a p IH]; simpl; [by destruct v |].
  destruct (ascii_dec a a); [done | congruence].
Qed.

Lemma contains_prefix p s : String.prefix p s = true → contains p s = true.
Proof. intros H. destruct s; cbn [contains]; by rewrite H. Qed.

Lemma contains_app p u v : contains p (u +:+ p +:+ v) = true.
Proof.
  induction u as [|a u IH].
  - apply contains_prefix, (prefix_app p v).
  - change (contains p (String a (u +:+ p +:+ v)) = true). cbn [contains].
    rewrite IH. apply orb_true_r.
Qed.

(** A subject is what comes before a match, the match, and what comes
    after it. *)
Lemma search_split re s start m :
  search re s start = Some m →
  s = slice s 0 (m_start m) +:+ slice s (m_start m) (m_end m) +:+
      drop_str (m_end m) s.
Proof.
  intros (p & _ & Hm & _)%search_inv.
  apply match_at_inv in Hm as (_ & _ & -> & _ & _ & <- & _).
  rewrite slice_0. by rewrite take_drop.
Qed.

Section NewStyle.

Context {A : Type}.
Variable parse_args : string → A.
Variable args_str : A → string.

(** X6. A fragment that does not contain [SIGNAL(] is left as it is by
    both passes: calls in the new style are not touched. *)
Theorem new_style_untouched (s : string) :
  contains "SIGNAL(" s = false →
  process_connect parse_args args_str s = Ok s ∧
  process_emit args_str s = Ok s.
Proof.
  intros Hs. split.
  - rewrite process_connect_eq. apply sub_no_match.
    destruct (search CONNECT_RE s 0) as [m|] eqn:E; [exfalso | done].
    pose proof (search_split _ _ _ _ E) as Hsplit.
    pose proof E as (p & _ & Hm & _)%search_inv.
    destruct (connect_shape_at s p m Hm)
      as (self & w1 & owner & w2 & qt & w3 & q1 & signal & args & q2 & w4 & w5 &
          slot & Hsl & _).
    rewrite Hsl in Hsplit.
    assert (s = (slice s 0 (m_start m) +:+ self +:+ "connect(" +:+ w1 +:+
                 owner +:+ "," +:+ w2 +:+ qt) +:+ "SIGNAL(" +:+
                (w3 +:+ q1 +:+ signal +:+ "(" +:+ args +:+ ")" +:+ q2 +:+ w4 +:+
                 ")," +:+ w5 +:+ slot +:+ ")" +:+ drop_str (m_end m) s)) as Hc.
    { rewrite Hsplit at 1. by norm_app. }
    rewrite Hc, contains_app in Hs. discriminate Hs.
  - rewrite process_emit_eq. apply sub_no_match.
    destruct (search EMIT_RE s 0) as [m|] eqn:E; [exfalso | done].
    pose proof (search_split _ _ _ _ E) as Hsplit.
    pose proof E as (p & _ & Hm & _)%search_inv.
    destruct (emit_shape_at s p m Hm)
      as (head & w1 & qt & w2 & q1 & signal & arg_types & q2 & w3 & w4 & sep &
          args & Hsl & _).
    rewrite Hsl in Hsplit.
    assert (s = (slice s 0 (m_start m) +:+ head +:+ "emit(" +:+ w1 +:+ qt) +:+
                "SIGNAL(" +:+
                (w2 +:+ q1 +:+ signal +:+ "(" +:+ arg_types +:+ ")" +:+ q2 +:+
                 w3 +:+ ")" +:+ w4 +:+ sep +:+ args +:+ ")" +:+
                 drop_str (m_end m) s)) as Hc.
    { rewrite Hsplit at 1. by norm_app. }
    rewrite Hc, contains_app in Hs. discriminate Hs.
Qed.

End NewStyle.

(** *** Instances *)

(** A call in the new style. *)
Definition new_style_example : string :=
  "obj.valueChanged.connect(self.onValueChanged)".

Lemma new_style_untouched_witness :
  contains "SIGNAL(" new_style_example = false ∧
  process_connect (λ a : string, a) (λ a, a) new_style_example =
    Ok new_style_example ∧
  process_emit (λ a : string, a) new_style_example = Ok new_style_example.
Proof.
  split; [reflexivity |].
  apply (new_style_untouched (λ a : string, a) (λ a, a) new_style_example).
  reflexivity.
Defined.

Lemma connect_match_shape_witness :
  ∃ m, search CONNECT_RE connect_example 0 = Some m ∧
  ∃ owner signal args slot,
    group m "owner" = Some owner ∧ group m "signal" = Some signal ∧
    group m "args" = Some args ∧ group m "slot" = Some slot ∧
    all_in CWord signal ∧ occurs ")" slot = false.
Proof.
  destruct (search CONNECT_RE connect_example 0) as [m|] eqn:E;
    [| vm_compute in E; discriminate E].
  exists m. split; [reflexivity |].
  destruct (connect_match_shape connect_example 0 m E)
    as (self & w1 & owner & w2 & qt & w3 & q1 & signal & args & q2 & w4 & w5 &
        slot & _ & _ & _ & _ & _ & _ & _ & _ & _ & _ & Hsig & _ & _ & _ & _ &
        Hocc & Ho & Hs & Ha & Hl).
  exists owner, signal, args, slot.
  exact (conj Ho (conj Hs (conj Ha (conj Hl (conj Hsig Hocc))))).
Defined.

Lemma emit_match_shape_witness :
  ∃ m, search EMIT_RE emit_example 0 = Some m ∧
  ∃ signal arg_types args,
    group m "signal" = Some signal ∧ group m "arg_types" = Some arg_types ∧
    group m "args" = Some args ∧
    all_in CWord signal ∧ occurs ")" args = false.
Proof.
  destruct (search EMIT_RE emit_example 0) as [m|] eqn:E;
    [| vm_compute in E; discriminate E].
  exists m. split; [reflexivity |].
  destruct (emit_match_shape emit_example 0 m E)
    as (head & w1 & qt & w2 & q1 & signal & arg_types & q2 & w3 & w4 & sep &
        args & _ & _ & _ & _ & _ & _ & _ & _ & _ & _ & Hsig & _ & _ & _ &
        Hocc & Hs & Ht & Ha).
  exists signal, arg_types, args.
  exact (conj Hs (conj Ht (conj Ha (conj Hsig Hocc)))).
Defined.

End ShapeFacts.

(** ** The argument types of a CONNECT match

    Two subjects that differ in one text only, which stands between an
    opening and a closing parenthesis and has neither a parenthesis nor
    a line end in it.  The matcher is followed on both at once: a run on
    the first and the run on the second go through corresponding
    positions, before the text or behind it, and what would stop inside
    the text fails on both. *)

Module SignatureFacts.
Import Py Re QSignal StringFacts PyFacts ReFacts QSignalFacts.

(** What a successful match has done, with the marks of the groups the
    pattern does not have left as they were. *)
Lemma rmatch_frame r : ∀ rest pos g k x,
  rmatch r rest pos g k = Some x →
  ∃ mid rest' g',
    rest = mid +:+ rest' ∧
    k rest' (pos + String.length mid) g' = Some x ∧
    min_width r ≤ String.length mid ∧
    (∀ n, n ∉ groupindex r → g' !! n = g !! n) ∧
    (∀ n, g' !! n = g !! n ∨ within pos (pos + String.length mid) g' n).
Proof.
  induction r as [p|c|r1 IH1 r2 IH2|r IH|c|c|name r IH];
    intros rest pos g k x H; simpl in H.
  - destruct (lit p rest pos) as [[rest' pos']|] eqn:E; [| done].
    apply lit_inv in E as [-> ->].
    exists p, rest', g. repeat split; auto.
  - destruct rest as [|a rest]; [done |]. destruct (in_class c a); [| done].
    exists (String a EmptyString), rest, g. simpl.
    rewrite Nat.add_1_r. repeat split; auto.
  - apply IH1 in H as (mid1 & rest1 & g1 & -> & H & Hw1 & Hf1 & Hm1).
    apply IH2 in H as (mid2 & rest2 & g2 & -> & H & Hw2 & Hf2 & Hm2).
    exists (mid1 +:+ mid2), rest2, g2.
    rewrite app_assoc, app_length, Nat.add_assoc.
    split; [done |]. split; [done |]. split; [simpl; lia |]. split.
    + intros n Hn. simpl in Hn. rewrite Hf2, Hf1; [done | set_solver..].
    + intros n. destruct (Hm2 n) as [Heq | Hin].
      * destruct (Hm1 n) as [Heq1 | Hin1]; [left; congruence |].
        right. destruct Hin1 as (a & b & ? & ? & ? & ?).
        exists a, b. rewrite Heq. repeat split; [done | lia..].
      * right. eapply within_mono; [| | done]; lia.
  - destruct (rmatch r rest pos g k) as [y|] eqn:E.
    + inversion H; subst.
      apply IH in E as (mid & rest' & g' & -> & Hk & _ & Hf & Hm).
      exists mid, rest', g'. repeat split; auto; simpl; lia.
    + exists EmptyString, rest, g. rewrite Nat.add_0_r.
      repeat split; auto.
  - apply max_star_inv in H as (mid & rest' & -> & Hk).
    exists mid, rest', g. repeat split; auto; simpl; lia.
  - apply min_star_inv in H as (mid & rest' & -> & Hk).
    exists mid, rest', g. repeat split; auto; simpl; lia.
  - apply IH in H as (mid & rest' & g' & -> & Hk & Hw & Hf & Hm).
    exists mid, rest', (<[name := (pos, pos + String.length mid)]> g').
    split; [done |]. split; [done |]. split; [done |]. split.
    + intros n Hn. simpl in Hn.
      rewrite lookup_insert_ne by set_solver. apply Hf. set_solver.
    + intros n. destruct (decide (n = name)) as [-> | Hne].
      * right. exists pos, (pos + String.length mid).
        rewrite lookup_insert_eq. repeat split; [done | lia..].
      * destruct (Hm n) as [Heq | (a & b & ? & ?)].
        -- left. by rewrite lookup_insert_ne.
        -- right. exists a, b. by rewrite lookup_insert_ne.
Qed.

(** Where a literal ends, counted from where it starts. *)
Lemma lit_from p rest pos :
  lit p rest pos = (λ rp, (rp.1, pos + rp.2)) <$> lit p rest 0.
Proof.
  rewrite <- (Nat.add_0_r pos) at 1. apply lit_shift.
Qed.

(** Strings cut at the same length. *)
Lemma app_inj_length (x x' y y' : string) :
  String.length x = String.length x' → x +:+ y = x' +:+ y' → x = x' ∧ y = y'.
Proof.
  revert x'. induction x as [|c x IH]; intros [|c' x'] Hl H; simpl in *; try done.
  injection H as -> H. injection Hl as Hl.
  destruct (IH x' Hl H) as [-> ->]. done.
Qed.

Lemma drop_str_app_le (q : nat) (X Y : string) :
  q ≤ String.length X → drop_str q (X +:+ Y) = drop_str q X +:+ Y.
Proof.
  revert X. induction q as [|q IH]; intros [|c X] H; simpl in *; try done; [lia |].
  apply IH. lia.
Qed.

Lemma substring_app_l (X Y : string) : ∀ i n,
  i + n ≤ String.length X →
  String.substring i n (X +:+ Y) = String.substring i n X.
Proof.
  induction X as [|c X IH]; intros [|i] [|n] H; simpl in *; try lia; try done.
  - by destruct Y.
  - by rewrite IH by lia.
  - apply IH. lia.
  - apply IH. lia.
Qed.

Lemma slice_app_l (X Y : string) (i j : nat) :
  j ≤ String.length X → slice (X +:+ Y) i j = slice X i j.
Proof.
  intros Hj. destruct (decide (j ≤ i)) as [Hle | Hlt].
  - by rewrite !slice_empty.
  - unfold slice. apply substring_app_l. lia.
Qed.

Lemma search_loop_first re s p m :
  match_at re s p = Some m →
  ∀ n pos, pos ≤ p → p ≤ pos + n →
    (∀ q, pos ≤ q → q < p → match_at re s q = None) →
    search_loop re s n pos = Some m.
Proof.
  intros Hm. induction n as [|n IH]; intros pos Hlo Hhi Hnone; simpl.
  - replace pos with p by lia. by rewrite Hm.
  - destruct (decide (pos = p)) as [-> | Hne]; [by rewrite Hm |].
    rewrite Hnone by lia. apply IH; [lia | lia |].
    intros q ??. apply Hnone; lia.
Qed.

(** [search] returns the match at a position that has one when no
    earlier position has. *)
Lemma search_first re s p m :
  match_at re s p = Some m →
  (∀ q, q < p → match_at re s q = None) →
  search re s 0 = Some m.
Proof.
  intros Hm Hnone. unfold search.
  apply (search_loop_first re s p m Hm); [lia | | intros; by apply Hnone].
  apply match_at_inv in Hm as (_ & _ & _ & ? & ? & _). lia.
Qed.

Section Swap.

(** Two subjects that differ in one text only: [t1] in the first,
    [t2] in the second, at the position [a], with an opening parenthesis
    before it and a closing one after it. *)
Variables (t1 t2 B : string) (a : nat).
Hypothesis Ht1 : plain t1.
Hypothesis Ht2 : plain t2.

Local Abbreviation b1 := (a + String.length t1).
Local Abbreviation b2 := (a + String.length t2).
Local Abbreviation tail1 := (t1 +:+ ")" +:+ B).
Local Abbreviation tail2 := (t2 +:+ ")" +:+ B).

(** Positions that correspond: the same position before the text, or
    the same distance behind it. *)
Definition posR (x1 x2 : nat) : Prop :=
  (x1 ≤ a ∧ x2 = x1) ∨ (∃ n, x1 = b1 + n ∧ x2 = b2 + n).

Definition spanR (p1 p2 : nat * nat) : Prop :=
  posR p1.1 p2.1 ∧ posR p1.2 p2.2.

Definition marksR (g1 g2 : marks) : Prop :=
  ∀ n, option_Forall2 spanR (g1 !! n) (g2 !! n).

Definition resR (o1 o2 : option (nat * marks)) : Prop :=
  option_Forall2 (λ x y, posR x.1 y.1 ∧ marksR x.2 y.2) o1 o2.

Lemma posR_before x : x ≤ a → posR x x.
Proof. by left. Qed.

Lemma posR_after n : posR (b1 + n) (b2 + n).
Proof. right. by exists n. Qed.

Lemma marksR_insert g1 g2 n p1 p2 :
  marksR g1 g2 → spanR p1 p2 → marksR (<[n := p1]> g1) (<[n := p2]> g2).
Proof.
  intros Hg Hp m. destruct (decide (m = n)) as [-> | Hne].
  - rewrite !lookup_insert_eq. by constructor.
  - rewrite !lookup_insert_ne by done. apply Hg.
Qed.

Lemma marksR_empty : marksR ∅ ∅.
Proof. intros n. rewrite !lookup_empty. constructor. Qed.

Lemma resR_maybe o1 o2 k1 k2 :
  resR o1 o2 → resR k1 k2 →
  resR (match o1 with Some x => Some x | None => k1 end)
       (match o2 with Some x => Some x | None => k2 end).
Proof. intros [x y H|] Hk; [by constructor | done]. Qed.

(** *** Behind the text *)

(** Two continuations give corresponding results on the same rest of
    the subject, at corresponding positions behind the text.  This goes
    through every pattern. *)
Definition SimAfter (K1 K2 : cont) : Prop :=
  ∀ rest n g1 g2, marksR g1 g2 →
    resR (K1 rest (b1 + n) g1) (K2 rest (b2 + n) g2).

Lemma max_star_after c rest : ∀ n k1 k2,
  (∀ rest' n', resR (k1 rest' (b1 + n')) (k2 rest' (b2 + n'))) →
  resR (max_star c rest (b1 + n) k1) (max_star c rest (b2 + n) k2).
Proof.
  induction rest as [|d rest IH]; intros n k1 k2 Hk; simpl; [apply Hk |].
  destruct (in_class c d); [| apply Hk].
  replace (S (b1 + n)) with (b1 + S n) by lia.
  replace (S (b2 + n)) with (b2 + S n) by lia.
  apply resR_maybe; [by apply IH | apply Hk].
Qed.

Lemma min_star_after c rest : ∀ n k1 k2,
  (∀ rest' n', resR (k1 rest' (b1 + n')) (k2 rest' (b2 + n'))) →
  resR (min_star c rest (b1 + n) k1) (min_star c rest (b2 + n) k2).
Proof.
  induction rest as [|d rest IH]; intros n k1 k2 Hk; simpl.
  - apply resR_maybe; [apply Hk | constructor].
  - apply resR_maybe; [apply Hk |].
    destruct (in_class c d); [| constructor].
    replace (S (b1 + n)) with (b1 + S n) by lia.
    replace (S (b2 + n)) with (b2 + S n) by lia.
    by apply IH.
Qed.

Lemma rmatch_after r : ∀ K1 K2,
  SimAfter K1 K2 →
  SimAfter (λ rest pos g, rmatch r rest pos g K1)
           (λ rest pos g, rmatch r rest pos g K2).
Proof.
  induction r as [p|c|r1 IH1 r2 IH2|r IH|c|c|name r IH];
    intros K1 K2 HK rest n g1 g2 Hg; simpl.
  - rewrite (lit_from p rest (b1 + n)), (lit_from p rest (b2 + n)).
    destruct (lit p rest 0) as [[rest' q]|]; simpl; [| constructor].
    specialize (HK rest' (n + q) g1 g2 Hg). by rewrite !Nat.add_assoc in HK.
  - destruct rest as [|d rest]; [constructor |].
    destruct (in_class c d); [| constructor].
    replace (S (b1 + n)) with (b1 + S n) by lia.
    replace (S (b2 + n)) with (b2 + S n) by lia.
    by apply HK.
  - apply (IH1 _ _ (IH2 _ _ HK)). done.
  - apply resR_maybe; [by apply IH | by apply HK].
  - apply max_star_after. intros rest' n'. by apply HK.
  - apply min_star_after. intros rest' n'. by apply HK.
  - apply (IH (λ rest' pos' g', K1 rest' pos' (<[name := (b1 + n, pos')]> g'))
              (λ rest' pos' g', K2 rest' pos' (<[name := (b2 + n, pos')]> g')));
      [| done].
    intros rest' n' h1 h2 Hh. apply HK. apply marksR_insert; [done |].
    split; apply posR_after.
Qed.

(** *** Before the text *)

(** The subjects from a position before the text on: the same text [U],
    the opening parenthesis, and then [t1] or [t2]. *)
Definition SimBefore (K1 K2 : cont) : Prop :=
  ∀ U pos g1 g2, pos + S (String.length U) = a → marksR g1 g2 →
    resR (K1 (U +:+ "(" +:+ tail1) pos g1) (K2 (U +:+ "(" +:+ tail2) pos g2).

(** Patterns that take no opening parenthesis. *)
Fixpoint noopen (r : regex) : bool :=
  match r with
  | RLit p => negb (occurs "(" p)
  | RIn c | RMaxStar c | RMinStar c => negb (in_class c "(")
  | RSeq r1 r2 => noopen r1 && noopen r2
  | RMaybe r | RGroup _ r => noopen r
  end.

(** A literal without an opening parenthesis stops before the one in
    front of the text. *)
Lemma lit_before p : ∀ U X pos,
  occurs "(" p = false →
  lit p (U +:+ "(" +:+ X) pos =
    match lit p U pos with
    | Some (U', pos') => Some (U' +:+ "(" +:+ X, pos')
    | None => None
    end.
Proof.
  induction p as [|c p IH]; intros U X pos Hp; cbn [lit occurs] in *; [done |].
  apply orb_false_elim in Hp as [Hc Hp].
  destruct U as [|d U].
  - change ("" +:+ "(" +:+ X) with (String "(" X).
    cbn [lit]. rewrite Ascii.eqb_sym. by rewrite Hc.
  - change (String d U +:+ "(" +:+ X) with (String d (U +:+ "(" +:+ X)).
    cbn [lit]. destruct (Ascii.eqb c d); [by apply IH | done].
Qed.

Lemma max_star_before c : ∀ U pos k1 k2,
  in_class c "(" = false →
  (∀ U' pos', pos' + S (String.length U') = a →
     resR (k1 (U' +:+ "(" +:+ tail1) pos') (k2 (U' +:+ "(" +:+ tail2) pos')) →
  pos + S (String.length U) = a →
  resR (max_star c (U +:+ "(" +:+ tail1) pos k1)
       (max_star c (U +:+ "(" +:+ tail2) pos k2).
Proof.
  induction U as [|d U IH]; intros pos k1 k2 Hc Hk Hpos; simpl.
  - rewrite Hc. by apply (Hk EmptyString).
  - destruct (in_class c d); [| by apply (Hk (String d U))].
    apply resR_maybe; [| by apply (Hk (String d U))].
    apply IH; [done | done | simpl in Hpos; lia].
Qed.

Lemma min_star_before c : ∀ U pos k1 k2,
  in_class c "(" = false →
  (∀ U' pos', pos' + S (String.length U') = a →
     resR (k1 (U' +:+ "(" +:+ tail1) pos') (k2 (U' +:+ "(" +:+ tail2) pos')) →
  pos + S (String.length U) = a →
  resR (min_star c (U +:+ "(" +:+ tail1) pos k1)
       (min_star c (U +:+ "(" +:+ tail2) pos k2).
Proof.
  induction U as [|d U IH]; intros pos k1 k2 Hc Hk Hpos; simpl.
  - apply resR_maybe; [by apply (Hk EmptyString) |]. rewrite Hc. constructor.
  - apply resR_maybe; [by apply (Hk (String d U)) |].
    destruct (in_class c d); [| constructor].
    apply IH; [done | done | simpl in Hpos; lia].
Qed.

Lemma rmatch_before r : ∀ K1 K2,
  noopen r → SimBefore K1 K2 →
  SimBefore (λ rest pos g, rmatch r rest pos g K1)
            (λ rest pos g, rmatch r rest pos g K2).
Proof.
  induction r as [p|c|r1 IH1 r2 IH2|r IH|c|c|name r IH];
    intros K1 K2 Hr HK U pos g1 g2 Hpos Hg; cbn [noopen] in Hr; cbn [rmatch].
  - assert (occurs "(" p = false) as Hp by (by destruct (occurs "(" p)).
    rewrite !lit_before by done.
    destruct (lit p U pos) as [[U' pos']|] eqn:E; [| constructor].
    apply lit_inv in E as [-> ->]. apply HK; [| done].
    rewrite app_length in Hpos. lia.
  - assert (in_class c "(" = false) as Hc by (by destruct (in_class c "(")).
    destruct U as [|d U]; simpl.
    + rewrite Hc. constructor.
    + destruct (in_class c d); [| constructor].
      apply HK; [simpl in Hpos; lia | done].
  - apply andb_prop_elim in Hr as [Hr1 Hr2].
    by apply (IH1 _ _ Hr1 (IH2 _ _ Hr2 HK)).
  - apply resR_maybe; [by apply IH | by apply HK].
  - assert (in_class c "(" = false) as Hc by (by destruct (in_class c "(")).
    apply max_star_before; [done | | done].
    intros U' pos' Hpos'. by apply HK.
  - assert (in_class c "(" = false) as Hc by (by destruct (in_class c "(")).
    apply min_star_before; [done | | done].
    intros U' pos' Hpos'. by apply HK.
  - apply (IH (λ rest' pos' g', K1 rest' pos' (<[name := (pos, pos')]> g'))
              (λ rest' pos' g', K2 rest' pos' (<[name := (pos, pos')]> g')));
      [done | | done | done].
    intros U' pos' h1 h2 Hpos' Hh. apply HK; [done |].
    apply marksR_insert; [done |]. split; apply posR_before; simpl; lia.
Qed.

(** *** At the text *)

(** Two continuations give corresponding results where the text
    starts. *)
Definition SimStart (K1 K2 : cont) : Prop :=
  ∀ g1 g2, marksR g1 g2 → resR (K1 tail1 a g1) (K2 tail2 a g2).

(** A literal that ends with an opening parenthesis stops at one of
    [U], or at the one in front of the text when [U] is the rest of
    it. *)
Lemma lit_open p0 : ∀ U X pos,
  occurs "(" p0 = false →
  lit (p0 +:+ "(") (U +:+ "(" +:+ X) pos =
    match lit (p0 +:+ "(") U pos with
    | Some (U', pos') => Some (U' +:+ "(" +:+ X, pos')
    | None => if decide (U = p0) then Some (X, pos + S (String.length p0)) else None
    end.
Proof.
  induction p0 as [|c p0 IH]; intros U X pos Hp.
  - destruct U as [|d U].
    + change (lit ("" +:+ "(") ("" +:+ "(" +:+ X) pos) with (Some (X, S pos)).
      cbn. by rewrite Nat.add_1_r.
    + change (String d U +:+ "(" +:+ X) with (String d (U +:+ "(" +:+ X)).
      change ("" +:+ "(") with "(". cbn [lit].
      destruct (Ascii.eqb "(" d); [done |]. by rewrite decide_False.
  - cbn [occurs] in Hp. apply orb_false_elim in Hp as [Hc Hp].
    change (String c p0 +:+ "(") with (String c (p0 +:+ "(")).
    destruct U as [|d U].
    + change ("" +:+ "(" +:+ X) with (String "(" X). cbn [lit].
      rewrite Ascii.eqb_sym, Hc. by rewrite decide_False.
    + change (String d U +:+ "(" +:+ X) with (String d (U +:+ "(" +:+ X)).
      cbn [lit]. destruct (Ascii.eqb_spec c d) as [<- | Hne].
      * rewrite IH by done.
        destruct (lit (p0 +:+ "(") U (S pos)) as [[U' pos']|]; [done |].
        destruct (decide (U = p0)) as [-> | Hn].
        -- rewrite decide_True by done. cbn [String.length]. f_equal. f_equal. lia.
        -- rewrite decide_False; [done |]. by intros [= ->].
      * rewrite decide_False; [done |]. by intros [= -> ->].
Qed.

Lemma rmatch_open p0 K1 K2 U pos g1 g2 :
  occurs "(" p0 = false →
  SimBefore K1 K2 → (U = p0 → SimStart K1 K2) →
  pos + S (String.length U) = a → marksR g1 g2 →
  resR (rmatch (RLit (p0 +:+ "(")) (U +:+ "(" +:+ tail1) pos g1 K1)
       (rmatch (RLit (p0 +:+ "(")) (U +:+ "(" +:+ tail2) pos g2 K2).
Proof.
  intros Hp Hb Hs Hpos Hg. cbn [rmatch]. rewrite !lit_open by done.
  destruct (lit (p0 +:+ "(") U pos) as [[U' pos']|] eqn:E.
  - apply lit_inv in E as [-> ->]. apply Hb; [| done].
    rewrite app_length in Hpos. lia.
  - destruct (decide (U = p0)) as [-> | Hne]; [| constructor].
    replace (pos + S (String.length p0)) with a by lia. by apply Hs.
Qed.

(** A continuation that fails as long as something of the text is
    left. *)
Definition Dead (k : string → nat → option (nat * marks)) : Prop :=
  ∀ t' pos, plain t' → t' ≠ EmptyString → k (t' +:+ ")" +:+ B) pos = None.

Lemma plain_cons c t' :
  plain (String c t') →
  in_class CDot c = true ∧ Ascii.eqb c "(" = false ∧ Ascii.eqb c ")" = false ∧
  plain t'.
Proof.
  cbn [plain in_class].
  intros [[[H1 H2]%andb_prop_elim H3]%andb_prop_elim H4]%andb_prop_elim.
  repeat split; try done.
  - by destruct (Ascii.eqb c "010").
  - by destruct (Ascii.eqb c "(").
  - by destruct (Ascii.eqb c ")").
Qed.

(** Over the text a star of [.] goes on to its end. *)
Lemma max_star_zone k : ∀ t' pos,
  Dead k → plain t' →
  max_star CDot (t' +:+ ")" +:+ B) pos k =
  max_star CDot (")" +:+ B) (pos + String.length t') k.
Proof.
  induction t' as [|c t' IH]; intros pos Hk Ht.
  - cbn [String.length]. by rewrite Nat.add_0_r.
  - pose proof (plain_cons _ _ Ht) as (Hc & _ & _ & Ht').
    change (String c t' +:+ ")" +:+ B) with (String c (t' +:+ ")" +:+ B)).
    cbn [max_star]. rewrite Hc, (IH (S pos) Hk Ht').
    cbn [String.length]. rewrite Nat.add_succ_comm.
    destruct (max_star CDot _ _ k); [done |].
    by apply (Hk (String c t')).
Qed.

Lemma min_star_zone k : ∀ t' pos,
  Dead k → plain t' →
  min_star CDot (t' +:+ ")" +:+ B) pos k =
  min_star CDot (")" +:+ B) (pos + String.length t') k.
Proof.
  induction t' as [|c t' IH]; intros pos Hk Ht.
  - cbn [String.length]. by rewrite Nat.add_0_r.
  - pose proof (plain_cons _ _ Ht) as (Hc & _ & _ & Ht').
    change (String c t' +:+ ")" +:+ B) with (String c (t' +:+ ")" +:+ B)).
    cbn [min_star].
    change (String c (t' +:+ ")" +:+ B)) with (String c t' +:+ ")" +:+ B).
    rewrite (Hk (String c t')) by done.
    rewrite Hc, (IH (S pos) Hk Ht').
    cbn [String.length]. by rewrite Nat.add_succ_comm.
Qed.

(** A star of [.] in front of continuations that correspond before
    the text and behind it and fail inside it: greedy or lazy, it goes
    over the text in both subjects or stops before it in both. *)
Section Cross.

Variables k1 k2 : string → nat → option (nat * marks).
Hypothesis Hbefore : ∀ U pos, pos + S (String.length U) = a →
  resR (k1 (U +:+ "(" +:+ tail1) pos) (k2 (U +:+ "(" +:+ tail2) pos).
Hypothesis Hafter : ∀ rest n, resR (k1 rest (b1 + n)) (k2 rest (b2 + n)).
Hypothesis Hdead1 : Dead k1.
Hypothesis Hdead2 : Dead k2.

Lemma max_star_start :
  resR (max_star CDot tail1 a k1) (max_star CDot tail2 a k2).
Proof.
  rewrite !max_star_zone by done.
  rewrite <- (Nat.add_0_r b1), <- (Nat.add_0_r b2).
  by apply max_star_after.
Qed.

Lemma min_star_start :
  resR (min_star CDot tail1 a k1) (min_star CDot tail2 a k2).
Proof.
  rewrite !min_star_zone by done.
  rewrite <- (Nat.add_0_r b1), <- (Nat.add_0_r b2).
  by apply min_star_after.
Qed.

Lemma max_star_cross : ∀ U pos,
  pos + S (String.length U) = a →
  resR (max_star CDot (U +:+ "(" +:+ tail1) pos k1)
       (max_star CDot (U +:+ "(" +:+ tail2) pos k2).
Proof.
  induction U as [|d U IH]; intros pos Hpos.
  - change ("" +:+ "(" +:+ tail1) with (String "(" tail1).
    change ("" +:+ "(" +:+ tail2) with (String "(" tail2).
    cbn [max_star]. change (in_class CDot "(") with true. cbv iota.
    apply resR_maybe; [| by apply (Hbefore EmptyString)].
    cbn [String.length] in Hpos. replace (S pos) with a by lia.
    apply max_star_start.
  - change (String d U +:+ "(" +:+ tail1) with (String d (U +:+ "(" +:+ tail1)).
    change (String d U +:+ "(" +:+ tail2) with (String d (U +:+ "(" +:+ tail2)).
    cbn [max_star]. cbn [String.length] in Hpos.
    destruct (in_class CDot d); [| by apply (Hbefore (String d U))].
    apply resR_maybe; [apply IH; lia | by apply (Hbefore (String d U))].
Qed.

Lemma min_star_cross : ∀ U pos,
  pos + S (String.length U) = a →
  resR (min_star CDot (U +:+ "(" +:+ tail1) pos k1)
       (min_star CDot (U +:+ "(" +:+ tail2) pos k2).
Proof.
  induction U as [|d U IH]; intros pos Hpos.
  - change ("" +:+ "(" +:+ tail1) with (String "(" tail1).
    change ("" +:+ "(" +:+ tail2) with (String "(" tail2).
    cbn [min_star]. change (in_class CDot "(") with true. cbv iota.
    apply resR_maybe; [by apply (Hbefore EmptyString) |].
    cbn [String.length] in Hpos. replace (S pos) with a by lia.
    apply min_star_start.
  - change (String d U +:+ "(" +:+ tail1) with (String d (U +:+ "(" +:+ tail1)).
    change (String d U +:+ "(" +:+ tail2) with (String d (U +:+ "(" +:+ tail2)).
    cbn [min_star]. cbn [String.length] in Hpos.
    apply resR_maybe; [by apply (Hbefore (String d U)) |].
    destruct (in_class CDot d); [| constructor].
    apply IH; lia.
Qed.

End Cross.

(** *** Patterns that cannot start inside the text *)

(** Patterns that take no closing parenthesis. *)
Fixpoint noclose (r : regex) : bool :=
  match r with
  | RLit p => negb (occurs ")" p)
  | RIn c | RMaxStar c | RMinStar c => negb (in_class c ")")
  | RSeq r1 r2 => noclose r1 && noclose r2
  | RMaybe r | RGroup _ r => noclose r
  end.

(** Literals whose first parenthesis is an opening one. *)
Fixpoint opens_lit (p : string) : bool :=
  match p with
  | EmptyString => false
  | String c p' =>
      if Ascii.eqb c "(" then true
      else if Ascii.eqb c ")" then false else opens_lit p'
  end.

(** Patterns that take an opening parenthesis before any closing
    one. *)
Fixpoint opens (r : regex) : bool :=
  match r with
  | RLit p => opens_lit p
  | RSeq r1 r2 => opens r1 || (noclose r1 && opens r2)
  | RGroup _ r => opens r
  | _ => false
  end.

Lemma lit_close p : ∀ U X pos,
  occurs ")" p = false →
  lit p (U +:+ ")" +:+ X) pos =
    match lit p U pos with
    | Some (U', pos') => Some (U' +:+ ")" +:+ X, pos')
    | None => None
    end.
Proof.
  induction p as [|c p IH]; intros U X pos Hp; cbn [lit occurs] in *; [done |].
  apply orb_false_elim in Hp as [Hc Hp].
  destruct U as [|d U].
  - change ("" +:+ ")" +:+ X) with (String ")" X).
    cbn [lit]. rewrite Ascii.eqb_sym. by rewrite Hc.
  - change (String d U +:+ ")" +:+ X) with (String d (U +:+ ")" +:+ X)).
    cbn [lit]. destruct (Ascii.eqb c d); [by apply IH | done].
Qed.

Lemma max_star_noclose c k : ∀ t' pos,
  in_class c ")" = false →
  (∀ t'' pos', plain t'' → k (t'' +:+ ")" +:+ B) pos' = None) →
  plain t' → max_star c (t' +:+ ")" +:+ B) pos k = None.
Proof.
  induction t' as [|d t' IH]; intros pos Hc Hk Ht.
  - change ("" +:+ ")" +:+ B) with (String ")" B). cbn [max_star].
    rewrite Hc. by apply (Hk EmptyString).
  - pose proof (plain_cons _ _ Ht) as (_ & _ & _ & Ht').
    change (String d t' +:+ ")" +:+ B) with (String d (t' +:+ ")" +:+ B)).
    cbn [max_star]. rewrite (IH (S pos) Hc Hk Ht').
    destruct (in_class c d); by apply (Hk (String d t')).
Qed.

Lemma min_star_noclose c k : ∀ t' pos,
  in_class c ")" = false →
  (∀ t'' pos', plain t'' → k (t'' +:+ ")" +:+ B) pos' = None) →
  plain t' → min_star c (t' +:+ ")" +:+ B) pos k = None.
Proof.
  induction t' as [|d t' IH]; intros pos Hc Hk Ht.
  - change ("" +:+ ")" +:+ B) with (String ")" B). cbn [min_star].
    change (String ")" B) with ("" +:+ ")" +:+ B).
    rewrite (Hk EmptyString) by done.
    change ("" +:+ ")" +:+ B) with (String ")" B). cbv iota. by rewrite Hc.
  - pose proof (plain_cons _ _ Ht) as (_ & _ & _ & Ht').
    change (String d t' +:+ ")" +:+ B) with (String d (t' +:+ ")" +:+ B)).
    cbn [min_star].
    change (String d (t' +:+ ")" +:+ B)) with (String d t' +:+ ")" +:+ B).
    rewrite (Hk (String d t')) by done.
    rewrite (IH (S pos) Hc Hk Ht'). by destruct (in_class c d).
Qed.

(** A pattern that takes no closing parenthesis leaves a continuation
    inside the text, or at its end. *)
Lemma noclose_dead r : ∀ k,
  noclose r →
  (∀ t' pos g, plain t' → k (t' +:+ ")" +:+ B) pos g = None) →
  ∀ t' pos g, plain t' → rmatch r (t' +:+ ")" +:+ B) pos g k = None.
Proof.
  induction r as [p|c|r1 IH1 r2 IH2|r IH|c|c|name r IH];
    intros k Hr Hk t' pos g Ht; cbn [noclose] in Hr; cbn [rmatch].
  - assert (occurs ")" p = false) as Hp by (by destruct (occurs ")" p)).
    rewrite lit_close by done.
    destruct (lit p t' pos) as [[t'' pos']|] eqn:E; [| done].
    apply lit_inv in E as [-> ->]. apply Hk.
    rewrite plain_app in Ht. by apply andb_prop_elim in Ht as [_ ?].
  - assert (in_class c ")" = false) as Hc by (by destruct (in_class c ")")).
    destruct t' as [|d t'].
    + change ("" +:+ ")" +:+ B) with (String ")" B). cbv iota. by rewrite Hc.
    + pose proof (plain_cons _ _ Ht) as (_ & _ & _ & Ht').
      change (String d t' +:+ ")" +:+ B) with (String d (t' +:+ ")" +:+ B)).
      cbv iota. destruct (in_class c d); [by apply Hk | done].
  - apply andb_prop_elim in Hr as [Hr1 Hr2].
    apply IH1; [done | | done]. intros. by apply IH2.
  - rewrite IH by done. by apply Hk.
  - assert (in_class c ")" = false) as Hc by (by destruct (in_class c ")")).
    apply max_star_noclose; [done | | done]. intros. by apply Hk.
  - assert (in_class c ")" = false) as Hc by (by destruct (in_class c ")")).
    apply min_star_noclose; [done | | done]. intros. by apply Hk.
  - apply IH; [done | | done]. intros. by apply Hk.
Qed.

Lemma lit_opens_dead p : ∀ t' X pos,
  opens_lit p → plain t' → lit p (t' +:+ ")" +:+ X) pos = None.
Proof.
  induction p as [|c p IH]; intros t' X pos Hp Ht; cbn [opens_lit] in Hp;
    [done |].
  destruct t' as [|d t'].
  - change ("" +:+ ")" +:+ X) with (String ")" X). cbn [lit].
    by destruct (Ascii.eqb_spec c ")") as [-> | Hne].
  - pose proof (plain_cons _ _ Ht) as (_ & Ho & Hc & Ht').
    change (String d t' +:+ ")" +:+ X) with (String d (t' +:+ ")" +:+ X)).
    cbn [lit]. destruct (Ascii.eqb_spec c d) as [-> | Hne]; [| done].
    rewrite Ho, Hc in Hp. by apply IH.
Qed.

(** A pattern that opens a parenthesis first fails inside the text and
    at its end: the next parenthesis there is a closing one. *)
Lemma opens_dead r : ∀ k t' pos g,
  opens r → plain t' → rmatch r (t' +:+ ")" +:+ B) pos g k = None.
Proof.
  induction r as [p|c|r1 IH1 r2 IH2|r IH|c|c|name r IH];
    intros k t' pos g Hr Ht; cbn [opens] in Hr; try done; cbn [rmatch].
  - by rewrite lit_opens_dead.
  - apply orb_prop_elim in Hr as [Hr | [Hr1 Hr2]%andb_prop_elim].
    + by apply IH1.
    + apply noclose_dead; [done | | done]. intros. by apply IH2.
  - by apply IH.
Qed.

(** What starts with a closing parenthesis fails inside the text. *)
Lemma close_dead p k g : Dead (λ r pos, rmatch (RLit (String ")" p)) r pos g k).
Proof.
  intros [|d t'] pos Ht Hne; [done |].
  pose proof (plain_cons _ _ Ht) as (_ & _ & Hc & _).
  change (String d t' +:+ ")" +:+ B) with (String d (t' +:+ ")" +:+ B)).
  cbn [rmatch lit]. rewrite Ascii.eqb_sym. by rewrite Hc.
Qed.

(** *** The CONNECT pattern on the two subjects *)

Definition Sim (K : cont) : Prop := SimBefore K K ∧ SimAfter K K.

Definition AtStart (K : cont) : Prop := SimStart K K.

Definition DeadK (K : cont) : Prop :=
  ∀ t' pos g, plain t' → t' ≠ EmptyString → K (t' +:+ ")" +:+ B) pos g = None.

Lemma sim_k0 : Sim k0.
Proof.
  split.
  - intros U pos g1 g2 Hpos Hg. constructor. split; [| done].
    apply posR_before. simpl. lia.
  - intros rest n g1 g2 Hg. constructor. split; [apply posR_after | done].
Qed.

Lemma sim_plain r K :
  noopen r → Sim K → Sim (λ rest pos g, rmatch r rest pos g K).
Proof.
  intros Hr [Hb Ha]. split; [by apply rmatch_before | by apply rmatch_after].
Qed.

(** A lazy group of [.]: from before the text it may stop before it or
    go over it, never stop inside. *)
Lemma sim_lazy n K :
  Sim K → DeadK K →
  Sim (λ rest pos g, rmatch (RGroup n (RMinStar CDot)) rest pos g K) ∧
  AtStart (λ rest pos g, rmatch (RGroup n (RMinStar CDot)) rest pos g K).
Proof.
  intros [Hb Ha] Hd. split; [split |].
  - intros U pos g1 g2 Hpos Hg. cbn [rmatch]. apply min_star_cross; [| | | | done].
    + intros U' pos' Hpos'. apply Hb; [done |].
      apply marksR_insert; [done |]. split; apply posR_before; simpl; lia.
    + intros rest n'. apply Ha. apply marksR_insert; [done |].
      split; [apply posR_before; simpl; lia | apply posR_after].
    + intros t' pos' Ht Hne. by apply Hd.
    + intros t' pos' Ht Hne. by apply Hd.
  - by apply rmatch_after.
  - intros g1 g2 Hg. cbn [rmatch]. apply min_star_start.
    + intros rest n'. apply Ha. apply marksR_insert; [done |].
      split; [by apply posR_before | apply posR_after].
    + intros t' pos' Ht Hne. by apply Hd.
    + intros t' pos' Ht Hne. by apply Hd.
Qed.

(** What follows the argument types, up to the slot. *)
Definition AFTER_HEAD : regex :=
  RCat [ RLit ")"; RIn quotes; maybe_spaces; RLit "),"; maybe_spaces ].

Definition SLOT : regex := RGroup "slot" (RMinStar CDot).

Lemma AFTER_ARGS_parts rest pos g k :
  rmatch AFTER_ARGS rest pos g k =
  rmatch AFTER_HEAD rest pos g (λ r1 p1 g1,
  rmatch SLOT r1 p1 g1 (λ r2 p2 g2,
  rmatch (RLit ")") r2 p2 g2 k)).
Proof. reflexivity. Qed.

(** From the comma behind the owner to the parenthesis that opens the
    argument types. *)
Definition BEFORE_SIGNAL : regex :=
  RCat [ RLit ","; maybe_spaces; RMaybe (RLit "QtCore.") ].

Definition NAME : regex :=
  RCat [ maybe_spaces; RIn quotes; RGroup "signal" (RPlus CWord) ].

Lemma BEFORE_ARGS_parts rest pos g k :
  rmatch BEFORE_ARGS rest pos g k =
  rmatch BEFORE_SIGNAL rest pos g (λ r1 p1 g1,
  rmatch (RLit "SIGNAL(") r1 p1 g1 (λ r2 p2 g2,
  rmatch NAME r2 p2 g2 (λ r3 p3 g3,
  rmatch (RLit "(") r3 p3 g3 k))).
Proof. reflexivity. Qed.

(** The pattern from each of its parts on, from the last to the
    first. *)
Definition K_after : cont := λ rest pos g, rmatch AFTER_ARGS rest pos g k0.
Definition K_args : cont := λ rest pos g, rmatch ARGS rest pos g K_after.
Definition K_open : cont := λ rest pos g, rmatch (RLit "(") rest pos g K_args.
Definition K_name : cont := λ rest pos g, rmatch NAME rest pos g K_open.
Definition K_signal : cont :=
  λ rest pos g, rmatch (RLit "SIGNAL(") rest pos g K_name.
Definition K_before : cont :=
  λ rest pos g, rmatch BEFORE_SIGNAL rest pos g K_signal.
Definition K_owner : cont := λ rest pos g, rmatch OWNER rest pos g K_before.
Definition K_spaces : cont :=
  λ rest pos g, rmatch maybe_spaces rest pos g K_owner.

Lemma sim_after : Sim K_after.
Proof.
  unfold K_after.
  assert (Sim (λ rest pos g, rmatch (RLit ")") rest pos g k0)) as Hend.
  { apply sim_plain; [done | apply sim_k0]. }
  destruct (sim_lazy "slot" _ Hend) as [Hslot _].
  { intros t' pos g. apply close_dead. }
  apply (sim_plain AFTER_HEAD) in Hslot; [| done].
  exact Hslot.
Qed.

Lemma dead_after : DeadK K_after.
Proof. intros t' pos g. apply (close_dead EmptyString). Qed.

Lemma sim_args : Sim K_args ∧ AtStart K_args.
Proof. apply sim_lazy; [apply sim_after | apply dead_after]. Qed.

Lemma sim_open : Sim K_open.
Proof.
  destruct sim_args as [[Hb Ha] Hs]. split.
  - intros U pos g1 g2 Hpos Hg.
    by apply (rmatch_open EmptyString K_args K_args U pos g1 g2).
  - by apply rmatch_after.
Qed.

Lemma sim_name : Sim K_name ∧ AtStart K_name.
Proof.
  split; [apply sim_plain; [done | apply sim_open] |].
  assert (∀ t' g, plain t' → K_name (t' +:+ ")" +:+ B) a g = None) as Hnone.
  { intros t' g Ht. by apply (opens_dead (RSeq NAME (RLit "(")) K_args). }
  intros g1 g2 Hg. rewrite !Hnone by done. constructor.
Qed.

Lemma sim_signal : Sim K_signal.
Proof.
  destruct sim_name as [[Hb Ha] Hs]. split.
  - intros U pos g1 g2 Hpos Hg.
    by apply (rmatch_open "SIGNAL" K_name K_name U pos g1 g2).
  - by apply rmatch_after.
Qed.

Lemma sim_before : Sim K_before.
Proof. apply sim_plain; [done | apply sim_signal]. Qed.

Lemma K_before_eq rest pos g :
  K_before rest pos g = rmatch BEFORE_ARGS rest pos g K_args.
Proof. reflexivity. Qed.

Lemma K_owner_eq rest pos g :
  K_owner rest pos g = max_star CDot rest pos (after_owner pos g).
Proof. reflexivity. Qed.

Lemma dead_after_owner start g : Dead (after_owner start g).
Proof.
  intros t' pos Ht _. unfold after_owner.
  apply noclose_dead; [done | | done].
  intros t'' pos' g' Ht''. by apply opens_dead.
Qed.

Lemma sim_owner : SimBefore K_owner K_owner.
Proof.
  destruct sim_before as [Hb Ha].
  intros U pos g1 g2 Hpos Hg. rewrite !K_owner_eq.
  apply max_star_cross; [| | apply dead_after_owner.. | done].
  - intros U' pos' Hpos'.
    apply (rmatch_before (RMaybe (RLit ">"))
             (λ r4 p4 g4, K_before r4 p4 (<["owner" := (pos, p4)]> g4))
             (λ r4 p4 g4, K_before r4 p4 (<["owner" := (pos, p4)]> g4)));
      [done | | done | done].
    intros U'' pos'' h1 h2 Hpos'' Hh. apply Hb; [done |].
    apply marksR_insert; [done |]. split; apply posR_before; simpl; lia.
  - intros rest n.
    apply (rmatch_after (RMaybe (RLit ">"))
             (λ r4 p4 g4, K_before r4 p4 (<["owner" := (pos, p4)]> g4))
             (λ r4 p4 g4, K_before r4 p4 (<["owner" := (pos, p4)]> g4)));
      [| done].
    intros rest' n' h1 h2 Hh. apply Ha.
    apply marksR_insert; [done |].
    split; [apply posR_before; simpl; lia | apply posR_after].
Qed.

Lemma sim_spaces : SimBefore K_spaces K_spaces.
Proof. apply rmatch_before; [done | apply sim_owner]. Qed.

Lemma CONNECT_RE_spaces rest pos g :
  rmatch CONNECT_RE rest pos g k0 =
  rmatch (RMaybe (RLit "self.")) rest pos g (λ r1 p1 g1,
  rmatch (RLit "connect(") r1 p1 g1 K_spaces).
Proof. reflexivity. Qed.

(** The pattern at a position before the text, as long as the call
    does not start so late that [connect(] opens the argument types. *)
Lemma connect_sim U pos :
  pos + S (String.length U) = a →
  U ≠ "connect" → U ≠ "self.connect" →
  resR (rmatch CONNECT_RE (U +:+ "(" +:+ tail1) pos ∅ k0)
       (rmatch CONNECT_RE (U +:+ "(" +:+ tail2) pos ∅ k0).
Proof.
  intros Hpos H1 H2. rewrite !CONNECT_RE_spaces.
  pose proof sim_spaces as Hb.
  cbn [rmatch]. rewrite !(lit_before "self.") by done.
  apply resR_maybe.
  - destruct (lit "self." U pos) as [[U' pos']|] eqn:E; [| constructor].
    apply lit_inv in E as [-> ->].
    apply (rmatch_open "connect" K_spaces K_spaces U'); try done.
    + intros ->. by destruct H2.
    + rewrite app_length in Hpos. simpl in *. lia.
    + apply marksR_empty.
  - apply (rmatch_open "connect" K_spaces K_spaces U); try done.
    apply marksR_empty.
Qed.

(** [match_at] at a position before the text. *)
Lemma match_at_sim (A0 : string) (q : nat) :
  a = S (String.length A0) → q + 13 ≤ String.length A0 →
  match match_at CONNECT_RE (A0 +:+ "(" +:+ tail1) q,
        match_at CONNECT_RE (A0 +:+ "(" +:+ tail2) q with
  | Some m, Some m' =>
      m' = MatchObj CONNECT_RE (A0 +:+ "(" +:+ tail2) q (m_end m') (m_regs m') ∧
      posR (m_end m) (m_end m') ∧ marksR (m_regs m) (m_regs m')
  | None, None => True
  | _, _ => False
  end.
Proof.
  intros Ha Hq. unfold match_at.
  destruct (Nat.ltb_spec (String.length (A0 +:+ "(" +:+ tail1)) q) as [Hl|_];
    [rewrite app_length in Hl; lia |].
  destruct (Nat.ltb_spec (String.length (A0 +:+ "(" +:+ tail2)) q) as [Hl|_];
    [rewrite app_length in Hl; lia |].
  rewrite !drop_str_app_le by lia. fold k0.
  assert (∀ w, 12 < String.length (drop_str q A0) →
               String.length w ≤ 12 → drop_str q A0 ≠ w) as Hlong.
  { intros w Hl Hw E. rewrite E in Hl. lia. }
  assert (12 < String.length (drop_str q A0)) as Hl
    by (rewrite drop_str_length; lia).
  destruct (connect_sim (drop_str q A0) q) as [[e1 h1] [e2 h2] [He Hh]|];
    [rewrite drop_str_length; lia | apply Hlong; simpl; lia.. | done | done].
Qed.

End Swap.

(** The CONNECT pattern around the group [args]. *)
Definition CONNECT_FRONT : regex :=
  RCat [ RMaybe (RLit "self."); RLit "connect("; maybe_spaces; OWNER;
         RLit ","; maybe_spaces; RMaybe (RLit "QtCore."); RLit "SIGNAL(";
         maybe_spaces; RIn quotes; RGroup "signal" (RPlus CWord) ].

Definition CONNECT_BACK : regex :=
  RCat [ RIn quotes; maybe_spaces; RLit "),"; maybe_spaces;
         RGroup "slot" (RMinStar CDot); RLit ")" ].

Lemma CONNECT_RE_around rest pos g k :
  rmatch CONNECT_RE rest pos g k =
  rmatch CONNECT_FRONT rest pos g (λ r1 p1 g1,
  rmatch (RLit "(") r1 p1 g1 (λ r2 p2 g2,
  rmatch ARGS r2 p2 g2 (λ r3 p3 g3,
  rmatch (RLit ")") r3 p3 g3 (λ r4 p4 g4,
  rmatch CONNECT_BACK r4 p4 g4 k)))).
Proof. reflexivity. Qed.

(** Where the marks of a CONNECT match lie: the group [args] stands
    between an opening and a closing parenthesis, the groups [owner] and
    [signal] before the first, the group [slot] behind the second. *)
Lemma connect_around s p m x y :
  match_at CONNECT_RE s p = Some m →
  m_regs m !! "args" = Some (x, y) →
  ∃ front0 types back0,
    s = front0 +:+ "(" +:+ types +:+ ")" +:+ back0 ∧
    x = S (String.length front0) ∧ y = x + String.length types ∧
    p + 18 ≤ String.length front0 ∧
    y + 5 ≤ m_end m ∧
    (∀ n x' y', n ≠ "args" → n ≠ "slot" → m_regs m !! n = Some (x', y') →
                x' ≤ y' ∧ y' < x) ∧
    (∀ x' y', m_regs m !! "slot" = Some (x', y') →
              y < x' ∧ x' ≤ y' ∧ y' ≤ m_end m).
Proof.
  unfold match_at.
  destruct (Nat.ltb_spec (String.length s) p) as [|Hp]; [done |].
  destruct (rmatch _ _ _ _ _) as [[e h]|] eqn:E; [| done].
  intros [= <-]. cbn [m_regs m_end]. intros Hargs.
  rewrite CONNECT_RE_around in E.
  apply rmatch_frame in E as (mid0 & rest0 & g0 & Hd & E & Hw0 & Hf0 & Hm0).
  change (min_width CONNECT_FRONT) with 18 in Hw0.
  cbn [rmatch] in E.
  destruct (lit "(" rest0 _) as [[rest1 pos1]|] eqn:E1; [| done].
  apply lit_inv in E1 as [-> ->].
  unfold ARGS in E. cbn [rmatch] in E.
  apply min_star_inv in E as (types & rest2 & -> & E).
  destruct (lit ")" rest2 _) as [[rest3 pos3]|] eqn:E3; [| done].
  apply lit_inv in E3 as [-> ->].
  apply rmatch_frame in E as (midt & rest' & g' & -> & E & Hwt & Hft & Hmt).
  change (min_width CONNECT_BACK) with 4 in Hwt.
  injection E as <- <-. cbn [String.length] in *.
  assert (g' !! "args" =
          Some (p + String.length mid0 + 1,
                p + String.length mid0 + 1 + String.length types)) as Ha.
  { rewrite Hft by (apply (bool_decide_unpack _); by vm_compute).
    by rewrite lookup_insert_eq. }
  rewrite Hargs in Ha. injection Ha as -> ->.
  exists (String.substring 0 p s +:+ mid0), types, (midt +:+ rest').
  assert (String.length (String.substring 0 p s) = p) as Hlen
    by (apply ShapeFacts.substring_length; lia).
  split; [| split; [| split; [| split; [| split; [| split]]]]].
  - rewrite <- (take_drop p s) at 1. rewrite Hd. by rewrite !app_assoc.
  - rewrite app_length, Hlen. lia.
  - lia.
  - rewrite app_length, Hlen. lia.
  - lia.
  - intros n x' y' Hn1 Hn2 Hn.
    rewrite Hft in Hn by (cbn; by rewrite list_elem_of_singleton).
    rewrite lookup_insert_ne in Hn by done.
    destruct (Hm0 n) as [Heq | (x0 & y0 & Hl & ? & ? & ?)].
    + rewrite Heq, lookup_empty in Hn. done.
    + rewrite Hl in Hn. injection Hn as <- <-. lia.
  - intros x' y' Hn.
    destruct (Hmt "slot") as [Heq | (x0 & y0 & Hl & ? & ? & ?)].
    + rewrite Heq, lookup_insert_ne in Hn by done.
      rewrite Hf0 in Hn by (apply (bool_decide_unpack _); by vm_compute).
      by rewrite lookup_empty in Hn.
    + rewrite Hl in Hn. injection Hn as <- <-. lia.
Qed.


Lemma posR_low t1 t2 a x1 x2 : posR t1 t2 a x1 x2 → x1 < a → x2 = x1.
Proof. intros [[_ ->] | (n & -> & ->)] Hlt; [done | lia]. Qed.

Lemma posR_high t1 t2 a x1 x2 :
  posR t1 t2 a x1 x2 → a < x1 →
  ∃ n, x1 = a + String.length t1 + n ∧ x2 = a + String.length t2 + n.
Proof. intros [[Hle ->] | (n & -> & ->)] Hlt; [lia | by exists n]. Qed.

Section Signature.

Context {T : Type}.
Variable parse_args : string → T.
Variable args_str : T → string.


End Signature.


(** The round-trip fragment, cut around the argument types. *)
Definition call_front : string :=
  "self.connect(obj, QtCore.SIGNAL(" +:+ dquote +:+ "valueChanged(".

Definition call_back : string :=
  ")" +:+ dquote +:+ "), self.onValueChanged)".


End SignatureFacts.

(** ** The store, operation by operation *)

Module StoreFacts.
Import General GeneralFacts.

Section Store.

Variable __supports_color : bool.

(** The store after [clean]'s line has been printed. *)
Definition printed (line : string) (σ : state) : state :=
  State (heap σ) (AliasDict σ) (stdout σ ++ [line]).

(** [clean], step by step: the line is printed, then each of the five
    names is bound to a set object the store did not have. *)
Lemma clean_run σ :
  ∃ l1 l2 l3 l4 l5,
    clean __supports_color σ =
      Ok ((), renew "errors" l5 (renew "warnings" l4 (renew "used" l3
               (renew "root_aliases" l2 (renew "bindings" l1
                 (printed (_color __supports_color 31
                             "Cleaning the global AliasDict") σ)))))) ∧
    heap σ !! l1 = None ∧ heap σ !! l2 = None ∧ heap σ !! l3 = None ∧
    heap σ !! l4 = None ∧ heap σ !! l5 = None ∧
    l1 ≠ l2 ∧ l1 ≠ l3 ∧ l1 ≠ l4 ∧ l1 ≠ l5 ∧ l2 ≠ l3 ∧ l2 ≠ l4 ∧ l2 ≠ l5 ∧
    l3 ≠ l4 ∧ l3 ≠ l5 ∧ l4 ≠ l5.
Proof.
  unfold clean.
  rewrite (bind_run _ _ _ _ _ (eq_refl : print _ σ = Ok ((), printed _ σ))).
  set (σ0 := printed _ σ).
  destruct (renew_step "bindings"
    (new_set ≫= λ l, setitem "root_aliases" l ≫= λ _,
     new_set ≫= λ l, setitem "used" l ≫= λ _,
     new_set ≫= λ l, setitem "warnings" l ≫= λ _,
     new_set ≫= λ l, setitem "errors" l) σ0) as (l1 & F1 & ->).
  set (σ1 := renew _ _ σ0) in *.
  destruct (renew_step "root_aliases"
    (new_set ≫= λ l, setitem "used" l ≫= λ _,
     new_set ≫= λ l, setitem "warnings" l ≫= λ _,
     new_set ≫= λ l, setitem "errors" l) σ1) as (l2 & F2 & ->).
  set (σ2 := renew _ _ σ1) in *.
  destruct (renew_step "used"
    (new_set ≫= λ l, setitem "warnings" l ≫= λ _,
     new_set ≫= λ l, setitem "errors" l) σ2) as (l3 & F3 & ->).
  set (σ3 := renew _ _ σ2) in *.
  destruct (renew_step "warnings"
    (new_set ≫= λ l, setitem "errors" l) σ3) as (l4 & F4 & ->).
  set (σ4 := renew _ _ σ3) in *.
  destruct (renew_last "errors" σ4) as (l5 & F5 & ->).
  exists l1, l2, l3, l4, l5. split; [done |].
  subst σ4 σ3 σ2 σ1 σ0. simpl in *.
  repeat match goal with
  | H : <[_ := _]> _ !! _ = None |- _ =>
      apply lookup_insert_None in H as [H ?]
  end.
  repeat split; done.
Qed.


(** X7. [clean] binds, it does not clear.  It returns on every store;
    every object the store had is left as it was, so a set that was
    taken from [AliasDict] before the call still has its elements; each
    of the five names is bound to a new, empty set object, different
    from every object the store had; any other key of the dictionary is
    kept; and exactly one line is printed. *)
Theorem clean_rebinds (σ : state) :
  ∃ σ', clean __supports_color σ = Ok ((), σ') ∧
    (∀ l o, heap σ !! l = Some o → heap σ' !! l = Some o) ∧
    (∀ name, name ∈ names →
       ∃ l, AliasDict σ' !! name = Some l ∧ heap σ !! l = None ∧
            heap σ' !! l = Some (OSet ∅)) ∧
    (∀ key, key ∉ names → AliasDict σ' !! key = AliasDict σ !! key) ∧
    stdout σ' =
      stdout σ ++ [_color __supports_color 31 "Cleaning the global AliasDict"].
Proof.
  destruct (clean_run σ) as (l1 & l2 & l3 & l4 & l5 & Hrun & F1 & F2 & F3 & F4 &
    F5 & N12 & N13 & N14 & N15 & N23 & N24 & N25 & N34 & N35 & N45).
  eexists. split; [exact Hrun |]. simpl. split; [| split; [| split; [| done]]].
  - intros l o Hl.
    rewrite !lookup_insert_ne by congruence. done.
  - intros name Hn. unfold names in Hn.
    repeat (apply elem_of_cons in Hn as [-> | Hn]);
      [exists l1 | exists l2 | exists l3 | exists l4 | exists l5
      | by apply elem_of_nil in Hn];
      (split; [rewrite ?lookup_insert_ne by done; apply lookup_insert_eq |];
       split; [done |]);
      rewrite ?lookup_insert_ne by congruence; apply lookup_insert_eq.
  - intros key Hk. unfold names in Hk.
    rewrite !lookup_insert_ne; [done | intros <-; apply Hk; repeat constructor..].
Qed.

Lemma add_inv name x σ σ' :
  add name x σ = Ok ((), σ') →
  ∃ l X, AliasDict σ !! name = Some l ∧ heap σ !! l = Some (OSet X) ∧
         σ' = put l (OSet ({[x]} ∪ X)) σ.
Proof.
  unfold add, getitem, set_add, mbind, M_bind.
  destruct (AliasDict σ !! name) as [l|]; [| done].
  destruct (heap σ !! l) as [[X|]|] eqn:E; try done.
  intros [= <-]. by exists l, X.
Qed.

Lemma add_run name x σ l X :
  AliasDict σ !! name = Some l → heap σ !! l = Some (OSet X) →
  add name x σ = Ok ((), put l (OSet ({[x]} ∪ X)) σ).
Proof.
  intros Hd Hh. unfold add, getitem, mbind, M_bind. rewrite Hd.
  by apply set_add_spec.
Qed.

Lemma ErrorClass_inv node reason σ self σ' :
  ErrorClass node reason σ = Ok (self, σ') →
  ∃ bbox le E,
    absolute_bounding_box node = Some bbox ∧
    heap σ !! self = None ∧
    AliasDict σ !! "errors" = Some le ∧ heap σ !! le = Some (OSet E) ∧
    σ' = put le (OSet ({[ERef self]} ∪ E))
           (put self (OError (record_of bbox reason)) σ).
Proof.
  unfold ErrorClass.
  destruct (absolute_bounding_box node) as [bbox|] eqn:Hbox.
  2:{ unfold get_bounding_box, mbind, M_bind. by rewrite Hbox. }
  rewrite (bind_run _ _ σ bbox σ) by (unfold get_bounding_box; by rewrite Hbox).
  fold (record_of bbox reason).
  destruct (alloc_spec (OError (record_of bbox reason)) σ)
    as (l & Hl & Ealloc).
  rewrite (bind_run _ _ _ _ _ Ealloc).
  unfold getitem, set_add, mbind, M_bind. simpl.
  destruct (AliasDict σ !! "errors") as [le|] eqn:Hd; [| done].
  simpl. destruct (decide (le = l)) as [-> | Hne].
  { rewrite lookup_insert_eq. done. }
  rewrite lookup_insert_ne by done.
  destruct (heap σ !! le) as [[E|]|] eqn:Hh; try done.
  intros [= <- <-]. by exists bbox, le, E.
Qed.

(** The dictionary itself changes under [clean] only. *)
Lemma reachable_dom σ :
  reachable __supports_color σ → dom (AliasDict σ) = list_to_set names.
Proof.
  induction 1 as [|σ σ' _ IH Hc|σ σ' name x _ IH Ha|σ σ' node reason self _ IH He].
  - vm_compute. reflexivity.
  - destruct (clean_run σ) as (l1 & l2 & l3 & l4 & l5 & Hrun & _).
    rewrite Hrun in Hc. injection Hc as <-. simpl.
    rewrite !dom_insert_L, IH. set_solver.
  - apply add_inv in Ha as (l & X & _ & _ & ->). done.
  - apply ErrorClass_inv in He as (bbox & le & E & _ & _ & _ & _ & ->). done.
Qed.

(** X8. In every store the module reaches, the dictionary has exactly
    the five keys [bindings], [root_aliases], [used], [warnings] and
    [errors]; each is bound to a set object that is there, and no two
    of them to the same one. *)
Theorem registry_invariant (σ : state) :
  reachable __supports_color σ →
  (∀ key, is_Some (AliasDict σ !! key) ↔ key ∈ names) ∧
  (∀ name, name ∈ names →
     ∃ l X, AliasDict σ !! name = Some l ∧ heap σ !! l = Some (OSet X)) ∧
  (∀ n1 n2 l,
     AliasDict σ !! n1 = Some l → AliasDict σ !! n2 = Some l → n1 = n2).
Proof.
  intros Hr. pose proof (reachable_dom σ Hr) as Hdom.
  destruct (reachable_layout __supports_color σ Hr) as [Hs Hi].
  assert (∀ key, is_Some (AliasDict σ !! key) ↔ key ∈ names) as Hkeys.
  { intros key. rewrite <- elem_of_dom, Hdom. apply elem_of_list_to_set. }
  split; [done |]. split; [done |].
  intros n1 n2 l H1 H2. apply (Hi n1 n2 l); try done; apply Hkeys; by eexists.
Qed.

(** X9. In every store the module reaches, an [add] under one of the
    five names returns, and an [add] under any other name raises
    [KeyError] with that name. *)
Theorem add_known_names (σ : state) (name : string) (x : elem) :
  reachable __supports_color σ →
  (name ∈ names → ∃ σ', add name x σ = Ok ((), σ')) ∧
  (name ∉ names → add name x σ = Raise (KeyError name)).
Proof.
  intros Hr. split; intros Hn.
  - destruct (reachable_layout __supports_color σ Hr) as [Hs _].
    destruct (Hs name Hn) as (l & X & Hd & Hh).
    eexists. by apply (add_run name x σ l X).
  - assert (AliasDict σ !! name = None) as Hd.
    { apply not_elem_of_dom. rewrite (reachable_dom σ Hr).
      by rewrite elem_of_list_to_set. }
    unfold add, getitem, mbind, M_bind. by rewrite Hd.
Qed.

(** X10. [ErrorClass] touches the set of errors and nothing else: when
    the constructor returns in a store the module has reached, the sets
    under the other four names hold what they held, every instance made
    before has its attributes unchanged, the dictionary is the same and
    nothing is printed. *)
Theorem ErrorClass_frame (σ σ' : state) (node : node) (reason : string)
    (self : loc) :
  reachable __supports_color σ →
  ErrorClass node reason σ = Ok (self, σ') →
  (∀ name, name ∈ names → name ≠ "errors" →
     contents σ' name = contents σ name) ∧
  (∀ l r, heap σ !! l = Some (OError r) → heap σ' !! l = Some (OError r)) ∧
  AliasDict σ' = AliasDict σ ∧ stdout σ' = stdout σ.
Proof.
  intros [Hs Hi]%reachable_layout
    (bbox & le & E & _ & Hself & Hd & Hh & ->)%ErrorClass_inv.
  split; [| split; [| done]].
  - intros name Hn Hne. destruct (Hs name Hn) as (l0 & X & Hd0 & Hh0).
    unfold contents. simpl. rewrite Hd0, Hh0.
    rewrite !lookup_insert_ne, Hh0; [done | congruence |].
    intros <-. apply Hne. apply (Hi name "errors" le); try done.
    unfold names. repeat constructor.
  - intros l r Hl. simpl. rewrite !lookup_insert_ne; [done | congruence..].
Qed.

(** X11. Errors are told apart by identity, not by what they say: two
    calls of [ErrorClass] with the same node and the same reason give
    two different instances with the same attributes, and the set of
    errors gains both. *)
Theorem ErrorClass_twice (σ : state) (node : node) (bbox : bounding_box)
    (reason : string) :
  reachable __supports_color σ →
  absolute_bounding_box node = Some bbox →
  ∃ self1 σ1 self2 σ2 E r,
    ErrorClass node reason σ = Ok (self1, σ1) ∧
    ErrorClass node reason σ1 = Ok (self2, σ2) ∧
    self1 ≠ self2 ∧
    heap σ2 !! self1 = Some (OError r) ∧ heap σ2 !! self2 = Some (OError r) ∧
    contents σ "errors" = Some E ∧
    contents σ2 "errors" = Some ({[ERef self2; ERef self1]} ∪ E).
Proof.
  intros Hr Hbox.
  destruct (ErrorClass_spec names σ node bbox reason
              (reachable_layout __supports_color σ Hr))
    as (self1 & σ1 & le & E & Hrun1 & Hfresh1 & [Hd Hh] & Hσ1);
    [unfold names; repeat constructor | done |].
  pose proof (reach_error __supports_color σ σ1 node reason self1 Hr Hrun1) as Hr1.
  destruct (ErrorClass_spec names σ1 node bbox reason
              (reachable_layout __supports_color σ1 Hr1))
    as (self2 & σ2 & le' & E' & Hrun2 & Hfresh2 & [Hd' Hh'] & Hσ2);
    [unfold names; repeat constructor | done |].
  subst σ1. simpl in Hd', Hh', Hfresh2.
  rewrite Hd in Hd'. injection Hd' as <-.
  rewrite lookup_insert_eq in Hh'. injection Hh' as <-.
  assert (self1 ≠ le) as N1 by congruence.
  assert (self2 ≠ le) as N2 by (intros ->; by rewrite lookup_insert_eq in Hfresh2).
  assert (self1 ≠ self2) as N12.
  { intros ->. by rewrite lookup_insert_ne, lookup_insert_eq in Hfresh2. }
  eexists self1, _, self2, σ2, E, (record_of bbox reason). subst σ2.
  split; [done |]. split; [done |]. split; [done |]. simpl.
  split; [by rewrite !lookup_insert_ne, lookup_insert_eq by done |].
  split; [by rewrite lookup_insert_ne, lookup_insert_eq by done |].
  split; [by apply (slot_contents _ _ le) |].
  unfold contents. simpl. rewrite Hd, lookup_insert_eq.
  f_equal. set_solver.
Qed.

End Store.

(** X12. Adding is idempotent and two adds commute, whatever the names
    share: an [add] that has returned leaves the store as it is when it
    is made again, and two adds that return in one order return in the
    other, with the same store. *)
Theorem add_idempotent_commutes (σ : state) (n1 n2 : string) (x y : elem) :
  (∀ σ1, add n1 x σ = Ok ((), σ1) → add n1 x σ1 = Ok ((), σ1)) ∧
  (∀ σ1 σ2, add n1 x σ = Ok ((), σ1) → add n2 y σ1 = Ok ((), σ2) →
     ∃ σ1', add n2 y σ = Ok ((), σ1') ∧ add n1 x σ1' = Ok ((), σ2)).
Proof.
  split.
  - intros σ1 (l & X & Hd & Hh & ->)%add_inv.
    rewrite (add_run n1 x _ l ({[x]} ∪ X)); [| done | apply lookup_insert_eq].
    unfold put. simpl. rewrite insert_insert_eq.
    by replace ({[x]} ∪ ({[x]} ∪ X)) with ({[x]} ∪ X) by set_solver.
  - intros σ1 σ2 (l1 & X & Hd1 & Hh1 & ->)%add_inv
      (l2 & Y & Hd2 & Hh2 & ->)%add_inv.
    simpl in Hd2, Hh2. destruct (decide (l2 = l1)) as [-> | Hne].
    + rewrite lookup_insert_eq in Hh2. injection Hh2 as <-.
      eexists. split; [by apply (add_run n2 y σ l1 X) |].
      rewrite (add_run n1 x _ l1 ({[y]} ∪ X)); [| done | apply lookup_insert_eq].
      unfold put. simpl. rewrite !insert_insert_eq.
      by replace ({[x]} ∪ ({[y]} ∪ X)) with ({[y]} ∪ ({[x]} ∪ X)) by set_solver.
    + rewrite lookup_insert_ne in Hh2 by done.
      eexists. split; [by apply (add_run n2 y σ l2 Y) |].
      rewrite (add_run n1 x _ l1 X);
        [| done | simpl; by rewrite lookup_insert_ne].
      unfold put. simpl. by rewrite insert_insert_ne.
Qed.


(** *** Instances *)

Lemma registry_invariant_witness :
  reachable true initial_state ∧
  (∀ key, is_Some (AliasDict initial_state !! key) ↔ key ∈ names) ∧
  (∀ name, name ∈ names →
     ∃ l X, AliasDict initial_state !! name = Some l ∧
            heap initial_state !! l = Some (OSet X)) ∧
  (∀ n1 n2 l,
     AliasDict initial_state !! n1 = Some l →
     AliasDict initial_state !! n2 = Some l → n1 = n2).
Proof.
  split; [apply reach_init |].
  apply (registry_invariant true initial_state), reach_init.
Defined.

Lemma add_known_names_witness :
  reachable true initial_state ∧
  (∃ σ', add "used" (EStr "QtGui") initial_state = Ok ((), σ')) ∧
  add "aliases" (EStr "QtGui") initial_state = Raise (KeyError "aliases").
Proof.
  split; [apply reach_init |].
  split.
  - apply (add_known_names true initial_state "used" (EStr "QtGui"));
      [apply reach_init | unfold names; repeat constructor].
  - apply (add_known_names true initial_state "aliases" (EStr "QtGui"));
      [apply reach_init |].
    unfold names. intros H.
    repeat (apply elem_of_cons in H as [H | H]; [discriminate H |]).
    by apply elem_of_nil in H.
Defined.

Lemma ErrorClass_frame_witness :
  ∃ self σ',
    ErrorClass span_3_5 "unsupported call" initial_state = Ok (self, σ') ∧
    (∀ name, name ∈ names → name ≠ "errors" →
       contents σ' name = contents initial_state name) ∧
    (∀ l r, heap initial_state !! l = Some (OError r) →
            heap σ' !! l = Some (OError r)) ∧
    AliasDict σ' = AliasDict initial_state ∧ stdout σ' = stdout initial_state.
Proof.
  destruct (ErrorClass span_3_5 "unsupported call" initial_state)
    as [[self σ']|e] eqn:E; [| vm_compute in E; discriminate E].
  exists self, σ'. split; [reflexivity |].
  apply (ErrorClass_frame true initial_state σ' span_3_5 "unsupported call" self);
    [apply reach_init | exact E].
Defined.

Lemma ErrorClass_twice_witness :
  reachable true initial_state ∧
  absolute_bounding_box span_3_5 = Some box_3_5 ∧
  ∃ self1 σ1 self2 σ2 E r,
    ErrorClass span_3_5 "unsupported call" initial_state = Ok (self1, σ1) ∧
    ErrorClass span_3_5 "unsupported call" σ1 = Ok (self2, σ2) ∧
    self1 ≠ self2 ∧
    heap σ2 !! self1 = Some (OError r) ∧ heap σ2 !! self2 = Some (OError r) ∧
    contents initial_state "errors" = Some E ∧
    contents σ2 "errors" = Some ({[ERef self2; ERef self1]} ∪ E).
Proof.
  split; [apply reach_init |]. split; [reflexivity |].
  apply (ErrorClass_twice true initial_state span_3_5 box_3_5
           "unsupported call"); [apply reach_init | reflexivity].
Defined.

End StoreFacts.

(** ** [merge_dict], key by key *)

Module MergeFacts.
Import General GeneralFacts.

(** A second round on a key finds the copies as the first one left
    them, and gives the same result. *)
Lemma merge_values_again l r l' r' o :
  merge_values l r = Ok (l', r', o) →
  merge_values (Some l') (Some r') = Ok (l', r', o).
Proof.
  destruct l as [[| |a|X|l0]|], r as [[| |b|Y|r0]|]; simpl; try done;
    intros [= <- <- <-]; reflexivity.
Qed.

(** What a round that returns has done. *)
Lemma merge_key_inv (l r o l1 r1 o1 : gmap string pyval) key :
  merge_key (l, r, o) key = Ok (l1, r1, o1) →
  ∃ l' r' ov,
    merge_values (l !! key) (r !! key) = Ok (l', r', ov) ∧
    l1 = <[key := l']> l ∧ r1 = <[key := r']> r ∧
    o1 = match ov with Some v => <[key := v]> o | None => o end.
Proof.
  intros H.
  destruct (merge_values (l !! key) (r !! key)) as [[[l' r'] ov]|e] eqn:E.
  - rewrite (merge_key_values l r o key l' r' ov E) in H.
    injection H as <- <- <-. by exists l', r', ov.
  - exfalso. revert H E.
    unfold merge_key, merge_values, dict_get, mbind, res_bind.
    destruct (r !! key) as [rv|] eqn:Er.
    + rewrite decide_False by (rewrite not_elem_of_dom, Er; by intros [=]).
      destruct (l !! key) as [lv|] eqn:El.
      * rewrite decide_False by (rewrite not_elem_of_dom, El; by intros [=]).
        rewrite El. destruct lv as [| |a|X|]; try done; rewrite ?Er.
        -- by destruct (__add__ a rv).
        -- by destruct (union X rv).
      * rewrite decide_True by (by rewrite not_elem_of_dom).
        rewrite Er. destruct (zero_of rv) as [z|]; [| done].
        rewrite lookup_insert_eq.
        destruct z as [| |a|X|]; try done; rewrite ?Er.
        -- by destruct (__add__ a rv).
        -- by destruct (union X rv).
    + rewrite decide_True by (by rewrite not_elem_of_dom).
      destruct (l !! key) as [lv|] eqn:El; [| done].
      destruct (zero_of lv) as [z|]; [| done].
      rewrite decide_False by (rewrite not_elem_of_dom, El; by intros [=]).
      rewrite El. destruct lv as [| |a|X|]; try done; rewrite ?lookup_insert_eq.
      * by destruct (__add__ a z).
      * by destruct (union X z).
Qed.

Section Loop.

Variables lhs rhs : gmap string pyval.

(** The state of the loop once the keys of [P] have been through it:
    at each of them the copies and the result hold what one round on
    the entries of [lhs] and [rhs] gives; everywhere else nothing has
    changed. *)
Definition tracks (P : gset string)
    (st : gmap string pyval * gmap string pyval * gmap string pyval) : Prop :=
  ∀ k,
    if decide (k ∈ P) then
      ∃ l' r' ov, merge_values (lhs !! k) (rhs !! k) = Ok (l', r', ov) ∧
                  st.1.1 !! k = Some l' ∧ st.1.2 !! k = Some r' ∧ st.2 !! k = ov
    else
      st.1.1 !! k = lhs !! k ∧ st.1.2 !! k = rhs !! k ∧ st.2 !! k = None.

Lemma tracks_start : tracks ∅ (lhs, rhs, ∅).
Proof. intros k. rewrite decide_False by set_solver. done. Qed.

(** One round, seen from the entries of [lhs] and [rhs]. *)
Lemma tracks_values P st key :
  tracks P st →
  ∀ l' r' ov,
    merge_values (st.1.1 !! key) (st.1.2 !! key) = Ok (l', r', ov) ↔
    merge_values (lhs !! key) (rhs !! key) = Ok (l', r', ov).
Proof.
  intros Hinv l' r' ov. specialize (Hinv key).
  destruct (decide (key ∈ P)).
  - destruct Hinv as (l0 & r0 & o0 & Hv & -> & -> & _).
    rewrite Hv, (merge_values_again _ _ _ _ _ Hv). done.
  - by destruct Hinv as (-> & -> & _).
Qed.

Lemma tracks_step P st key l' r' ov :
  tracks P st →
  merge_values (lhs !! key) (rhs !! key) = Ok (l', r', ov) →
  tracks ({[key]} ∪ P)
    (<[key := l']> st.1.1, <[key := r']> st.1.2,
     match ov with Some v => <[key := v]> st.2 | None => st.2 end).
Proof.
  intros Hinv Hv k. simpl. destruct (decide (k = key)) as [-> | Hne].
  - rewrite decide_True by set_solver. exists l', r', ov.
    rewrite !lookup_insert_eq. repeat split; try done.
    destruct ov as [v|]; [by rewrite lookup_insert_eq |].
    specialize (Hinv key). destruct (decide (key ∈ P)).
    + destruct Hinv as (l0 & r0 & o0 & Hv0 & _ & _ & Ho). congruence.
    + by destruct Hinv as (_ & _ & ?).
  - specialize (Hinv k). rewrite !lookup_insert_ne by done.
    assert (match ov with Some v => <[key := v]> st.2 | None => st.2 end !! k
            = st.2 !! k) as ->.
    { destruct ov; [by rewrite lookup_insert_ne | done]. }
    destruct (decide (k ∈ P)).
    + by rewrite decide_True by set_solver.
    + by rewrite decide_False by set_solver.
Qed.

Lemma merge_loop_tracks keys : ∀ P st st',
  tracks P st → merge_loop keys st = Ok st' →
  tracks (list_to_set keys ∪ P) st'.
Proof.
  induction keys as [|key keys IH]; intros P st st' Hinv H; simpl in H.
  - injection H as <-. by rewrite list_to_set_nil, union_empty_l_L.
  - apply PyFacts.bind_returns in H as ([[l1 r1] o1] & E & H).
    destruct st as [[l r] o].
    apply merge_key_inv in E as (l' & r' & ov & Hv & -> & -> & ->).
    apply (tracks_values P _ key Hinv) in Hv.
    pose proof (tracks_step P _ key l' r' ov Hinv Hv) as Hinv1.
    replace (list_to_set (key :: keys) ∪ P)
      with (list_to_set keys ∪ ({[key]} ∪ P) : gset string) by set_solver.
    by apply (IH _ _ _ Hinv1).
Qed.

Lemma merge_loop_returns keys : ∀ P st,
  tracks P st →
  (∀ k, k ∈ keys → returns (merge_values (lhs !! k) (rhs !! k))) →
  returns (merge_loop keys st).
Proof.
  induction keys as [|key keys IH]; intros P st Hinv Hk; simpl; [by eexists |].
  destruct (Hk key) as [[[l' r'] ov] Hv]; [by left |].
  destruct st as [[l r] o].
  pose proof (proj2 (tracks_values P _ key Hinv l' r' ov) Hv) as Hv'.
  rewrite (merge_key_values l r o key l' r' ov Hv'). simpl.
  apply (IH ({[key]} ∪ P)).
  - by apply (tracks_step P (l, r, o) key).
  - intros k Hin. apply Hk. by right.
Qed.

End Loop.

(** [merge_dict] key by key: it returns exactly when one round returns
    on each of the keys it runs over, and the result then holds, for
    each of them, what that round gives, and nothing else. *)
Lemma merge_dict_by_key lhs rhs keys keys_both out :
  merge_dict lhs rhs keys keys_both = Ok out ↔
  (∀ k, k ∈ selected_keys lhs rhs keys keys_both →
        returns (merge_values (lhs !! k) (rhs !! k))) ∧
  (∀ k, if decide (k ∈ selected_keys lhs rhs keys keys_both)
        then ∃ l' r', merge_values (lhs !! k) (rhs !! k) = Ok (l', r', out !! k)
        else out !! k = None).
Proof.
  unfold merge_dict. set (ks := selected_keys lhs rhs keys keys_both).
  split.
  - intros ([[l r] o] & Hloop & [= <-])%PyFacts.bind_returns.
    pose proof (merge_loop_tracks lhs rhs ks ∅ _ _ (tracks_start lhs rhs) Hloop)
      as Hinv.
    split.
    + intros k Hk. specialize (Hinv k).
      rewrite decide_True in Hinv by set_solver.
      destruct Hinv as (l' & r' & ov & Hv & _). by eexists.
    + intros k. specialize (Hinv k). simpl in Hinv. destruct (decide (k ∈ ks)).
      * rewrite decide_True in Hinv by set_solver.
        destruct Hinv as (l' & r' & ov & Hv & _ & _ & <-). by exists l', r'.
      * rewrite decide_False in Hinv by set_solver. by destruct Hinv as (_ & _ & ?).
  - intros [Hret Hout].
    destruct (merge_loop_returns lhs rhs ks ∅ _ (tracks_start lhs rhs) Hret)
      as [[[l r] o] Hloop].
    rewrite Hloop. simpl. f_equal.
    pose proof (merge_loop_tracks lhs rhs ks ∅ _ _ (tracks_start lhs rhs) Hloop)
      as Hinv.
    apply map_eq. intros k. specialize (Hinv k). specialize (Hout k).
    simpl in Hinv. destruct (decide (k ∈ ks)).
    + rewrite decide_True in Hinv by set_solver.
      destruct Hinv as (l' & r' & ov & Hv & _ & _ & <-).
      destruct Hout as (l2 & r2 & Hv2). congruence.
    + rewrite decide_False in Hinv by set_solver.
      destruct Hinv as (_ & _ & ->). done.
Qed.


Lemma elem_of_dict_keys (d : gmap string pyval) k :
  k ∈ dict_keys d ↔ is_Some (d !! k).
Proof.
  unfold dict_keys. rewrite list_elem_of_fmap. split.
  - intros ([k' v] & -> & Hin). apply elem_of_map_to_list in Hin. by eexists.
  - intros [v Hv]. exists (k, v). split; [done |]. by apply elem_of_map_to_list.
Qed.

(** The keys [merge_dict] is to run over, in the words of its
    documentation: the keys given, when there are any; otherwise the keys
    of [lhs], and with [keys_both] those of [rhs] as well. *)
Definition runs_over (lhs rhs : gmap string pyval)
    (keys : option (list string)) (keys_both : bool) (k : string) : Prop :=
  match keys with
  | Some (k0 :: ks) => k ∈ k0 :: ks
  | _ => is_Some (lhs !! k) ∨ (keys_both = true ∧ is_Some (rhs !! k))
  end.

(** A set or a text. *)
Definition set_or_text (v : pyval) : Prop :=
  match v with
  | PSet _ | PStr _ => True
  | _ => False
  end.

(** The pairs of entries on which one round of the loop raises nothing:
    a set goes with any iterable or with no entry, a text with a text or
    with no entry, [None] with any entry, a number or a list with
    anything; no entry goes with anything but [None] and no entry. *)
Definition mergeable (l r : option pyval) : Prop :=
  match l, r with
  | Some (PSet _), Some (PSet _ | PStr _ | PList _) => True
  | Some (PSet _), None => True
  | Some (PStr _), Some (PStr _) => True
  | Some (PStr _), None => True
  | Some PNone, Some _ => True
  | Some (PInt _ | PList _), _ => True
  | None, Some (PSet _ | PStr _ | PInt _ | PList _) => True
  | _, _ => False
  end.

Lemma mergeable_returns l r :
  mergeable l r ↔ returns (merge_values l r).
Proof.
  destruct l as [[| |a|X|l0]|], r as [[| |b|Y|r0]|]; simpl;
    unfold returns, merge_values, mbind, res_bind; simpl;
    split; try done; try (intros _; by eexists); by intros [? ?].
Qed.

Lemma runs_over_selected lhs rhs keys keys_both k :
  runs_over lhs rhs keys keys_both k ↔ k ∈ selected_keys lhs rhs keys keys_both.
Proof.
  unfold runs_over, selected_keys.
  assert (is_Some (lhs !! k) ∨ keys_both = true ∧ is_Some (rhs !! k) ↔
          k ∈ (dict_keys lhs ++ (if keys_both then dict_keys rhs else []))%list)
    as Hd.
  { rewrite elem_of_app, elem_of_dict_keys.
    destruct keys_both; rewrite ?elem_of_dict_keys, ?elem_of_nil.
    - split; intros [Hl | Hr]; auto. by destruct Hr; auto.
    - split; intros [Hl | Hr]; auto; [by destruct Hr | done]. }
  destruct keys as [[| k0 ks]|]; done.
Qed.

(** What the loop has done at each key once it is over. *)
Lemma merge_loop_by_key lhs rhs keys lhs' rhs' out :
  merge_loop keys (lhs, rhs, ∅) = Ok (lhs', rhs', out) →
  ∀ k, k ∈ keys →
    ∃ l' r', merge_values (lhs !! k) (rhs !! k) = Ok (l', r', out !! k) ∧
             lhs' !! k = Some l' ∧ rhs' !! k = Some r'.
Proof.
  intros Hloop k Hk.
  pose proof (merge_loop_tracks lhs rhs keys ∅ _ _ (tracks_start lhs rhs) Hloop k)
    as Hinv.
  rewrite decide_True in Hinv by set_solver.
  destruct Hinv as (l' & r' & ov & Hv & Hl & Hr & <-). by exists l', r'.
Qed.


(** X13. The order of the keys and their repetitions make no
    difference to whether [merge_dict] returns and to what it returns:
    with two non-empty lists of keys that have the same members, it
    returns a dictionary with the one exactly when it returns that
    dictionary with the other, and when it raises with the one it raises
    with the other.  The exception raised can depend on the order:
    merging [{b: "x"}] with [{b: set()}] raises [KeyError] over the keys
    [a, b] and [TypeError] over [b, a]. *)
Theorem merge_dict_keys_order :
  (∀ (lhs rhs : gmap string pyval) (ks ks' : list string) (keys_both : bool),
     ks ≠ [] → ks' ≠ [] → (∀ k, k ∈ ks ↔ k ∈ ks') →
     (∀ out, merge_dict lhs rhs (Some ks) keys_both = Ok out ↔
             merge_dict lhs rhs (Some ks') keys_both = Ok out) ∧
     (∀ e, merge_dict lhs rhs (Some ks) keys_both = Raise e →
           ∃ e', merge_dict lhs rhs (Some ks') keys_both = Raise e')) ∧
  merge_dict {[ "b" := PStr "x" ]} {[ "b" := PSet ∅ ]} (Some ["a"; "b"]) false =
    Raise (KeyError "a") ∧
  merge_dict {[ "b" := PStr "x" ]} {[ "b" := PSet ∅ ]} (Some ["b"; "a"]) false =
    Raise TypeError.
Proof.
  split; [| split; vm_compute; reflexivity].
  intros lhs rhs ks ks' keys_both Hne Hne' Hsame.
  assert (∀ ks1 ks2 out, ks1 ≠ [] → ks2 ≠ [] → (∀ k, k ∈ ks1 ↔ k ∈ ks2) →
            merge_dict lhs rhs (Some ks1) keys_both = Ok out →
            merge_dict lhs rhs (Some ks2) keys_both = Ok out) as Hone.
  { intros ks1 ks2 out H1 H2 H12. rewrite !merge_dict_by_key.
    assert (selected_keys lhs rhs (Some ks1) keys_both = ks1) as ->
      by (by destruct ks1).
    assert (selected_keys lhs rhs (Some ks2) keys_both = ks2) as ->
      by (by destruct ks2).
    intros [Hret Hout]. split.
    - intros k Hk. apply Hret. by apply H12.
    - intros k. specialize (Hout k).
      destruct (decide (k ∈ ks1)) as [Hk | Hk], (decide (k ∈ ks2)) as [Hk' | Hk'];
        try done; exfalso; [apply Hk' | apply Hk]; by apply H12. }
  split.
  - intros out. split; apply Hone; try done; intros k; by rewrite Hsame.
  - intros e He.
    destruct (merge_dict lhs rhs (Some ks') keys_both) as [out|e'] eqn:E;
      [| by exists e'].
    apply (Hone ks' ks) in E; [congruence | done | done |].
    intros k. by rewrite Hsame.
Qed.

(** X14. The result has no key of its own: an entry of the result is
    under a key the loop ran over, which one of the two dictionaries
    has, and holds a set or a text.  With the default keys and
    [keys_both] false it is a key of [lhs]: what only [rhs] has is
    left out. *)
Theorem merge_dict_result_keys (lhs rhs : gmap string pyval)
    (keys : option (list string)) (keys_both : bool)
    (out : gmap string pyval) (k : string) (v : pyval) :
  merge_dict lhs rhs keys keys_both = Ok out → out !! k = Some v →
  k ∈ selected_keys lhs rhs keys keys_both ∧
  (is_Some (lhs !! k) ∨ is_Some (rhs !! k)) ∧
  ((∃ X, v = PSet X) ∨ (∃ a, v = PStr a)) ∧
  (keys = None ∨ keys = Some [] → keys_both = false → is_Some (lhs !! k)).
Proof.
  intros [_ Hout]%merge_dict_by_key Hv. specialize (Hout k).
  destruct (decide (k ∈ selected_keys lhs rhs keys keys_both)) as [Hk | Hk];
    [| congruence].
  destruct Hout as (l' & r' & Hm). rewrite Hv in Hm.
  split; [done |]. split; [| split].
  - destruct (lhs !! k), (rhs !! k); try done; eauto.
  - destruct (lhs !! k) as [[| |a|X|l0]|], (rhs !! k) as [[| |b|Y|r0]|];
      simpl in Hm; try done; injection Hm as _ _ <-; eauto.
  - intros Hkeys ->.
    assert (selected_keys lhs rhs keys false = dict_keys lhs) as E.
    { destruct Hkeys as [-> | ->]; simpl; by rewrite app_nil_r. }
    rewrite E in Hk. by apply elem_of_dict_keys.
Qed.

(** X15. A key that neither dictionary has makes [merge_dict] raise:
    [KeyError] with that key when it is the first of the keys given,
    and some exception wherever it stands among the keys the loop runs
    over. *)
Theorem merge_dict_missing_key (lhs rhs : gmap string pyval) (k : string)
    (keys_both : bool) :
  lhs !! k = None → rhs !! k = None →
  (∀ ks, merge_dict lhs rhs (Some (k :: ks)) keys_both = Raise (KeyError k)) ∧
  (∀ keys out, k ∈ selected_keys lhs rhs keys keys_both →
     merge_dict lhs rhs keys keys_both ≠ Ok out).
Proof.
  intros Hl Hr. split.
  - intros ks. unfold merge_dict. simpl.
    unfold merge_key, dict_get, mbind, res_bind.
    rewrite decide_True by (by rewrite not_elem_of_dom). by rewrite Hl.
  - intros keys out Hk [Hret _]%merge_dict_by_key.
    destruct (Hret k Hk) as [x Hx]. by rewrite Hl, Hr in Hx.
Qed.

(** X16. Entries of two types.  A set in [lhs] and a text in [rhs] are
    combined as a set with an iterable: the result holds the set with
    the characters of the text added one by one.  A text in [lhs] and a
    set in [rhs] cannot be combined, and [merge_dict] raises. *)
Theorem merge_dict_mixed_types (lhs rhs : gmap string pyval)
    (keys : option (list string)) (keys_both : bool) (k : string) :
  k ∈ selected_keys lhs rhs keys keys_both →
  (∀ X s out,
     lhs !! k = Some (PSet X) → rhs !! k = Some (PStr s) →
     merge_dict lhs rhs keys keys_both = Ok out →
     out !! k = Some (PSet (X ∪ list_to_set (chars s)))) ∧
  (∀ a X out,
     lhs !! k = Some (PStr a) → rhs !! k = Some (PSet X) →
     merge_dict lhs rhs keys keys_both ≠ Ok out).
Proof.
  intros Hk. split.
  - intros X s out Hl Hr [_ Hout]%merge_dict_by_key. specialize (Hout k).
    rewrite decide_True in Hout by done. destruct Hout as (l' & r' & Hm).
    rewrite Hl, Hr in Hm. simpl in Hm. by injection Hm as _ _ <-.
  - intros a X out Hl Hr [Hret _]%merge_dict_by_key.
    destruct (Hret k Hk) as [x Hx]. by rewrite Hl, Hr in Hx.
Qed.

(** Dictionaries of sets. *)
Definition sets_only (d : gmap string pyval) : Prop :=
  ∀ k v, d !! k = Some v → ∃ X, v = PSet X.

(** Dictionaries of sets and texts. *)
Definition sets_and_texts (d : gmap string pyval) : Prop :=
  ∀ k v, d !! k = Some v → (∃ X, v = PSet X) ∨ (∃ a, v = PStr a).

(** X17. The empty dictionary.  With the default keys and [keys_both]
    false, merging the empty dictionary with anything gives the empty
    dictionary: nothing of [rhs] is taken.  A dictionary of sets and
    texts merged with the empty one is returned as it is, and so is it
    when it is the right one and [keys_both] is true. *)
Theorem merge_dict_empty (d : gmap string pyval) :
  merge_dict ∅ d None false = Ok ∅ ∧
  (sets_and_texts d →
   (∀ keys_both, merge_dict d ∅ None keys_both = Ok d) ∧
   merge_dict ∅ d None true = Ok d).
Proof.
  split; [| intros Hd; split; [intros keys_both |]].
  - unfold merge_dict, selected_keys, dict_keys. by rewrite map_to_list_empty.
  - apply merge_dict_by_key.
    assert (∀ k, k ∈ selected_keys d ∅ None keys_both ↔ is_Some (d !! k)) as Hk.
    { intros k. simpl. rewrite elem_of_app, !elem_of_dict_keys.
      destruct keys_both; [rewrite elem_of_dict_keys | rewrite elem_of_nil];
        rewrite ?lookup_empty, ?is_Some_alt; tauto. }
    split.
    + intros k [v Hv]%Hk. rewrite Hv, lookup_empty.
      destruct (Hd k v Hv) as [[X ->] | [a ->]]; by eexists.
    + intros k. destruct (decide _) as [[v Hv]%Hk | Hn].
      * rewrite Hv, lookup_empty.
        destruct (Hd k v Hv) as [[X ->] | [a ->]];
          eexists _, _; unfold merge_values, mbind, res_bind; simpl.
        -- by rewrite union_empty_r_L.
        -- by rewrite StringFacts.app_nil_r.
      * rewrite Hk in Hn. by apply eq_None_not_Some.
  - apply merge_dict_by_key.
    assert (∀ k, k ∈ selected_keys ∅ d None true ↔ is_Some (d !! k)) as Hk.
    { intros k. simpl. rewrite elem_of_app, !elem_of_dict_keys.
      rewrite lookup_empty, is_Some_alt. tauto. }
    split.
    + intros k [v Hv]%Hk. rewrite Hv, lookup_empty.
      destruct (Hd k v Hv) as [[X ->] | [a ->]]; by eexists.
    + intros k. destruct (decide _) as [[v Hv]%Hk | Hn].
      * rewrite Hv, lookup_empty.
        destruct (Hd k v Hv) as [[X ->] | [a ->]];
          eexists _, _; unfold merge_values, mbind, res_bind; simpl.
        -- by rewrite union_empty_l_L.
        -- done.
      * rewrite Hk in Hn. by apply eq_None_not_Some.
Qed.


(** The state of the loop with the two copies exchanged. *)
Definition swap (x : res (gmap string pyval * gmap string pyval * gmap string pyval))
    : res (gmap string pyval * gmap string pyval * gmap string pyval) :=
  match x with
  | Ok (l, r, o) => Ok (r, l, o)
  | Raise e => Raise e
  end.

Lemma sets_only_insert d k X : sets_only d → sets_only (<[k := PSet X]> d).
Proof.
  intros Hd k' v. destruct (decide (k' = k)) as [-> | Hne].
  - rewrite lookup_insert_eq. intros [= <-]. by exists X.
  - rewrite lookup_insert_ne by done. apply Hd.
Qed.

(** On dictionaries of sets a round does the same whichever copy is the
    left one. *)
Lemma merge_key_swap l r o k :
  sets_only l → sets_only r →
  merge_key (r, l, o) k = swap (merge_key (l, r, o) k) ∧
  (∀ l' r' o', merge_key (l, r, o) k = Ok (l', r', o') →
               sets_only l' ∧ sets_only r').
Proof.
  intros Hl Hr.
  destruct (l !! k) as [lv|] eqn:El, (r !! k) as [rv|] eqn:Er.
  - destruct (Hl k lv El) as [X ->], (Hr k rv Er) as [Y ->].
    rewrite (merge_key_values l r o k (PSet X) (PSet Y) (Some (PSet (X ∪ Y))))
      by (by rewrite El, Er).
    rewrite (merge_key_values r l o k (PSet Y) (PSet X) (Some (PSet (Y ∪ X))))
      by (by rewrite El, Er).
    split; [simpl; by rewrite (union_comm_L X Y) |].
    intros l' r' o' [= <- <- _]. split; by apply sets_only_insert.
  - destruct (Hl k lv El) as [X ->].
    rewrite (merge_key_values l r o k (PSet X) (PSet ∅) (Some (PSet (X ∪ ∅))))
      by (by rewrite El, Er).
    rewrite (merge_key_values r l o k (PSet ∅) (PSet X) (Some (PSet (∅ ∪ X))))
      by (by rewrite El, Er).
    split; [simpl; by rewrite (union_comm_L X ∅) |].
    intros l' r' o' [= <- <- _]. split; by apply sets_only_insert.
  - destruct (Hr k rv Er) as [Y ->].
    rewrite (merge_key_values l r o k (PSet ∅) (PSet Y) (Some (PSet (∅ ∪ Y))))
      by (by rewrite El, Er).
    rewrite (merge_key_values r l o k (PSet Y) (PSet ∅) (Some (PSet (Y ∪ ∅))))
      by (by rewrite El, Er).
    split; [simpl; by rewrite (union_comm_L Y ∅) |].
    intros l' r' o' [= <- <- _]. split; by apply sets_only_insert.
  - unfold merge_key, dict_get, mbind, res_bind.
    rewrite !decide_True by (by rewrite not_elem_of_dom).
    by rewrite El, Er.
Qed.

Lemma merge_loop_swap keys : ∀ l r o,
  sets_only l → sets_only r →
  merge_loop keys (r, l, o) = swap (merge_loop keys (l, r, o)).
Proof.
  induction keys as [|k keys IH]; intros l r o Hl Hr; cbn [merge_loop]; [done |].
  destruct (merge_key_swap l r o k Hl Hr) as [-> Hkeep].
  destruct (merge_key (l, r, o) k) as [[[l' r'] o']|e]; cbn [swap]; [| done].
  change (merge_loop keys (r', l', o') = swap (merge_loop keys (l', r', o'))).
  destruct (Hkeep l' r' o' eq_refl) as [Hl' Hr']. by apply IH.
Qed.

(** X18. On dictionaries of sets merging is commutative: with the same
    keys given, [merge_dict] of [lhs] and [rhs] and [merge_dict] of
    [rhs] and [lhs] return the same dictionary, or raise the same
    exception; with the default keys and [keys_both] true they return
    the same dictionary. *)
Theorem merge_dict_sets_commute (lhs rhs : gmap string pyval) :
  sets_only lhs → sets_only rhs →
  (∀ k ks keys_both,
     merge_dict lhs rhs (Some (k :: ks)) keys_both =
     merge_dict rhs lhs (Some (k :: ks)) keys_both) ∧
  ∃ out, merge_dict lhs rhs None true = Ok out ∧
         merge_dict rhs lhs None true = Ok out.
Proof.
  intros Hl Hr. split.
  - intros k ks keys_both. unfold merge_dict.
    change (selected_keys lhs rhs (Some (k :: ks)) keys_both) with (k :: ks).
    change (selected_keys rhs lhs (Some (k :: ks)) keys_both) with (k :: ks).
    rewrite (merge_loop_swap (k :: ks) lhs rhs ∅ Hl Hr).
    by destruct (merge_loop (k :: ks) (lhs, rhs, ∅)) as [[[l r] o]|e].
  - assert (∀ k, k ∈ selected_keys lhs rhs None true ↔
                 k ∈ selected_keys rhs lhs None true) as Hsame.
    { intros k. simpl. rewrite !elem_of_app. tauto. }
    assert (∀ l r l' r' ov, sets_only l → sets_only r → ∀ k,
              merge_values (l !! k) (r !! k) = Ok (l', r', ov) →
              ∃ l2 r2, merge_values (r !! k) (l !! k) = Ok (l2, r2, ov)) as Hsym.
    { intros l r l' r' ov Hl0 Hr0 k.
      destruct (l !! k) as [lv|] eqn:El, (r !! k) as [rv|] eqn:Er; [| | | done].
      - destruct (Hl0 k lv El) as [X ->], (Hr0 k rv Er) as [Y ->].
        intros [= <- <- <-]. eexists _, _. simpl. by rewrite (union_comm_L X Y).
      - destruct (Hl0 k lv El) as [X ->].
        intros [= <- <- <-]. eexists _, _. simpl. by rewrite (union_comm_L X ∅).
      - destruct (Hr0 k rv Er) as [Y ->].
        intros [= <- <- <-]. eexists _, _. simpl. by rewrite (union_comm_L ∅ Y). }
    assert (returns (merge_dict lhs rhs None true)) as [out Hout].
    { unfold merge_dict.
      destruct (merge_loop_returns lhs rhs (selected_keys lhs rhs None true) ∅
                  _ (tracks_start lhs rhs)) as [[[l r] o] ->]; [| by eexists].
      intros k. simpl. rewrite elem_of_app, !elem_of_dict_keys.
      intros [[v Hv] | [v Hv]]; rewrite Hv.
      - destruct (Hl k v Hv) as [X ->]. destruct (rhs !! k) as [rv|] eqn:Er.
        + destruct (Hr k rv Er) as [Y ->]. by eexists.
        + by eexists.
      - destruct (Hr k v Hv) as [Y ->]. destruct (lhs !! k) as [lv|] eqn:El.
        + destruct (Hl k lv El) as [X ->]. by eexists.
        + by eexists. }
    exists out. split; [done |].
    apply merge_dict_by_key in Hout as [Hret Hval]. apply merge_dict_by_key.
    split.
    + intros k Hk%Hsame. destruct (Hret k Hk) as [[[l' r'] ov] Hv].
      destruct (Hsym lhs rhs l' r' ov Hl Hr k Hv) as (l2 & r2 & Hv2). by eexists.
    + intros k. specialize (Hval k).
      destruct (decide (k ∈ selected_keys lhs rhs None true)) as [Hk | Hk],
        (decide (k ∈ selected_keys rhs lhs None true)) as [Hk' | Hk'];
        try done; try (exfalso; by apply Hsame in Hk');
        try (exfalso; by apply Hsame in Hk).
      destruct Hval as (l' & r' & Hv).
      by apply (Hsym lhs rhs l' r' _ Hl Hr k).
Qed.


(** *** Instances *)

Definition counted_notes : gmap string pyval :=
  {[ "count" := PInt 3; "bindings" := PSet {[ EStr "PySide" ]};
     "notes" := PStr "old-style" ]}.


Lemma merge_dict_keys_order_witness :
  merge_dict with_notes pyqt5 (Some ["notes"; "bindings"]) false =
    Ok {[ "bindings" := PSet {[ EStr "PySide"; EStr "PyQt5" ]};
          "notes" := PStr "old-style" ]} ∧
  merge_dict with_notes pyqt5 (Some ["bindings"; "notes"; "bindings"]) false =
    Ok {[ "bindings" := PSet {[ EStr "PySide"; EStr "PyQt5" ]};
          "notes" := PStr "old-style" ]}.
Proof.
  assert (merge_dict with_notes pyqt5 (Some ["notes"; "bindings"]) false =
    Ok {[ "bindings" := PSet {[ EStr "PySide"; EStr "PyQt5" ]};
          "notes" := PStr "old-style" ]}) as Hrun by (vm_compute; reflexivity).
  split; [exact Hrun |].
  apply (proj1 (proj1 merge_dict_keys_order with_notes pyqt5 ["notes"; "bindings"]
           ["bindings"; "notes"; "bindings"] false ltac:(done) ltac:(done)
           ltac:(intros k; rewrite !elem_of_cons, !elem_of_nil; tauto))).
  exact Hrun.
Defined.

Lemma merge_dict_result_keys_witness :
  merge_dict counted_bindings (counted 4) None false = Ok pyside ∧
  pyside !! "bindings" = Some (PSet {[ EStr "PySide" ]}) ∧
  "bindings" ∈ selected_keys counted_bindings (counted 4) None false ∧
  is_Some (counted_bindings !! "bindings").
Proof.
  assert (merge_dict counted_bindings (counted 4) None false = Ok pyside) as Hrun
    by (vm_compute; reflexivity).
  assert (pyside !! "bindings" = Some (PSet {[ EStr "PySide" ]})) as Hv
    by (vm_compute; reflexivity).
  split; [exact Hrun |]. split; [exact Hv |].
  destruct (merge_dict_result_keys counted_bindings (counted 4) None false pyside
              "bindings" (PSet {[ EStr "PySide" ]}) Hrun Hv)
    as (Hk & _ & _ & Hl).
  split; [exact Hk |]. apply Hl; [by left | reflexivity].
Defined.

Lemma merge_dict_missing_key_witness :
  pyside !! "used" = None ∧ pyqt5 !! "used" = None ∧
  (∀ ks, merge_dict pyside pyqt5 (Some ("used" :: ks)) false =
         Raise (KeyError "used")) ∧
  (∀ keys out, "used" ∈ selected_keys pyside pyqt5 keys false →
     merge_dict pyside pyqt5 keys false ≠ Ok out).
Proof.
  split; [reflexivity |]. split; [reflexivity |].
  apply (merge_dict_missing_key pyside pyqt5 "used" false); reflexivity.
Defined.

(** A text under the key of the bindings. *)
Definition binding_text : gmap string pyval := {[ "bindings" := PStr "Qt" ]}.

Lemma merge_dict_mixed_types_witness :
  "bindings" ∈ selected_keys pyside binding_text (Some ["bindings"]) false ∧
  merge_dict pyside binding_text (Some ["bindings"]) false =
    Ok {[ "bindings" := PSet {[ EStr "PySide"; EStr "Q"; EStr "t" ]} ]} ∧
  ({[ "bindings" := PSet {[ EStr "PySide"; EStr "Q"; EStr "t" ]} ]}
     : gmap string pyval) !! "bindings" =
    Some (PSet ({[ EStr "PySide" ]} ∪ list_to_set (chars "Qt"))).
Proof.
  assert ("bindings" ∈ selected_keys pyside binding_text (Some ["bindings"]) false)
    as Hk by (simpl; repeat constructor).
  assert (merge_dict pyside binding_text (Some ["bindings"]) false =
            Ok {[ "bindings" := PSet {[ EStr "PySide"; EStr "Q"; EStr "t" ]} ]})
    as Hrun by (vm_compute; reflexivity).
  split; [exact Hk |]. split; [exact Hrun |].
  apply (proj1 (merge_dict_mixed_types pyside binding_text (Some ["bindings"])
                  false "bindings" Hk) {[ EStr "PySide" ]} "Qt");
    [reflexivity | reflexivity | exact Hrun].
Defined.

Lemma merge_dict_sets_commute_witness :
  sets_only pyside ∧ sets_only pyqt5 ∧
  merge_dict pyside pyqt5 (Some ["bindings"]) false =
    merge_dict pyqt5 pyside (Some ["bindings"]) false.
Proof.
  assert (sets_only pyside) as H1.
  { intros k v. unfold pyside. intros [_ <-]%lookup_singleton_Some. by eexists. }
  assert (sets_only pyqt5) as H2.
  { intros k v. unfold pyqt5. intros [_ <-]%lookup_singleton_Some. by eexists. }
  split; [exact H1 |]. split; [exact H2 |].
  apply (proj1 (merge_dict_sets_commute pyside pyqt5 H1 H2)).
Defined.

End MergeFacts.

(** ** Messages and bindings *)

Module VerboseFacts.
Import General GeneralFacts.

Section Verbose.

Variable __supports_color : bool.
Context {R : Type}.
Variable str_node : node → string.
Variable str_handler : (string → M R) → string.

(** The line of a node as the message shows it. *)
Definition line_text (node : node) : string :=
  match absolute_bounding_box node with
  | None => "N/A"
  | Some bbox => pretty (line (top_left bbox) - 1)%Z
  end.

(** The two templates of the default message. *)
Lemma format_replacing (kw : gmap string (QSignal.value string)) o r :
  kw !! "original" = Some (QSignal.VStr o) →
  kw !! "replacement" = Some (QSignal.VStr r) →
  QSignal.format (λ a : string, a)
    ("Replacing " +:+ dquote +:+ "{original}" +:+ dquote +:+ " with " +:+
     dquote +:+ "{replacement}" +:+ dquote) kw =
    Ok ("Replacing " +:+ dquote +:+ o +:+ dquote +:+ " with " +:+ dquote +:+
        r +:+ dquote).
Proof.
  intros Ho Hr. unfold QSignal.format. simpl. rewrite Ho, Hr. simpl.
  by StringFacts.norm_app.
Qed.

Lemma format_replacing_at (kw : gmap string (QSignal.value string)) o r l :
  kw !! "original" = Some (QSignal.VStr o) →
  kw !! "replacement" = Some (QSignal.VStr r) →
  kw !! "line" = Some (QSignal.VStr l) →
  QSignal.format (λ a : string, a)
    (("Replacing " +:+ dquote +:+ "{original}" +:+ dquote +:+ " with " +:+
      dquote +:+ "{replacement}" +:+ dquote) +:+ " at line {line}") kw =
    Ok ("Replacing " +:+ dquote +:+ o +:+ dquote +:+ " with " +:+ dquote +:+
        r +:+ dquote +:+ " at line " +:+ l).
Proof.
  intros Ho Hr Hl. unfold QSignal.format. simpl. rewrite Ho, Hr, Hl. simpl.
  StringFacts.norm_app. by rewrite StringFacts.app_nil_r.
Qed.

(** X19. With the default message [_change_verbose] never raises by
    itself: it calls the handler once, with [Replacing "original" with
    "replacement"], where the original is the text of the node without
    line ends around it, both coloured by [_color], and, unless
    [skip_lineno] is set, [at line] and the node's first line less one,
    or [N/A] for a node that has no bounding box.  Braces in the two
    texts are not read as fields.  What the handler returns or raises is
    the outcome. *)
Theorem change_verbose_default (handler : string → M R) (node : node)
    (replacement : string) (σ : state) :
  _change_verbose __supports_color str_node str_handler handler node
      replacement false None σ =
    handler ("Replacing " +:+ dquote +:+
             _color __supports_color 37 (strip "010" (str_node node)) +:+
             dquote +:+ " with " +:+ dquote +:+
             _color __supports_color 37 replacement +:+ dquote +:+
             " at line " +:+ line_text node) σ ∧
  _change_verbose __supports_color str_node str_handler handler node
      replacement true None σ =
    handler ("Replacing " +:+ dquote +:+
             _color __supports_color 37 (strip "010" (str_node node)) +:+
             dquote +:+ " with " +:+ dquote +:+
             _color __supports_color 37 replacement +:+ dquote) σ.
Proof.
  split; unfold _change_verbose, line_text; cbn [negb];
    unfold mbind, M_bind, lift_res.
  - rewrite (format_replacing_at _
               (_color __supports_color 37 (strip "010" (str_node node)))
               (_color __supports_color 37 replacement)
               (match absolute_bounding_box node with
                | Some bbox => pretty (line (top_left bbox) - 1)%Z
                | None => "N/A"
                end)); [done | by simplify_map_eq..|].
    rewrite lookup_insert_ne, lookup_insert_eq by done.
    by destruct (absolute_bounding_box node).
  - rewrite (format_replacing _
               (_color __supports_color 37 (strip "010" (str_node node)))
               (_color __supports_color 37 replacement));
      [done | by simplify_map_eq..].
Qed.

(** Text without braces: a template with no field in it. *)
Fixpoint braceless (t : string) : bool :=
  match t with
  | EmptyString => true
  | String c t' =>
      negb (Ascii.eqb c "{") && negb (Ascii.eqb c "}") && braceless t'
  end.

Lemma format_go_braceless (kw : gmap string (QSignal.value string)) pre t :
  braceless pre →
  QSignal.format_go (λ a : string, a) (pre +:+ t) None kw =
    out ← QSignal.format_go (λ a : string, a) t None kw; Ok (pre +:+ out).
Proof.
  induction pre as [|c pre IH]; intros Hpre; simpl.
  - by destruct (QSignal.format_go _ t None kw).
  - simpl in Hpre.
    apply andb_prop_elim in Hpre as [[Ho _]%andb_prop_elim Hpre].
    destruct (Ascii.eqb c "{"); [done |].
    rewrite (IH Hpre). by destruct (QSignal.format_go _ t None kw).
Qed.

Lemma format_go_plain (kw : gmap string (QSignal.value string)) pre :
  braceless pre → QSignal.format_go (λ a : string, a) pre None kw = Ok pre.
Proof.
  intros Hpre. rewrite <- (StringFacts.app_nil_r pre) at 1.
  rewrite format_go_braceless by done. simpl.
  by rewrite StringFacts.app_nil_r.
Qed.

Lemma format_go_at_line (kw : gmap string (QSignal.value string)) l :
  kw !! "line" = Some (QSignal.VStr l) →
  QSignal.format_go (λ a : string, a) " at line {line}" None kw =
    Ok (" at line " +:+ l).
Proof. intros Hl. simpl. rewrite Hl. simpl. by rewrite StringFacts.app_nil_r. Qed.

Lemma format_go_no_line (kw : gmap string (QSignal.value string)) post :
  kw !! "line" = None →
  QSignal.format_go (λ a : string, a) ("{line}" +:+ post) None kw =
    Raise (KeyError "line").
Proof. intros Hl. simpl. by rewrite Hl. Qed.

(** X20. A custom message.  One without any field is passed to the
    handler as it is, followed by [at line] and the line unless
    [skip_lineno] is set.  One that names the field [line] while
    [skip_lineno] is set raises [KeyError] for [line], and the handler
    is not called: the variable is assigned only when the line is
    wanted. *)
Theorem change_verbose_custom (handler : string → M R) (node : node)
    (replacement : string) (pre post : string) (σ : state) :
  braceless pre →
  _change_verbose __supports_color str_node str_handler handler node
      replacement false (Some pre) σ =
    handler (pre +:+ " at line " +:+ line_text node) σ ∧
  _change_verbose __supports_color str_node str_handler handler node
      replacement true (Some pre) σ = handler pre σ ∧
  _change_verbose __supports_color str_node str_handler handler node
      replacement true (Some (pre +:+ "{line}" +:+ post)) σ =
    Raise (KeyError "line").
Proof.
  intros Hpre.
  split; [| split]; unfold _change_verbose, line_text; cbn [negb];
    unfold mbind, M_bind, lift_res, QSignal.format.
  - rewrite format_go_braceless by done.
    rewrite (format_go_at_line _
               (match absolute_bounding_box node with
                | Some bbox => pretty (line (top_left bbox) - 1)%Z
                | None => "N/A"
                end)); [done |].
    rewrite lookup_insert_ne, lookup_insert_eq by done.
    by destruct (absolute_bounding_box node).
  - by rewrite format_go_plain.
  - rewrite format_go_braceless by done.
    rewrite format_go_no_line; [done |].
    rewrite lookup_insert_ne by done.
    repeat (rewrite lookup_insert_ne by done). by rewrite lookup_singleton_ne.
Qed.

End Verbose.

(** *** Instances *)

(** A handler that prints the message, as [print] does. *)
Definition printer : string → M () := print.

Lemma change_verbose_custom_witness :
  braceless "Dropping the import" ∧
  _change_verbose true (λ _, "import sip") (λ _, "<built-in function print>")
      printer span_3_5 "pass" false (Some "Dropping the import") initial_state =
    printer ("Dropping the import" +:+ " at line " +:+ "2") initial_state ∧
  _change_verbose true (λ _, "import sip") (λ _, "<built-in function print>")
      printer span_3_5 "pass" true (Some "Dropping the import") initial_state =
    printer "Dropping the import" initial_state ∧
  _change_verbose true (λ _, "import sip") (λ _, "<built-in function print>")
      printer span_3_5 "pass" true
      (Some ("Dropping the import" +:+ "{line}" +:+ ".")) initial_state =
    Raise (KeyError "line").
Proof.
  split; [exact I |].
  apply (change_verbose_custom true (λ _, "import sip")
           (λ _, "<built-in function print>") printer span_3_5 "pass"
           "Dropping the import" "." initial_state).
  exact I.
Defined.

(** *** The supported bindings *)

(** [sep.join(pieces)] *)
Fixpoint join (sep : ascii) (pieces : list string) : string :=
  match pieces with
  | [] => EmptyString
  | [piece] => piece
  | piece :: pieces' => piece +:+ String sep (join sep pieces')
  end.

Lemma split_cons sep s : ∃ piece pieces, split sep s = piece :: pieces.
Proof.
  induction s as [|c s (piece & pieces & IH)]; simpl; [by eexists _, _ |].
  destruct (Ascii.eqb c sep); [by eexists _, _ |]. rewrite IH. by eexists _, _.
Qed.

Lemma join_cons sep piece pieces :
  pieces ≠ [] →
  join sep (piece :: pieces) = piece +:+ String sep (join sep pieces).
Proof. by destruct pieces. Qed.

Lemma join_split sep s : join sep (split sep s) = s.
Proof.
  induction s as [|c s IH]; [done |]. cbn [split].
  destruct (split_cons sep s) as (piece & pieces & E).
  destruct (Ascii.eqb_spec c sep) as [-> | Hne].
  - rewrite join_cons by (by rewrite E). by rewrite IH.
  - rewrite E in *. destruct pieces as [|piece' pieces]; [simpl in *; by rewrite IH |].
    rewrite join_cons in IH by done. rewrite join_cons by done.
    by rewrite <- IH.
Qed.

Lemma split_pieces sep s piece :
  piece ∈ split sep s → ReFacts.occurs sep piece = false.
Proof.
  revert piece. induction s as [|c s IH]; intros piece; cbn [split].
  - by intros ->%list_elem_of_singleton.
  - destruct (split_cons sep s) as (p & ps & E). rewrite E in *.
    destruct (Ascii.eqb_spec c sep) as [-> | Hne].
    + intros [-> | Hin]%elem_of_cons; [done | by apply IH].
    + intros [-> | Hin]%elem_of_cons.
      * simpl. rewrite (IH p) by (by left).
        destruct (Ascii.eqb_spec sep c); [congruence | done].
      * apply IH. by right.
Qed.

Section Bindings.

Variable pathsep : ascii.
Variable str_list : list string → string.

(** X21. The four bindings supported out of the box are always
    supported, in front and in their order.  Without the environment
    variable, or with an empty one, they are all there is and nothing
    is printed.  Otherwise the variable is cut at every [os.pathsep]
    and the pieces follow, in their order and also when they are empty:
    joined by [os.pathsep] they give the variable back, and none has
    the separator in it; one line is printed.  The store of aliases is
    not touched. *)
Theorem supported_bindings_spec (env : option string) (σ : state) :
  ∃ custom σ',
    __supported_bindings__ pathsep str_list env σ =
      Ok (["PySide2"; "PySide"; "PyQt5"; "PyQt4"] ++ custom, σ') ∧
    heap σ' = heap σ ∧ AliasDict σ' = AliasDict σ ∧
    match env with
    | Some (String c s) =>
        custom ≠ [] ∧ join pathsep custom = String c s ∧
        (∀ piece, piece ∈ custom → ReFacts.occurs pathsep piece = false) ∧
        stdout σ' =
          stdout σ ++ ["Found Custom Bindings. Adding: " +:+ str_list custom]
    | _ => custom = [] ∧ stdout σ' = stdout σ
    end.
Proof.
  destruct env as [[|c s]|].
  - exists [], σ. by rewrite app_nil_r.
  - exists (split pathsep (String c s)). eexists. split; [done |]. simpl.
    split; [done |]. split; [done |]. split.
    { destruct (split_cons pathsep (String c s)) as (p & ps & E).
      cbn [split] in E. by rewrite E. }
    split; [apply (join_split pathsep (String c s)) |]. split; [| done].
    intros piece. apply (split_pieces pathsep (String c s)).
  - exists [], σ. by rewrite app_nil_r.
Qed.

End Bindings.

End VerboseFacts.
